(** * plugins-translations: the translation coordinator, in Rocq

    A shallow embedding of [plugintranslations/translator.py] (class
    [PluginTranslator]) and [plugintranslations/throttle.py] (class
    [Throttle]), with the properties the specification states about them.

    Conventions.
    - A Python [str] is a [string] (its UTF-8 bytes); byte-wise comparison of
      UTF-8 agrees with Python's code-point comparison.
    - A Python [dict] whose iteration order is observable (the files of the
      plugin, a JSON object) is an association list with unique keys, in
      insertion order; a [dict] that is only read by key (the translation
      cache, the translations of a prompt) is a [gmap].
    - Mutation of [self] is explicit state passing; a method that may raise
      returns a [result].  The remote provider, the clock and the file system
      are an environment: an oracle [Env] that answers requests, and a [World]
      that records what the program did to it. *)

From Stdlib Require Import ZArith Lia Ascii String List Sorted Permutation.
From stdpp Require Import gmap strings list fin_maps.
Import ListNotations.

#[local] Open Scope string_scope.
#[local] Open Scope list_scope.
#[local] Set Warnings "-register-all".

(** ** Python values *)

Module Py.

(** What [json.loads] returns. *)
Inductive json : Type :=
| JNull
| JBool (b : bool)
| JNum (z : Z)
| JStr (s : string)
| JList (l : list json)
| JObj (o : list (string * json)).

(** Exceptions the modelled code raises or lets through. *)
Inductive exn : Type :=
| ValueError (msg : string)
| RuntimeError (msg : string)
| KeyError (key : string)
| TypeError (msg : string)
| JSONDecodeError
| ProviderError.

Inductive result (A : Type) : Type :=
| Ok (a : A)
| Raise (e : exn).
Arguments Ok {A} a.
Arguments Raise {A} e.

(** *** Insertion-ordered dictionaries with string keys *)

Section Dict.
Context {V : Type}.

Fixpoint dict_get (k : string) (d : list (string * V)) : option V :=
  match d with
  | [] => None
  | (k', v) :: d' => if String.eqb k k' then Some v else dict_get k d'
  end.

Definition dict_has (k : string) (d : list (string * V)) : bool :=
  match dict_get k d with Some _ => true | None => false end.

(** [d[k] = v]: an existing key keeps its place, a new one goes last. *)
Fixpoint dict_set (k : string) (v : V) (d : list (string * V)) : list (string * V) :=
  match d with
  | [] => [(k, v)]
  | (k', v') :: d' =>
      if String.eqb k k' then (k, v) :: d' else (k', v') :: dict_set k v d'
  end.

End Dict.

(** *** [str.strip()] *)

(** The white space of [str.isspace] below U+0080. *)
Definition is_space (a : ascii) : bool :=
  let n := nat_of_ascii a in
  ((9 <=? n)%nat && (n <=? 13)%nat) || ((28 <=? n)%nat && (n <=? 32)%nat).

(** The white space of [str.isspace] from U+0080 on, as UTF-8 byte sequences:
    U+0085, U+00A0, U+1680, U+2000..U+200A, U+2028, U+2029, U+202F, U+205F,
    U+3000. *)
Definition wide_spaces : list (list nat) :=
  [ [194; 133]; [194; 160]; [225; 154; 128];
    [226; 128; 128]; [226; 128; 129]; [226; 128; 130]; [226; 128; 131];
    [226; 128; 132]; [226; 128; 133]; [226; 128; 134]; [226; 128; 135];
    [226; 128; 136]; [226; 128; 137]; [226; 128; 138];
    [226; 128; 168]; [226; 128; 169]; [226; 128; 175];
    [226; 129; 159]; [227; 128; 128] ].

Fixpoint strip_prefix (p : list nat) (l : list ascii) : option (list ascii) :=
  match p, l with
  | [], _ => Some l
  | n :: p', a :: l' => if (n =? nat_of_ascii a)%nat then strip_prefix p' l' else None
  | _ :: _, [] => None
  end.

Fixpoint first_some {A B} (f : A -> option B) (xs : list A) : option B :=
  match xs with
  | [] => None
  | x :: xs' => match f x with Some b => Some b | None => first_some f xs' end
  end.

(** Drops one leading white-space character, if there is one; [spaces] is
    [wide_spaces], or its sequences reversed when the list is read from its
    end. *)
Definition drop_space (spaces : list (list nat)) (l : list ascii) : option (list ascii) :=
  match l with
  | [] => None
  | a :: l' =>
      if is_space a then Some l' else first_some (fun p => strip_prefix p l) spaces
  end.

Fixpoint lstrip_fuel (fuel : nat) (spaces : list (list nat)) (l : list ascii) : list ascii :=
  match fuel with
  | O => l
  | S fuel' =>
      match drop_space spaces l with
      | Some l' => lstrip_fuel fuel' spaces l'
      | None => l
      end
  end.

(** Every step drops a byte at least, so the length of the list is fuel
    enough. *)
Definition lstrip_list (spaces : list (list nat)) (l : list ascii) : list ascii :=
  lstrip_fuel (length l) spaces l.

Definition strip (s : string) : string :=
  let l := lstrip_list wide_spaces (list_ascii_of_string s) in
  let r := lstrip_list (map (@rev nat) wide_spaces) (rev l) in
  string_of_list_ascii (rev r).

(** *** [str.split(',')] *)

Fixpoint split_comma_aux (cur : list ascii) (l : list ascii) : list string :=
  match l with
  | [] => [string_of_list_ascii (rev cur)]
  | a :: l' =>
      if Ascii.eqb a ","%char
      then string_of_list_ascii (rev cur) :: split_comma_aux [] l'
      else split_comma_aux (a :: cur) l'
  end.

Definition split_comma (s : string) : list string :=
  split_comma_aux [] (list_ascii_of_string s).

(** *** [sorted(set(xs))] on strings *)

Fixpoint insert_sorted (x : string) (l : list string) : list string :=
  match l with
  | [] => [x]
  | y :: l' => if String.leb x y then x :: l else y :: insert_sorted x l'
  end.

(** [sorted]: Python's sort is stable and the order on [str] is total, so the
    result is the one ordered arrangement of the input; insertion sort
    computes it. *)
Fixpoint sorted (l : list string) : list string :=
  match l with
  | [] => []
  | x :: l' => insert_sorted x (sorted l')
  end.

(** [set(xs)]: the distinct elements of [xs].  The iteration order of a Python
    set is unspecified; the only use ([sorted(set(..))]) does not depend on
    it. *)
Definition set_of (l : list string) : list string := remove_dups l.

End Py.
Import Py.

(** ** Collaborators of the coordinator *)

(** Modelled from the spec: the class [Prompt] (its module is not part of this
    source tree).  A prompt is identified by its literal source text and owns
    a mapping from language code to translated text, empty when the prompt is
    created.  [set_translations] copies the given translations onto the
    prompt; a language "lacks a translation" ([has_translation] is false)
    when the mapping has no entry for it. *)
Record Prompt : Type := {
  text : string;
  translations : gmap string string
}.

Definition new_prompt (t : string) : Prompt :=
  {| text := t; translations := ∅ |}.

Definition get_text (p : Prompt) : string := text p.

Definition set_translations (tr : gmap string string) (p : Prompt) : Prompt :=
  {| text := text p; translations := tr ∪ translations p |}.

Definition set_translation (language translation : string) (p : Prompt) : Prompt :=
  {| text := text p; translations := <[language := translation]> (translations p) |}.

Definition has_translation (language : string) (p : Prompt) : bool :=
  bool_decide (is_Some (translations p !! language)).

Definition get_translation (language : string) (p : Prompt) : string :=
  default "" (translations p !! language).

(** Modelled from the spec: the class [Translations], the translation cache
    (its module is not part of this source tree): a mapping from text to a
    mapping from language code to translated text, with [contains], [get]
    (the empty mapping when the text is absent) and [add], which inserts or
    overwrites a single cell. *)
Abbreviation Translations := (gmap string (gmap string string)).

Definition contains (t : string) (c : Translations) : bool :=
  bool_decide (is_Some (c !! t)).

Definition get_translations (t : string) (c : Translations) : gmap string string :=
  default ∅ (c !! t).

Definition add_translation (language t translation : string) (c : Translations) : Translations :=
  <[t := <[language := translation]> (get_translations t c)]> c.

(** Modelled from the spec: the class [SourceFile] (its module is not part of
    this source tree), one discovered source file: an ordered set of prompts
    keyed by their text.  [get_prompts_and_translation] gives, for a language,
    the mapping from text to translation that goes to the output; a pair whose
    translation is the empty string is dropped unless empty translations are
    to be included. *)
Record SourceFile : Type := {
  prompts : list Prompt
}.

Definition get_prompts (f : SourceFile) : list Prompt := prompts f.

Definition get_prompts_and_translation (language : string) (include_empty : bool)
    (f : SourceFile) : list (string * string) :=
  fold_left
    (fun d p =>
       let tr := get_translation language p in
       if include_empty || negb (String.eqb tr "") then dict_set (get_text p) tr d else d)
    (prompts f) [].

(** ** The environment *)

(** The constants of [consts.py] (not part of this source tree) that the
    modelled methods read. *)
Record Consts : Type := {
  ALL_LANGUAGES : list string;
  FR_FR : string;
  INPUT_SOURCE_LANGUAGE : string;
  INPUT_TARGET_LANGUAGES : string;
  INPUT_DEEPL_API_KEY : string;
  INPUT_INCLUDE_EMPTY_TRANSLATION : string;
  INPUT_USE_CORE_TRANSLATIONS : string;
  INPUT_GENERATE_SOURCE_LANGUAGE_TRANSLATIONS : string;
  INPUT_DEBUG : string;
  LANGUAGES_TO_DEEPL : gmap string string
}.

(** [deepl.Translator], [deepl.GlossaryInfo]. *)
Record Translator : Type := { auth_key : string }.

Record GlossaryInfo : Type := {
  glossary_name : string;
  glossary_source_lang : string;
  glossary_target_lang : string
}.

(** The arguments of one [translate_text] request; the constant ones
    ([preserve_formatting], [context], [model_type]) are left out. *)
Record Request : Type := {
  req_text : json;
  req_source_lang : string;
  req_target_lang : string;
  req_glossary : option GlossaryInfo
}.

(** What a [translate_text] request comes back with: a [deepl.TextResult], a
    value of another type, or an exception of the provider's library. *)
Inductive Reply : Type :=
| TextResult (t : string)
| Unexpected
| ProviderRaises.

(** One remote translation call, as the log of the world keeps it: the text
    and target language [transalte_with_deepl] was called with, the request
    sent, and the time on the monotonic clock when it was sent. *)
Record Call : Type := {
  call_text : json;
  call_target_language : string;
  call_request : Request;
  call_time : Z
}.

Inductive file : Type :=
| NoFile
| BadJson
| JsonFile (content : json).

(** The part of the world the coordinator acts on.  [clock] is the monotonic
    clock, in ticks; [calls] logs the remote translation calls, oldest first;
    [written] logs the translation files written (language, document), oldest
    first; [info_json_file] is the metadata descriptor file. *)
Record World : Type := {
  clock : Z;
  calls : list Call;
  written : list (string * list (string * list (string * string)));
  info_json_file : file
}.

Record Config : Type := {
  source_language : string;
  target_languages : list string;
  include_empty_translation : bool;
  use_core_translations : bool;
  generate_source_language_translations : bool;
  deepl_api_key : option string
}.

(** The oracle.  The provider answers the [n]-th request (counted from 0) as
    it likes and takes the time it likes.  [sync_glossaries] stands for the
    body of [__create_deepl_glossaries], which talks to the provider's
    glossary interface and to a term-list file: whatever it does, its effect
    on the coordinator is a new [__glossary] table and possibly an exception. *)
Record Env : Type := {
  translate_text : nat -> Request -> Reply;
  translate_ticks : nat -> Request -> Z;
  sync_glossaries :
    Translator -> Config -> gmap string (option GlossaryInfo) ->
    gmap string (option GlossaryInfo) * option exn
}.

(** ** The coordinator: [PluginTranslator] *)

(** The attributes of [self]; [config] groups the ones [__get_inputs] sets and
    nothing changes afterwards, [world] is the environment's state. *)
Record PluginTranslator : Type := {
  config : Config;
  files : list (string * SourceFile);
  existing_translations : Translations;
  deepl_translator_attr : option Translator;
  api_call_counter : nat;
  info_json_content : option json;
  glossary : gmap string (option GlossaryInfo);
  world : World
}.

Definition set_files (x : list (string * SourceFile)) (s : PluginTranslator) : PluginTranslator :=
  {| config := config s; files := x; existing_translations := existing_translations s;
     deepl_translator_attr := deepl_translator_attr s; api_call_counter := api_call_counter s;
     info_json_content := info_json_content s; glossary := glossary s; world := world s |}.

Definition set_existing_translations (x : Translations) (s : PluginTranslator) : PluginTranslator :=
  {| config := config s; files := files s; existing_translations := x;
     deepl_translator_attr := deepl_translator_attr s; api_call_counter := api_call_counter s;
     info_json_content := info_json_content s; glossary := glossary s; world := world s |}.

Definition set_deepl_translator_attr (x : option Translator) (s : PluginTranslator) : PluginTranslator :=
  {| config := config s; files := files s; existing_translations := existing_translations s;
     deepl_translator_attr := x; api_call_counter := api_call_counter s;
     info_json_content := info_json_content s; glossary := glossary s; world := world s |}.

Definition set_api_call_counter (x : nat) (s : PluginTranslator) : PluginTranslator :=
  {| config := config s; files := files s; existing_translations := existing_translations s;
     deepl_translator_attr := deepl_translator_attr s; api_call_counter := x;
     info_json_content := info_json_content s; glossary := glossary s; world := world s |}.

Definition set_info_json_content (x : option json) (s : PluginTranslator) : PluginTranslator :=
  {| config := config s; files := files s; existing_translations := existing_translations s;
     deepl_translator_attr := deepl_translator_attr s; api_call_counter := api_call_counter s;
     info_json_content := x; glossary := glossary s; world := world s |}.

Definition set_glossary (x : gmap string (option GlossaryInfo)) (s : PluginTranslator) : PluginTranslator :=
  {| config := config s; files := files s; existing_translations := existing_translations s;
     deepl_translator_attr := deepl_translator_attr s; api_call_counter := api_call_counter s;
     info_json_content := info_json_content s; glossary := x; world := world s |}.

Definition set_world (x : World) (s : PluginTranslator) : PluginTranslator :=
  {| config := config s; files := files s; existing_translations := existing_translations s;
     deepl_translator_attr := deepl_translator_attr s; api_call_counter := api_call_counter s;
     info_json_content := info_json_content s; glossary := glossary s; world := x |}.

(** A method that returns a value or raises, and may change [self]. *)
Definition M (A : Type) : Type := PluginTranslator -> result A * PluginTranslator.

(** A loop body that mutates an object [a] and [self]; an exception ends the
    loop, and what was mutated so far stays mutated. *)
Definition Body (A : Type) : Type := A -> PluginTranslator -> A * PluginTranslator * option exn.

(** [for x in xs: body(x)], the body working on one object [a]. *)
Fixpoint for_in {A B} (xs : list B) (body : B -> Body A) : Body A :=
  fun a s =>
    match xs with
    | [] => (a, s, None)
    | x :: xs' =>
        match body x a s with
        | (a', s', None) => for_in xs' body a' s'
        | stop => stop
        end
    end.

(** [for a in objects: body(a)], every object mutated in its place. *)
Fixpoint for_each {A} (body : Body A) (objects : list A) (s : PluginTranslator)
    : list A * PluginTranslator * option exn :=
  match objects with
  | [] => ([], s, None)
  | a :: rest =>
      match body a s with
      | (a', s', None) =>
          let '(rest', s'', o) := for_each body rest s' in (a' :: rest', s'', o)
      | (a', s', Some e) => (a' :: rest, s', Some e)
      end
  end.

Section Coordinator.

Variable consts : Consts.
Variable env : Env.

(** The world after one more remote translation call: the call is logged
    with the time it was sent at, and the clock moves by the time the
    provider takes to answer. *)
Definition send (c_text : json) (c_lang : string) (req : Request) (w : World) : World :=
  let n := length (calls w) in
  {| clock := (clock w + translate_ticks env n req)%Z;
     calls := calls w ++ [ {| call_text := c_text; call_target_language := c_lang;
                              call_request := req; call_time := clock w |} ];
     written := written w;
     info_json_file := info_json_file w |}.

(** The property [deepl_translator]: the provider handle, created (with its
    glossaries) the first time it is asked for when a key was supplied. *)
Definition deepl_translator : M (option Translator) :=
  fun s =>
    match deepl_translator_attr s with
    | Some t => (Ok (Some t), s)
    | None =>
        match deepl_api_key (config s) with
        | Some key =>
            let t := {| auth_key := key |} in
            let s1 := set_deepl_translator_attr (Some t) s in
            match sync_glossaries env t (config s1) (glossary s1) with
            | (g, None) => (Ok (Some t), set_glossary g s1)
            | (g, Some e) => (Raise e, set_glossary g s1)
            end
        | None => (Ok None, s)
        end
    end.

(** [transalte_with_deepl(text, target_language)], the remote translation
    call. *)
Definition transalte_with_deepl (t : json) (target_language : string) : M string :=
  fun s =>
    match deepl_translator_attr s with
    | None => (Ok "", s)
    | Some _ =>
        let s1 := set_api_call_counter (S (api_call_counter s)) s in
        match LANGUAGES_TO_DEEPL consts !! source_language (config s1) with
        | None => (Raise (KeyError (source_language (config s1))), s1)
        | Some src =>
            match LANGUAGES_TO_DEEPL consts !! target_language with
            | None => (Raise (KeyError target_language), s1)
            | Some tgt =>
                match glossary s1 !! target_language with
                | None => (Raise (KeyError target_language), s1)
                | Some g =>
                    let req := {| req_text := t; req_source_lang := src;
                                  req_target_lang := tgt; req_glossary := g |} in
                    let s2 := set_world (send t target_language req (world s1)) s1 in
                    match translate_text env (length (calls (world s1))) req with
                    | TextResult r => (Ok r, s2)
                    | Unexpected => (Ok "", s2)
                    | ProviderRaises => (Raise ProviderError, s2)
                    end
                end
            end
        end
    end.

(** The body of the loop over the target languages in [do_translate]. *)
Definition do_translate_language (target_language : string) : Body Prompt :=
  fun prompt s =>
    if String.eqb target_language (source_language (config s)) then (prompt, s, None)
    else if has_translation target_language prompt then (prompt, s, None)
    else
      match transalte_with_deepl (JStr (get_text prompt)) target_language s with
      | (Raise e, s1) => (prompt, s1, Some e)
      | (Ok tr, s1) =>
          (set_translation target_language tr prompt,
           set_existing_translations
             (add_translation target_language (get_text prompt) tr (existing_translations s1)) s1,
           None)
      end.

(** The body of the loop over the prompts of a file in [do_translate]. *)
Definition do_translate_prompt : Body Prompt :=
  fun prompt s =>
    let prompt1 :=
      if contains (get_text prompt) (existing_translations s)
      then set_translations (get_translations (get_text prompt) (existing_translations s)) prompt
      else prompt in
    let prompt2 := set_translation (source_language (config s)) (get_text prompt1) prompt1 in
    match deepl_translator s with
    | (Raise e, s1) => (prompt2, s1, Some e)
    | (Ok None, s1) => (prompt2, s1, None)
    | (Ok (Some _), s1) =>
        for_in (target_languages (config s1)) do_translate_language prompt2 s1
    end.

(** The body of the loop over the files in [do_translate]. *)
Definition do_translate_file : Body (string * SourceFile) :=
  fun entry s =>
    let '(ps, s1, o) := for_each do_translate_prompt (get_prompts (snd entry)) s in
    ((fst entry, {| prompts := ps |}), s1, o).

(** [do_translate()]: the state it leaves, and the exception if it raised. *)
Definition do_translate (s : PluginTranslator) : PluginTranslator * option exn :=
  let '(fs, s1, o) := for_each do_translate_file (files s) s in
  (set_files fs s1, o).

(** [x in content] and [content[x]] on a JSON value, as Python evaluates
    them: key lookup on an object, element or substring test on a list or a
    string, [TypeError] otherwise. *)
Definition json_is_str (x : string) (v : json) : bool :=
  match v with JStr y => String.eqb x y | _ => false end.

Definition py_in (x : string) (content : json) : result bool :=
  match content with
  | JObj o => Ok (dict_has x o)
  | JList l => Ok (existsb (json_is_str x) l)
  | JStr y => Ok (match String.index 0 x y with Some _ => true | None => false end)
  | _ => Raise (TypeError "argument is not iterable")
  end.

Definition py_getitem (x : string) (content : json) : result json :=
  match content with
  | JObj o =>
      match dict_get x o with Some v => Ok v | None => Raise (KeyError x) end
  | _ => Raise (TypeError "indices must be integers")
  end.

Definition py_setitem (x : string) (v : json) (content : json) : result json :=
  match content with
  | JObj o => Ok (JObj (dict_set x v o))
  | _ => Raise (TypeError "does not support item assignment")
  end.

(** The body of the loop over the target languages in
    [translate_info_json]; the object it works on is the dictionary
    [descriptions]. *)
Definition translate_description (source_desc : json) (target_language : string)
    : Body (list (string * json)) :=
  fun descriptions s =>
    match dict_get target_language descriptions with
    | Some v =>
        if negb (json_is_str "" v) then (descriptions, s, None)
        else
          match transalte_with_deepl source_desc target_language s with
          | (Raise e, s1) => (descriptions, s1, Some e)
          | (Ok tr, s1) => (dict_set target_language (JStr tr) descriptions, s1, None)
          end
    | None =>
        match transalte_with_deepl source_desc target_language s with
        | (Raise e, s1) => (descriptions, s1, Some e)
        | (Ok tr, s1) => (dict_set target_language (JStr tr) descriptions, s1, None)
        end
    end.

(** [translate_info_json()].  When the description is a dictionary the loop
    mutates the very dictionary of the descriptor, so its entries are there
    even if a later call raises; a description of another type is first put
    in a fresh dictionary, which reaches the descriptor only with the last
    assignment. *)
Definition translate_info_json (s : PluginTranslator) : PluginTranslator * option exn :=
  match deepl_translator s with
  | (Raise e, s1) => (s1, Some e)
  | (Ok None, s1) => (s1, None)
  | (Ok (Some _), s1) =>
      match info_json_content s1 with
      | None => (s1, None)
      | Some content =>
          match py_in "description" content with
          | Raise e => (s1, Some e)
          | Ok false => (s1, None)
          | Ok true =>
              match py_getitem "description" content with
              | Raise e => (s1, Some e)
              | Ok d =>
                  let '(descriptions, aliased) :=
                    match d with
                    | JObj o => (o, true)
                    | _ => ([(source_language (config s1), d)], false)
                    end in
                  match dict_get (source_language (config s1)) descriptions with
                  | None => (s1, None)
                  | Some source_desc =>
                      let '(descriptions', s2, o) :=
                        for_in (target_languages (config s1))
                               (translate_description source_desc) descriptions s1 in
                      match o, aliased with
                      | Some e, false => (s2, Some e)
                      | _, _ =>
                          match py_setitem "description" (JObj descriptions') content with
                          | Ok content' => (set_info_json_content (Some content') s2, o)
                          | Raise e => (s2, Some e)
                          end
                      end
                  end
              end
          end
      end
  end.

(** The document assembled for one language in [write_plugin_translations]:
    the inner loop over the files. *)
Definition language_result (target_language : string) (include_empty : bool)
    (fs : list (string * SourceFile)) : list (string * list (string * string)) :=
  fold_left
    (fun doc entry =>
       let ps := get_prompts_and_translation target_language include_empty (snd entry) in
       if (0 <? length ps)%nat then dict_set (fst entry) ps doc else doc)
    fs [].

Definition write_translation_file (language : string)
    (doc : list (string * list (string * string))) (w : World) : World :=
  {| clock := clock w; calls := calls w;
     written := written w ++ [(language, doc)];
     info_json_file := info_json_file w |}.

(** The body of the loop over the target languages in
    [write_plugin_translations]. *)
Definition write_language (s : PluginTranslator) (target_language : string)
    : PluginTranslator :=
  if String.eqb target_language (source_language (config s))
     && negb (generate_source_language_translations (config s))
  then s
  else
    let doc := language_result target_language
                 (include_empty_translation (config s)) (files s) in
    if (0 <? length doc)%nat
    then set_world (write_translation_file target_language doc (world s)) s
    else s.

(** [write_plugin_translations()].  The text of a file is the serialisation
    of its document; the model keeps the document. *)
Definition write_plugin_translations (s : PluginTranslator) : PluginTranslator :=
  fold_left write_language (target_languages (config s)) s.

Definition write_info_json_file (content : json) (w : World) : World :=
  {| clock := clock w; calls := calls w; written := written w;
     info_json_file := JsonFile content |}.

(** [__write_info_json()]. *)
Definition __write_info_json (s : PluginTranslator) : PluginTranslator * option exn :=
  match info_json_content s with
  | None => (s, None)
  | Some content =>
      let languages :=
        sorted (set_of (source_language (config s) :: target_languages (config s))) in
      match py_setitem "language" (JList (map JStr languages)) content with
      | Raise e => (s, Some e)
      | Ok content' =>
          (set_world (write_info_json_file content' (world s))
             (set_info_json_content (Some content') s), None)
      end
  end.

(** [start()] from the translation-resolution phase on: [do_translate],
    [translate_info_json], [write_plugin_translations], [__write_info_json].
    (The phases before it read the translation files and the sources of the
    plugin into [existing_translations] and [files].) *)
Definition start_from_do_translate (s : PluginTranslator) : PluginTranslator * option exn :=
  match do_translate s with
  | (s1, Some e) => (s1, Some e)
  | (s1, None) =>
      match translate_info_json s1 with
      | (s2, Some e) => (s2, Some e)
      | (s2, None) => __write_info_json (write_plugin_translations s2)
      end
  end.

(** *** Configuration: [__get_inputs] and [__init__] *)

(** [_get_input(name)], [environ] being [os.environ]. *)
Definition _get_input (environ : gmap string string) (name : string) : option string :=
  let val := match environ !! name with Some v => strip v | None => "" end in
  if String.eqb val "" then None else Some val.

(** [val in values] for a [val] that may be [None]. *)
Definition opt_in (val : option string) (values : list string) : bool :=
  match val with
  | Some v => existsb (String.eqb v) values
  | None => false
  end.

Definition trueValue : list string := ["true"; "True"; "TRUE"].
Definition falseValue : list string := ["false"; "False"; "FALSE"].

Definition _get_boolean_input (environ : gmap string string) (name : string) : result bool :=
  let val := _get_input environ name in
  if opt_in val trueValue then Ok true
  else if opt_in val falseValue then Ok false
  else Raise (ValueError name).

Definition _get_list_input (environ : gmap string string) (name : string)
    (allowed_values : list string) : result (list string) :=
  match _get_input environ name with
  | None => Raise (ValueError name)
  | Some val =>
      let l := map strip (split_comma val) in
      if forallb (fun s => existsb (String.eqb s) allowed_values) l
      then Ok l else Raise (ValueError name)
  end.

Definition _get_input_in_list (environ : gmap string string) (name : string)
    (allowed_values : list string) : result string :=
  match _get_input environ name with
  | None => Raise (ValueError name)
  | Some val =>
      if existsb (String.eqb val) allowed_values then Ok val else Raise (ValueError name)
  end.

Definition bind {A B} (r : result A) (k : A -> result B) : result B :=
  match r with Ok a => k a | Raise e => Raise e end.

Notation "'let!' x := r 'in' k" := (bind r (fun x => k))
  (at level 10, x name, r at level 100, k at level 200, only parsing).

(** [__get_inputs()]: the configuration of the run, or the [ValueError] of
    the first input that does not meet its specification. *)
Definition __get_inputs (environ : gmap string string) : result Config :=
  let! source := _get_input_in_list environ (INPUT_SOURCE_LANGUAGE consts) (ALL_LANGUAGES consts) in
  let! targets := _get_list_input environ (INPUT_TARGET_LANGUAGES consts) (ALL_LANGUAGES consts) in
  let key := _get_input environ (INPUT_DEEPL_API_KEY consts) in
  let! include_empty := _get_boolean_input environ (INPUT_INCLUDE_EMPTY_TRANSLATION consts) in
  let! use_core :=
    (if negb (String.eqb source (FR_FR consts)) then Ok false
     else _get_boolean_input environ (INPUT_USE_CORE_TRANSLATIONS consts)) in
  let! generate_source :=
    _get_boolean_input environ (INPUT_GENERATE_SOURCE_LANGUAGE_TRANSLATIONS consts) in
  let! debug := _get_boolean_input environ (INPUT_DEBUG consts) in
  Ok {| source_language := source; target_languages := targets;
        include_empty_translation := include_empty; use_core_translations := use_core;
        generate_source_language_translations := generate_source; deepl_api_key := key |}.

(** [__read_info_json()]; [json.loads] gives [None] for the text [null]. *)
Definition __read_info_json (w : World) : result (option json) :=
  match info_json_file w with
  | NoFile => Raise (RuntimeError "Missing info.json file")
  | BadJson => Raise JSONDecodeError
  | JsonFile JNull => Ok None
  | JsonFile content => Ok (Some content)
  end.

(** [PluginTranslator(cwd)], run in the world [w] with the environment
    variables [environ]. *)
Definition __init__ (environ : gmap string string) (w : World) : result PluginTranslator :=
  let! cfg := __get_inputs environ in
  let! content := __read_info_json w in
  Ok {| config := cfg; files := []; existing_translations := ∅;
        deepl_translator_attr := None; api_call_counter := 0;
        info_json_content := content;
        glossary := list_to_map (map (fun lang => (lang, None)) (target_languages cfg));
        world := w |}.

End Coordinator.

(** ** The rate limiter: [Throttle] *)

Module Throttle.

(** The attributes of a [Throttle].  Times are readings of the monotonic
    clock, in ticks; the arithmetic of the wrapper is exact on them. *)
Record t : Type := {
  throttle_period : Z;
  time_of_last_call : Z
}.

Definition __init__ (seconds : Z) : t :=
  {| throttle_period := seconds; time_of_last_call := 0 |}.

(** The wrapper, up to the call of the wrapped function: from the state of
    the throttle and the clock, the new state and the clock at which the
    wrapped function starts.  [overshoot] is how much longer than asked
    [time.sleep] sleeps. *)
Definition wrapper (overshoot : Z) (th : t) (clock : Z) : t * Z :=
  let now := clock in
  let time_since_last_call := (now - time_of_last_call th)%Z in
  if (throttle_period th <? time_since_last_call)%Z then
    ({| throttle_period := throttle_period th; time_of_last_call := now |}, clock)
  else
    let wait_seconds := (throttle_period th - time_since_last_call)%Z in
    let clock' := (clock + wait_seconds + overshoot)%Z in
    ({| throttle_period := throttle_period th; time_of_last_call := clock' |}, clock').

(** What the environment decides about one call of the wrapped function:
    the time that passes in the caller before it, the overshoot of the sleep,
    and the time the wrapped function takes. *)
Record call_env : Type := {
  idle : Z;
  overshoot : Z;
  duration : Z
}.

(** [time.sleep] suspends the caller for the time asked at least. *)
Definition sleeps_enough (c : call_env) : Prop := (0 <= overshoot c)%Z.

(** A sequence of calls through one wrapper: the times at which the wrapped
    function starts. *)
Fixpoint run (cs : list call_env) (th : t) (clock : Z) : list Z :=
  match cs with
  | [] => []
  | c :: cs' =>
      let '(th', start) := wrapper (overshoot c) th (clock + idle c)%Z in
      start :: run cs' th' (start + duration c)%Z
  end.

End Throttle.

(** [paced period times]: between any two consecutive times at least
    [period] elapses. *)
Fixpoint paced (period : Z) (times : list Z) : Prop :=
  match times with
  | t1 :: ((t2 :: _) as rest) => (t1 + period <= t2)%Z /\ paced period rest
  | _ => True
  end.

(** ** Vocabulary of the properties *)

(** The remote calls made between two states of a run. *)
Definition new_calls (s s' : PluginTranslator) : list Call :=
  drop (length (calls (world s))) (calls (world s')).

(** What identifies a remote call for the dedup contract: the text and the
    target language. *)
Definition call_key (c : Call) : json * string := (call_text c, call_target_language c).

(** One cell of the translation cache. *)
Definition cell (c : Translations) (t language : string) : option string :=
  get_translations t c !! language.

(** What [transalte_with_deepl] returns for a reply that is not an
    exception. *)
Definition reply_text (r : Reply) : string :=
  match r with TextResult t => t | _ => "" end.

(** A provider handle exists or can be created. *)
Definition configured (s : PluginTranslator) : Prop :=
  is_Some (deepl_translator_attr s) \/ is_Some (deepl_api_key (config s)).

(** The call [c], the [n]-th request to the provider, has its result in the
    cache [tc], under the text and the target language of the call. *)
Definition recorded (env : Env) (tc : Translations) (n : nat) (c : Call) : Prop :=
  exists t, call_text c = JStr t /\
    cell tc t (call_target_language c) =
      Some (reply_text (translate_text env n (call_request c))).

(** The call [c] is one that the state [s0] asks for: for a target language
    other than the source language, and for a text that the cache of [s0] has
    no cell for in that language. *)
Definition uncached (s0 : PluginTranslator) (c : Call) : Prop :=
  exists t, call_text c = JStr t /\
    cell (existing_translations s0) t (call_target_language c) = None /\
    call_target_language c ∈ target_languages (config s0) /\
    call_target_language c <> source_language (config s0).

(** The calls made since the state was [s0] are for distinct pairs of a text
    and a language, none of which the cache of [s0] had a cell for. *)
Definition deduped (s0 s : PluginTranslator) : Prop :=
  exists new, calls (world s) = calls (world s0) ++ new /\
    NoDup (map call_key new) /\
    Forall (uncached s0) new.

(** ... and each of them is recorded in the cache, which lost no cell. *)
Definition deduped_recorded (env : Env) (s0 s : PluginTranslator) : Prop :=
  config s = config s0 /\
  (forall t language v, cell (existing_translations s0) t language = Some v ->
     cell (existing_translations s) t language = Some v) /\
  exists new, calls (world s) = calls (world s0) ++ new /\
    NoDup (map call_key new) /\
    Forall (uncached s0) new /\
    (new = [] \/ configured s) /\
    forall i c, new !! i = Some c ->
      recorded env (existing_translations s) (length (calls (world s0)) + i) c.

(** How the state moves during [do_translate]: the configuration stays, the
    cells of the cache stay, and a provider handle neither comes out of
    nothing nor goes away. *)
Definition grows (s s' : PluginTranslator) : Prop :=
  config s' = config s /\
  (forall t language v, cell (existing_translations s) t language = Some v ->
     cell (existing_translations s') t language = Some v) /\
  (configured s <-> configured s').

(** The prompt [p] holds every cell the cache has for its text, the source
    language apart. *)
Definition covers (p : Prompt) (s : PluginTranslator) : Prop :=
  forall language v, language <> source_language (config s) ->
    cell (existing_translations s) (text p) language = Some v ->
    translations p !! language = Some v.

(** Every translation of [p] for another language than the source language
    is the cell of the cache, or was on the prompt [p0] already. *)
Definition derived (p0 p : Prompt) (s : PluginTranslator) : Prop :=
  forall language v, language <> source_language (config s) ->
    translations p !! language = Some v ->
    cell (existing_translations s) (text p0) language = Some v \/
    translations p0 !! language = Some v.

(** [p] has a translation for every target language. *)
Definition complete (p : Prompt) (s : PluginTranslator) : Prop :=
  forall language, language ∈ target_languages (config s) ->
    is_Some (translations p !! language).

(** What [do_translate] makes of the prompt [p0]. *)
Definition resolved (p0 p : Prompt) (s : PluginTranslator) : Prop :=
  text p = text p0 /\
  translations p !! source_language (config s) = Some (text p0) /\
  derived p0 p s /\
  (configured s -> complete p s).

(** The invariant of the loop over the target languages, for the prompt
    [p0]. *)
Definition language_loop_inv (env : Env) (s0 : PluginTranslator) (p0 p : Prompt)
    (s : PluginTranslator) : Prop :=
  deduped_recorded env s0 s /\
  is_Some (deepl_translator_attr s) /\
  text p = text p0 /\
  translations p !! source_language (config s) = Some (text p0) /\
  covers p s /\
  derived p0 p s.

(** What [do_translate] makes of the file [f0]: the same path, the prompts
    resolved one by one. *)
Definition file_resolved (f0 f : string * SourceFile) (s : PluginTranslator) : Prop :=
  fst f = fst f0 /\
  Forall2 (fun p0 p => resolved p0 p s) (prompts (snd f0)) (prompts (snd f)).

(** The prompt [p] resolved from the cache alone: steps (a) and (b) of the
    resolution. *)
Definition cache_resolved (s : PluginTranslator) (p : Prompt) : Prompt :=
  let p1 :=
    if contains (get_text p) (existing_translations s)
    then set_translations (get_translations (get_text p) (existing_translations s)) p
    else p in
  set_translation (source_language (config s)) (get_text p1) p1.

Definition files_cache_resolved (s : PluginTranslator) : list (string * SourceFile) :=
  map (fun f => (fst f, {| prompts := map (cache_resolved s) (prompts (snd f)) |})) (files s).

(** A translation file as [write_plugin_translations] may write it in the
    state [s]: for a target language, with the document assembled for that
    language, which is not empty, and every entry of which is a file of the
    plugin with the prompts it contributes, at least one. *)
Definition proper_output (s : PluginTranslator)
    (out : string * list (string * list (string * string))) : Prop :=
  fst out ∈ target_languages (config s) /\
  snd out = language_result (fst out) (include_empty_translation (config s)) (files s) /\
  snd out <> [] /\
  forall path ps, (path, ps) ∈ snd out ->
    ps <> [] /\
    exists f, (path, f) ∈ files s /\
      ps = get_prompts_and_translation (fst out) (include_empty_translation (config s)) f.

(** What no phase of the run changes but [translate_info_json] and
    [__write_info_json]. *)
Definition frame (s s' : PluginTranslator) : Prop :=
  config s' = config s /\ info_json_content s' = info_json_content s.

(** The order of [sorted] on strings, and its strict part. *)
Definition str_le (a b : string) : Prop := String.leb a b = true.
Definition str_lt (a b : string) : Prop := String.ltb a b = true.

(** The value of the boolean input [name] is acceptable: stripped of the
    white space around it, it is one of the six spellings. *)
Definition valid_boolean (environ : gmap string string) (name : string) : bool :=
  opt_in (_get_input environ name) (trueValue ++ falseValue).

(** The boolean inputs [__get_inputs] reads: the one for the core
    translations only when the source language is [FR_FR]. *)
Definition boolean_inputs_read (consts : Consts) (environ : gmap string string)
    : list string :=
  [INPUT_INCLUDE_EMPTY_TRANSLATION consts;
   INPUT_GENERATE_SOURCE_LANGUAGE_TRANSLATIONS consts;
   INPUT_DEBUG consts]
  ++ match _get_input environ (INPUT_SOURCE_LANGUAGE consts) with
     | Some source =>
         if String.eqb source (FR_FR consts) then [INPUT_USE_CORE_TRANSLATIONS consts] else []
     | None => []
     end.

(** A prompt as prompt extraction leaves it. *)
Definition fresh (p : Prompt) : Prop := translations p = ∅.

(** ** A small plugin to run the coordinator on *)

Module Sample.

(** Modelled from the spec: the constants of [consts.py], which is not part of
    this source tree.  The language codes are those of the spec's examples,
    the names of the inputs follow the names the tests import. *)
Definition sample_consts : Consts :=
  {| ALL_LANGUAGES := ["fr-FR"; "en-US"; "es-ES"; "de-DE"];
     FR_FR := "fr-FR";
     INPUT_SOURCE_LANGUAGE := "INPUT_SOURCE_LANGUAGE";
     INPUT_TARGET_LANGUAGES := "INPUT_TARGET_LANGUAGES";
     INPUT_DEEPL_API_KEY := "INPUT_DEEPL_API_KEY";
     INPUT_INCLUDE_EMPTY_TRANSLATION := "INPUT_INCLUDE_EMPTY_TRANSLATION";
     INPUT_USE_CORE_TRANSLATIONS := "INPUT_USE_CORE_TRANSLATIONS";
     INPUT_GENERATE_SOURCE_LANGUAGE_TRANSLATIONS := "INPUT_GENERATE_SOURCE_LANGUAGE_TRANSLATIONS";
     INPUT_DEBUG := "INPUT_DEBUG";
     LANGUAGES_TO_DEEPL :=
       list_to_map [("fr-FR", "FR"); ("en-US", "EN-US"); ("es-ES", "ES"); ("de-DE", "DE")] |}.

(** A provider that answers every request with a text result, in 40 ticks. *)
Definition good_env : Env :=
  {| translate_text := fun _ req =>
       match req_text req with
       | JStr t => TextResult (req_target_lang req ++ ":" ++ t)
       | _ => Unexpected
       end;
     translate_ticks := fun _ _ => 40%Z;
     sync_glossaries := fun _ _ g => (g, None) |}.

(** A provider whose results never have the expected shape. *)
Definition bad_env : Env :=
  {| translate_text := fun _ _ => Unexpected;
     translate_ticks := fun _ _ => 40%Z;
     sync_glossaries := fun _ _ g => (g, None) |}.

Definition sample_config (key : option string) : Config :=
  {| source_language := "fr-FR"; target_languages := ["en-US"; "es-ES"];
     include_empty_translation := false; use_core_translations := false;
     generate_source_language_translations := false; deepl_api_key := key |}.

Definition sample_world : World :=
  {| clock := 1000%Z; calls := []; written := [];
     info_json_file :=
       JsonFile (JObj [("id", JStr "x"); ("language", JList [JStr "fr-FR"])]) |}.

(** Two files that share the prompt "Bonjour"; the cache knows its English
    translation, and has a stale entry for the source language. *)
Definition sample_files : list (string * SourceFile) :=
  [ ("plugins/x/core/template.html", {| prompts := [new_prompt "Bonjour"] |});
    ("plugins/x/desktop/panel.php",
     {| prompts := [new_prompt "Bonjour"; new_prompt "Au revoir"] |}) ].

Definition sample_cache : Translations :=
  add_translation "fr-FR" "Bonjour" "bonjour"
    (add_translation "en-US" "Bonjour" "Hello" ∅).

(** The coordinator after construction and discovery. *)
Definition sample (key : option string) : PluginTranslator :=
  {| config := sample_config key; files := sample_files;
     existing_translations := sample_cache;
     deepl_translator_attr := None; api_call_counter := 0;
     info_json_content :=
       Some (JObj [("id", JStr "x"); ("language", JList [JStr "fr-FR"])]);
     glossary := list_to_map [("en-US", None); ("es-ES", None)];
     world := sample_world |}.

(** The same with the provider handle already created. *)
Definition sample_ready : PluginTranslator :=
  set_deepl_translator_attr (Some {| auth_key := "key" |}) (sample (Some "key")).

(** Environment variables of a run whose source language is not [FR_FR]:
    the input for the core translations is not a boolean, the one for the
    debug flag has white space around it. *)
Definition lenient_environ : gmap string string :=
  list_to_map
    [ ("INPUT_SOURCE_LANGUAGE", "en-US");
      ("INPUT_TARGET_LANGUAGES", "fr-FR, es-ES");
      ("INPUT_INCLUDE_EMPTY_TRANSLATION", "false");
      ("INPUT_USE_CORE_TRANSLATIONS", "maybe");
      ("INPUT_GENERATE_SOURCE_LANGUAGE_TRANSLATIONS", "False");
      ("INPUT_DEBUG", " TRUE ") ].

(** The same run with a source language [FR_FR]. *)
Definition strict_environ : gmap string string :=
  <["INPUT_SOURCE_LANGUAGE" := "fr-FR"]> lenient_environ.

(** Three calls in a row through a throttle, each taking 5 ticks. *)
Definition burst : list Throttle.call_env :=
  [ {| Throttle.idle := 0; Throttle.overshoot := 0; Throttle.duration := 5 |};
    {| Throttle.idle := 0; Throttle.overshoot := 1; Throttle.duration := 5 |};
    {| Throttle.idle := 200; Throttle.overshoot := 0; Throttle.duration := 5 |} ]%Z.

(** The first remote call of the run of [sample] with a key. *)
Definition first_call : Call :=
  {| call_text := JStr "Bonjour"; call_target_language := "es-ES";
     call_request := {| req_text := JStr "Bonjour"; req_source_lang := "FR";
                        req_target_lang := "ES"; req_glossary := None |};
     call_time := 1000%Z |}.

End Sample.

(** ** More vocabulary *)

(** The times at which a caller that is not throttled would start the same
    calls. *)
Fixpoint unthrottled (cs : list Throttle.call_env) (clock : Z) : list Z :=
  match cs with
  | [] => []
  | c :: cs' =>
      (clock + Throttle.idle c)%Z
      :: unthrottled cs' (clock + Throttle.idle c + Throttle.duration c)%Z
  end.

(** Every call comes later than a period after the start of the call before
    it ([last] is when the call before the first one started). *)
Fixpoint slow_caller (period last clock : Z) (cs : list Throttle.call_env) : Prop :=
  match cs with
  | [] => True
  | c :: cs' =>
      (last + period < clock + Throttle.idle c)%Z /\
      slow_caller period (clock + Throttle.idle c)
        (clock + Throttle.idle c + Throttle.duration c)%Z cs'
  end.

(** The cache has a translation of the text of every prompt for every target
    language other than the source language. *)
Definition cache_covers (s : PluginTranslator) : Prop :=
  forall f p language,
    f ∈ files s -> p ∈ prompts (snd f) ->
    language ∈ target_languages (config s) ->
    language <> source_language (config s) ->
    is_Some (cell (existing_translations s) (text p) language).

(** The tables that [transalte_with_deepl] reads have what it looks up: the
    provider's code of the source language and of every target language, and
    a glossary slot for every target language. *)
Definition tables_cover (consts : Consts) (s : PluginTranslator) : Prop :=
  is_Some (LANGUAGES_TO_DEEPL consts !! source_language (config s)) /\
  forall language, language ∈ target_languages (config s) ->
    is_Some (LANGUAGES_TO_DEEPL consts !! language) /\
    is_Some (glossary s !! language).

(** The provider answers every request with a value, of whatever shape. *)
Definition provider_answers (env : Env) : Prop :=
  forall n req, translate_text env n req <> ProviderRaises.

(** The dictionary [translate_info_json] works on: the description of the
    descriptor if it is a dictionary, else a new dictionary with the
    description as the entry of the source language. *)
Definition descriptions_of (source : string) (d : json) : list (string * json) :=
  match d with
  | JObj o => o
  | _ => [(source, d)]
  end.

(** The description [translate_info_json] may ask the provider for: of a
    target language, from the description in the source language, and only
    if the descriptor had no description, or an empty one, for the
    language. *)
Definition description_call (source_desc : json) (targets : list string)
    (descriptions : list (string * json)) (c : Call) : Prop :=
  call_text c = source_desc /\
  call_target_language c ∈ targets /\
  (dict_get (call_target_language c) descriptions = None \/
   dict_get (call_target_language c) descriptions = Some (JStr "")).

(** What [write_plugin_translations] writes for the target language
    [language], if anything. *)
Definition emitted (s : PluginTranslator) (language : string)
    : option (string * list (string * list (string * string))) :=
  if String.eqb language (source_language (config s))
     && negb (generate_source_language_translations (config s))
  then None
  else
    let doc := language_result language (include_empty_translation (config s)) (files s) in
    if (0 <? length doc)%nat then Some (language, doc) else None.

(** ** Loading the translation files, and [start] *)

(** A translation file [<language>.json] as the loader finds it: absent, not
    JSON, or a document of the shape the tool writes, groups of pairs of a
    text and its translation; [data] lists the items of the parsed
    dictionaries in their order.  (JSON of another shape is not modelled.) *)
Inductive translation_file : Type :=
| NoTranslationFile
| BadTranslationFile
| TranslationFile (data : list (string * list (string * string))).

(** The two inner loops of [_get_translations_from_json_files]: the texts of
    a group, the groups of a file. *)
Definition add_group (language : string) (c : Translations)
    (group : list (string * string)) : Translations :=
  fold_left (fun c entry => add_translation language (fst entry) (snd entry) c) group c.

Definition add_file (language : string) (c : Translations)
    (data : list (string * list (string * string))) : Translations :=
  fold_left (fun c entry => add_group language c (snd entry)) data c.

(** The body of the loop over the target languages: a file that is absent is
    passed over, and so is one that is not JSON ([json.loads] raises before
    anything is added, and the exception is caught). *)
Definition load_language (dir : string -> translation_file) (s : PluginTranslator)
    (language : string) : PluginTranslator :=
  match dir language with
  | TranslationFile data =>
      set_existing_translations (add_file language (existing_translations s) data) s
  | _ => s
  end.

(** [_get_translations_from_json_files(dir)], [dir] giving the file of each
    language in the directory. *)
Definition _get_translations_from_json_files (dir : string -> translation_file)
    (s : PluginTranslator) : PluginTranslator :=
  fold_left (load_language dir) (target_languages (config s)) s.

(** The translation directories on disk: the one of the plugin, and the one
    of the core when the core root exists. *)
Record Disk : Type := {
  plugin_translations : string -> translation_file;
  core_translations : option (string -> translation_file)
}.

Definition get_plugin_translations (disk : Disk) (s : PluginTranslator) : PluginTranslator :=
  _get_translations_from_json_files (plugin_translations disk) s.

Definition get_core_translations (disk : Disk) (s : PluginTranslator)
    : PluginTranslator * option exn :=
  match core_translations disk with
  | None => (s, Some (RuntimeError "Path does not exists"))
  | Some dir => (_get_translations_from_json_files dir s, None)
  end.

Section Start.
Variable consts : Consts.
Variable env : Env.

(** [find_prompts_in_all_files] walks the sources of the plugin and builds a
    [SourceFile] for each; what it finds is up to the disk and to prompt
    extraction, so the phase is a parameter here. *)
Variable find_prompts_in_all_files : PluginTranslator -> PluginTranslator * option exn.

(** [start()]. *)
Definition start (disk : Disk) (s : PluginTranslator) : PluginTranslator * option exn :=
  let s1 := get_plugin_translations disk s in
  match
    (if use_core_translations (config s1) then get_core_translations disk s1
     else (s1, None))
  with
  | (s2, Some e) => (s2, Some e)
  | (s2, None) =>
      match find_prompts_in_all_files s2 with
      | (s3, Some e) => (s3, Some e)
      | (s3, None) => start_from_do_translate consts env s3
      end
  end.

End Start.

(** The translation that a file gives last for the text [t], or [init] if it
    gives none. *)
Definition group_last (t : string) (group : list (string * string)) (init : option string)
    : option string :=
  fold_left (fun acc entry => if String.eqb (fst entry) t then Some (snd entry) else acc)
    group init.

Definition file_last (t : string) (data : list (string * list (string * string)))
    (init : option string) : option string :=
  fold_left (fun acc entry => group_last t (snd entry) acc) data init.

(** The document [data] read from a translation file has its entries from
    the document [doc] that was written to it, in whatever order: the
    serialisation sorts the keys. *)
Definition read_back (doc data : list (string * list (string * string))) : Prop :=
  forall path ps, (path, ps) ∈ data ->
    exists ps0, (path, ps0) ∈ doc /\ forall entry, entry ∈ ps -> entry ∈ ps0.

(** ** The glossaries: [__create_deepl_glossaries] *)

(** The term-list file of a source language, next to the module: absent, or
    a text with its MD5 digest and, if the text is JSON, its value. *)
Inductive glossary_file : Type :=
| NoGlossaryFile
| GlossaryFile (md5_hash : string) (entries : option json).

(** What [__create_deepl_glossaries] asks the provider to do. *)
Inductive glossary_op : Type :=
| DeleteGlossary (g : GlossaryInfo)
| CreateGlossary (name source_lang target_lang : string) (entries : json).

(** The environment of [__create_deepl_glossaries]: the table
    [LANGUAGES_TO_DEEPL_GLOSSARY] of [consts.py], the term-list files, and the
    provider, which answers the [n]-th request to delete or create as it
    likes. *)
Record GlossaryEnv : Type := {
  LANGUAGES_TO_DEEPL_GLOSSARY : gmap string string;
  glossary_file_of : string -> glossary_file;
  list_glossaries : result (list GlossaryInfo);
  delete_glossary : nat -> GlossaryInfo -> option exn;
  create_glossary : nat -> string -> string -> string -> json -> result GlossaryInfo
}.

(** The table [__glossary] and the requests made so far. *)
Definition GlossaryState : Type := gmap string (option GlossaryInfo) * list glossary_op.

Section Glossaries.
Variable genv : GlossaryEnv.

(** The loop over the glossaries of the provider, for one target language:
    the glossary of the language pair that bears the digest is taken, the
    others of the pair are deleted. *)
Fixpoint match_glossaries (md5_hash source target_language : string)
    (deepl_glossaries : list GlossaryInfo) (st : GlossaryState)
    : GlossaryState * option exn :=
  match deepl_glossaries with
  | [] => (st, None)
  | g :: rest =>
      match LANGUAGES_TO_DEEPL_GLOSSARY genv !! source with
      | None => (st, Some (KeyError source))
      | Some src =>
          if String.eqb (glossary_source_lang g) src then
            match LANGUAGES_TO_DEEPL_GLOSSARY genv !! target_language with
            | None => (st, Some (KeyError target_language))
            | Some tgt =>
                if String.eqb (glossary_target_lang g) tgt then
                  if String.eqb (glossary_name g) md5_hash then
                    match_glossaries md5_hash source target_language rest
                      (<[target_language := Some g]> (fst st), snd st)
                  else
                    match delete_glossary genv (length (snd st)) g with
                    | Some e => ((fst st, snd st ++ [DeleteGlossary g]), Some e)
                    | None =>
                        match_glossaries md5_hash source target_language rest
                          (fst st, snd st ++ [DeleteGlossary g])
                    end
                else match_glossaries md5_hash source target_language rest st
            end
          else match_glossaries md5_hash source target_language rest st
      end
  end.

(** The creation of the glossary of a target language whose slot is still
    empty. *)
Definition create_if_missing (md5_hash source target_language : string) (entries : json)
    (st : GlossaryState) : GlossaryState * option exn :=
  match fst st !! target_language with
  | None => (st, Some (KeyError target_language))
  | Some (Some _) => (st, None)
  | Some None =>
      match LANGUAGES_TO_DEEPL_GLOSSARY genv !! source with
      | None => (st, Some (KeyError source))
      | Some src =>
          match LANGUAGES_TO_DEEPL_GLOSSARY genv !! target_language with
          | None => (st, Some (KeyError target_language))
          | Some tgt =>
              match py_getitem target_language entries with
              | Raise e => (st, Some e)
              | Ok terms =>
                  let ops := snd st ++ [CreateGlossary md5_hash src tgt terms] in
                  match create_glossary genv (length (snd st)) md5_hash src tgt terms with
                  | Raise e => ((fst st, ops), Some e)
                  | Ok g => ((<[target_language := Some g]> (fst st), ops), None)
                  end
              end
          end
      end
  end.

(** The loop over the target languages. *)
Fixpoint sync_targets (md5_hash source : string) (entries : json)
    (deepl_glossaries : list GlossaryInfo) (targets : list string) (st : GlossaryState)
    : GlossaryState * option exn :=
  match targets with
  | [] => (st, None)
  | target_language :: rest =>
      if String.eqb target_language source
      then sync_targets md5_hash source entries deepl_glossaries rest st
      else
        match py_in target_language entries with
        | Raise e => (st, Some e)
        | Ok false => sync_targets md5_hash source entries deepl_glossaries rest st
        | Ok true =>
            match match_glossaries md5_hash source target_language deepl_glossaries st with
            | (st1, Some e) => (st1, Some e)
            | (st1, None) =>
                match create_if_missing md5_hash source target_language entries st1 with
                | (st2, Some e) => (st2, Some e)
                | (st2, None) =>
                    sync_targets md5_hash source entries deepl_glossaries rest st2
                end
            end
        end
  end.

(** [__create_deepl_glossaries(deepl_translator)]: the table it leaves, the
    requests it made, and the exception if it raised. *)
Definition __create_deepl_glossaries (cfg : Config) (table : gmap string (option GlossaryInfo))
    : GlossaryState * option exn :=
  match glossary_file_of genv (source_language cfg) with
  | NoGlossaryFile => ((table, []), None)
  | GlossaryFile md5_hash None => ((table, []), Some JSONDecodeError)
  | GlossaryFile md5_hash (Some entries) =>
      match list_glossaries genv with
      | Raise e => ((table, []), Some e)
      | Ok deepl_glossaries =>
          sync_targets md5_hash (source_language cfg) entries deepl_glossaries
            (target_languages cfg) (table, [])
      end
  end.

(** The same as the coordinator's environment has it. *)
Definition glossaries_of (t : Translator) (cfg : Config)
    (table : gmap string (option GlossaryInfo))
    : gmap string (option GlossaryInfo) * option exn :=
  (fst (fst (__create_deepl_glossaries cfg table)), snd (__create_deepl_glossaries cfg table)).

End Glossaries.

(** The glossary [g] is the current one of the language pair. *)
Definition up_to_date (genv : GlossaryEnv) (md5_hash source target_language : string)
    (g : GlossaryInfo) : Prop :=
  LANGUAGES_TO_DEEPL_GLOSSARY genv !! source = Some (glossary_source_lang g) /\
  LANGUAGES_TO_DEEPL_GLOSSARY genv !! target_language = Some (glossary_target_lang g) /\
  glossary_name g = md5_hash.

(** ... an outdated one of the pair. *)
Definition outdated (genv : GlossaryEnv) (md5_hash source target_language : string)
    (g : GlossaryInfo) : Prop :=
  LANGUAGES_TO_DEEPL_GLOSSARY genv !! source = Some (glossary_source_lang g) /\
  LANGUAGES_TO_DEEPL_GLOSSARY genv !! target_language = Some (glossary_target_lang g) /\
  glossary_name g <> md5_hash.

(** From the table [t] to the table [t'] a slot keeps its content or gets a
    glossary. *)
Definition slots_fill (t t' : gmap string (option GlossaryInfo)) : Prop :=
  forall l, t' !! l = t !! l \/ exists g, t' !! l = Some (Some g).

(** The request [op] is in order for the target language [target]: it
    deletes an outdated glossary of the language pair among those the
    provider listed, or creates the glossary of the pair, named after the
    digest, from the terms of the target language, the slot being empty in
    [table] and the provider having listed no current glossary of the
    pair. *)
Definition in_order (genv : GlossaryEnv) (md5_hash source : string) (entries : json)
    (deepl_glossaries : list GlossaryInfo) (table : gmap string (option GlossaryInfo))
    (target : string) (op : glossary_op) : Prop :=
  match op with
  | DeleteGlossary g =>
      g ∈ deepl_glossaries /\ outdated genv md5_hash source target g
  | CreateGlossary name src tgt terms =>
      name = md5_hash /\
      LANGUAGES_TO_DEEPL_GLOSSARY genv !! source = Some src /\
      LANGUAGES_TO_DEEPL_GLOSSARY genv !! target = Some tgt /\
      py_getitem target entries = Ok terms /\
      table !! target = Some None /\
      forall g, g ∈ deepl_glossaries -> ~ up_to_date genv md5_hash source target g
  end.

(** A glossary environment for the coordinator of [Sample]: a term list with
    terms for both target languages, an outdated glossary for English and
    for Spanish and the current one for Spanish at the provider, which does
    what it is asked. *)
Module GlossarySample.

Definition old_english : GlossaryInfo :=
  {| glossary_name := "0123"; glossary_source_lang := "fr"; glossary_target_lang := "en" |}.
Definition old_spanish : GlossaryInfo :=
  {| glossary_name := "0123"; glossary_source_lang := "fr"; glossary_target_lang := "es" |}.
Definition current_spanish : GlossaryInfo :=
  {| glossary_name := "abcd"; glossary_source_lang := "fr"; glossary_target_lang := "es" |}.

Definition terms : json :=
  JObj [("en-US", JObj [("Bonjour", JStr "Hello")]);
        ("es-ES", JObj [("Bonjour", JStr "Hola")])].

Definition sample_genv : GlossaryEnv :=
  {| LANGUAGES_TO_DEEPL_GLOSSARY :=
       list_to_map [("fr-FR", "fr"); ("en-US", "en"); ("es-ES", "es")];
     glossary_file_of := fun source =>
       if String.eqb source "fr-FR" then GlossaryFile "abcd" (Some terms)
       else NoGlossaryFile;
     list_glossaries := Ok [old_english; current_spanish; old_spanish];
     delete_glossary := fun _ _ => None;
     create_glossary := fun _ name src tgt _ =>
       Ok {| glossary_name := name; glossary_source_lang := src;
             glossary_target_lang := tgt |} |}.

Definition sample_table : gmap string (option GlossaryInfo) :=
  list_to_map [("en-US", None); ("es-ES", None)].

End GlossarySample.

(** ** More sample runs *)

Module Cases.
Import Sample.

(** The coordinator of [Sample] after translation resolution with the good
    provider, and the same coordinator started again with the cache of that
    run. *)
Definition translated : PluginTranslator :=
  fst (do_translate sample_consts good_env (sample (Some "key"))).

Definition second_run : PluginTranslator :=
  set_existing_translations (existing_translations translated) (sample (Some "key")).

(** A coordinator whose descriptor has a description for the source
    language and for English, and an empty one for Spanish. *)
Definition descriptor : list (string * json) :=
  [("id", JStr "x");
   ("description",
    JObj [("fr-FR", JStr "Un module"); ("en-US", JStr "A hand-made text");
          ("es-ES", JStr ""); ("de-DE", JStr "Ein Modul")])].

Definition described : PluginTranslator :=
  set_info_json_content (Some (JObj descriptor)) sample_ready.

(** A directory of translation files: the English file translates "Bonjour"
    twice, the Spanish file is not JSON, there is a German file. *)
Definition plugin_dir (language : string) : translation_file :=
  if String.eqb language "en-US" then
    TranslationFile
      [("plugins/x/core/template.html", [("Bonjour", "Hi")]);
       ("plugins/x/desktop/panel.php", [("Bonjour", "Good morning"); ("Merci", "Thanks")])]
  else if String.eqb language "es-ES" then BadTranslationFile
  else if String.eqb language "de-DE" then
    TranslationFile [("plugins/x/core/template.html", [("Bonjour", "Guten Tag")])]
  else NoTranslationFile.

(** The directory of the core. *)
Definition core_dir (language : string) : translation_file :=
  if String.eqb language "en-US" then
    TranslationFile [("core/php/utils.inc.php", [("Bonjour", "Hello from the core")])]
  else NoTranslationFile.

Definition with_core : Disk :=
  {| plugin_translations := plugin_dir; core_translations := Some core_dir |}.

Definition without_core : Disk :=
  {| plugin_translations := plugin_dir; core_translations := None |}.

(** The coordinator of [Sample] set to use the core translations. *)
Definition using_core : PluginTranslator :=
  {| config :=
       {| source_language := "fr-FR"; target_languages := ["en-US"; "es-ES"];
          include_empty_translation := false; use_core_translations := true;
          generate_source_language_translations := false; deepl_api_key := Some "key" |};
     files := []; existing_translations := sample_cache;
     deepl_translator_attr := None; api_call_counter := 0;
     info_json_content := info_json_content (sample (Some "key"));
     glossary := glossary (sample (Some "key")); world := sample_world |}.

(** A discovery phase that finds the files of [Sample]. *)
Definition found (s : PluginTranslator) : PluginTranslator * option exn :=
  (set_files sample_files s, None).

(** The directory that holds what the run of [translated] writes, the keys
    of each file sorted. *)
Definition written_dir (language : string) : translation_file :=
  if String.eqb language "en-US" then
    TranslationFile
      [("plugins/x/core/template.html", [("Bonjour", "Hello")]);
       ("plugins/x/desktop/panel.php",
        [("Au revoir", "EN-US:Au revoir"); ("Bonjour", "Hello")])]
  else if String.eqb language "es-ES" then
    TranslationFile
      [("plugins/x/core/template.html", [("Bonjour", "ES:Bonjour")]);
       ("plugins/x/desktop/panel.php",
        [("Au revoir", "ES:Au revoir"); ("Bonjour", "ES:Bonjour")])]
  else NoTranslationFile.

(** The good provider with the glossary procedure of [GlossarySample]. *)
Definition glossary_env : Env :=
  {| translate_text := translate_text good_env;
     translate_ticks := translate_ticks good_env;
     sync_glossaries := glossaries_of GlossarySample.sample_genv |}.

End Cases.

(** * Properties *)

(** ** Loops *)

Section Loops.
Context {A : Type}.
Variable step : PluginTranslator -> PluginTranslator -> Prop.
Hypothesis step_refl : forall s, step s s.
Hypothesis step_trans : forall s1 s2 s3, step s1 s2 -> step s2 s3 -> step s1 s3.

(** The rule of [for_in]: [P] is the invariant of the loop, [Q] what holds
    of the state when the loop is left by an exception, [D x a] what the turn
    of [x] achieves on the object for good. *)
Lemma for_in_rule {B} (body : B -> Body A)
    (P : A -> PluginTranslator -> Prop) (Q : PluginTranslator -> Prop)
    (D : B -> A -> Prop) (xs : list B) :
  (forall x a s a' s' o, x ∈ xs -> P a s -> body x a s = (a', s', o) ->
     step s s' /\
     match o with
     | None => P a' s' /\ D x a' /\ (forall y, D y a -> D y a')
     | Some _ => Q s'
     end) ->
  forall a s a' s' o, P a s -> for_in xs body a s = (a', s', o) ->
     step s s' /\
     match o with
     | None => P a' s' /\ (forall x, x ∈ xs -> D x a') /\ (forall y, D y a -> D y a')
     | Some _ => Q s'
     end.
Proof.
  induction xs as [|x xs IH]; intros Hbody a s a' s' o HP Hrun; simpl in Hrun.
  - inversion Hrun; subst. split; [apply step_refl |].
    split; [assumption |]. split; [| auto].
    intros x Hx. apply elem_of_nil in Hx. contradiction.
  - assert (Hbody' : forall y a s a' s' o, y ∈ xs -> P a s -> body y a s = (a', s', o) ->
       step s s' /\
       match o with
       | None => P a' s' /\ D y a' /\ (forall z, D z a -> D z a')
       | Some _ => Q s'
       end).
    { intros y a0 s0 a0' s0' o0 Hy. apply Hbody. apply elem_of_cons. right. exact Hy. }
    assert (Hx : x ∈ x :: xs) by (apply elem_of_cons; left; reflexivity).
    destruct (body x a s) as [[a1 s1] [e|]] eqn:Hb.
    + inversion Hrun; subst. exact (Hbody _ _ _ _ _ _ Hx HP Hb).
    + destruct (Hbody _ _ _ _ _ _ Hx HP Hb) as [Hs (HP1 & HD & Hkeep)].
      destruct (IH Hbody' _ _ _ _ _ HP1 Hrun) as [Hs' Hpost].
      split; [eapply step_trans; eauto |].
      destruct o; [exact Hpost |].
      destruct Hpost as (HP2 & Hall & Hkeep').
      split; [assumption |]. split; [| auto].
      intros y Hy. apply elem_of_cons in Hy. destruct Hy as [->|Hy]; auto.
Qed.

(** The rule of [for_each]: [R a a' s] relates an object before and after its
    turn, and must survive the rest of the loop. *)
Lemma for_each_rule (body : Body A)
    (P Q : PluginTranslator -> Prop) (R : A -> A -> PluginTranslator -> Prop) :
  (forall a s a' s' o, P s -> body a s = (a', s', o) ->
     step s s' /\ match o with None => P s' /\ R a a' s' | Some _ => Q s' end) ->
  (forall a a' s s', R a a' s -> step s s' -> R a a' s') ->
  forall xs s xs' s' o, P s -> for_each body xs s = (xs', s', o) ->
     step s s' /\
     match o with
     | None => P s' /\ Forall2 (fun a a' => R a a' s') xs xs'
     | Some _ => Q s'
     end.
Proof.
  intros Hbody Hstable xs. induction xs as [|x xs IH]; intros s xs' s' o HP Hrun; simpl in Hrun.
  - inversion Hrun; subst. split; [apply step_refl | split; [assumption | constructor]].
  - destruct (body x s) as [[a1 s1] [e|]] eqn:Hb.
    + inversion Hrun; subst. exact (Hbody _ _ _ _ _ HP Hb).
    + destruct (Hbody _ _ _ _ _ HP Hb) as [Hs [HP1 HR]].
      destruct (for_each body xs s1) as [[rest s2] o2] eqn:Hrest.
      inversion Hrun; subst.
      destruct (IH _ _ _ _ HP1 Hrest) as [Hs' Hpost].
      split; [eapply step_trans; eauto |].
      destruct o; [exact Hpost |].
      destruct Hpost as [HP2 HF]. split; [assumption |].
      constructor; [eapply Hstable; eauto | assumption].
Qed.

End Loops.

(** ** Sanity checks of the embedding on concrete inputs *)

Example strip_ex1 : strip "  true " = "true".
Proof. reflexivity. Qed.

Example strip_ex2 : strip (String (ascii_of_nat 194) (String (ascii_of_nat 160) "x y ")) = "x y".
Proof. reflexivity. Qed.

Example split_ex1 : split_comma "a,b,,c" = ["a"; "b"; ""; "c"].
Proof. reflexivity. Qed.

Example sorted_ex1 :
  sorted (set_of ["fr-FR"; "en-US"; "es-ES"; "en-US"]) = ["en-US"; "es-ES"; "fr-FR"].
Proof. vm_compute. reflexivity. Qed.

Example get_inputs_ex1 :
  __get_inputs Sample.sample_consts Sample.strict_environ
  = Raise (ValueError "INPUT_USE_CORE_TRANSLATIONS").
Proof. vm_compute. reflexivity. Qed.

(** With a provider whose results have not the expected shape the run goes
    on: three calls, no exception, and only the cached translations are
    written. *)
Example start_ex1 :
  let r := start_from_do_translate Sample.sample_consts Sample.bad_env
             (Sample.sample (Some "key")) in
  snd r = None /\ api_call_counter (fst r) = 3 /\
  written (world (fst r))
  = [("en-US",
      [("plugins/x/core/template.html", [("Bonjour", "Hello")]);
       ("plugins/x/desktop/panel.php", [("Bonjour", "Hello")])])].
Proof. vm_compute. auto. Qed.

Example start_ex2 :
  written (world (fst (start_from_do_translate Sample.sample_consts Sample.good_env
                         (Sample.sample (Some "key")))))
  = [("en-US",
      [("plugins/x/core/template.html", [("Bonjour", "Hello")]);
       ("plugins/x/desktop/panel.php",
        [("Bonjour", "Hello"); ("Au revoir", "EN-US:Au revoir")])]);
     ("es-ES",
      [("plugins/x/core/template.html", [("Bonjour", "ES:Bonjour")]);
       ("plugins/x/desktop/panel.php",
        [("Bonjour", "ES:Bonjour"); ("Au revoir", "ES:Au revoir")])])].
Proof. vm_compute. reflexivity. Qed.

Example do_translate_ex1 :
  map call_key (calls (world (fst (do_translate Sample.sample_consts Sample.good_env
                                     (Sample.sample (Some "key"))))))
  = [(JStr "Bonjour", "es-ES"); (JStr "Au revoir", "en-US"); (JStr "Au revoir", "es-ES")].
Proof. vm_compute. reflexivity. Qed.

(** ** The translation cache *)

Lemma cell_add_eq language t v (c : Translations) :
  cell (add_translation language t v c) t language = Some v.
Proof.
  unfold cell, add_translation, get_translations.
  rewrite lookup_insert_eq. simpl. apply lookup_insert_eq.
Qed.

Lemma cell_add_ne language t v (c : Translations) t' language' :
  (t, language) <> (t', language') ->
  cell (add_translation language t v c) t' language' = cell c t' language'.
Proof.
  intros Hne. unfold cell, add_translation.
  destruct (decide (t = t')) as [->|Ht].
  - unfold get_translations at 1. rewrite lookup_insert_eq. simpl.
    rewrite lookup_insert_ne; [reflexivity | congruence].
  - unfold get_translations at 1. rewrite lookup_insert_ne by assumption. reflexivity.
Qed.

Lemma contains_false_cell t (c : Translations) language :
  contains t c = false -> cell c t language = None.
Proof.
  unfold contains, cell, get_translations. intros H.
  apply bool_decide_eq_false in H.
  destruct (c !! t) eqn:E; [exfalso; apply H; eauto | reflexivity].
Qed.

Lemma has_translation_true language p :
  has_translation language p = true <-> is_Some (translations p !! language).
Proof. unfold has_translation. apply bool_decide_eq_true. Qed.

Lemma has_translation_false language p :
  has_translation language p = false <-> translations p !! language = None.
Proof.
  unfold has_translation. rewrite bool_decide_eq_false. rewrite eq_None_not_Some. tauto.
Qed.

(** After step (a) of the resolution the prompt holds every cell the cache
    has for its text. *)
Lemma copy_from_cache (c : Translations) p language v :
  cell c (get_text p) language = Some v ->
  translations
    (if contains (get_text p) c
     then set_translations (get_translations (get_text p) c) p else p) !! language = Some v.
Proof.
  intros Hc. destruct (contains (get_text p) c) eqn:E.
  - simpl. apply lookup_union_Some_l. exact Hc.
  - rewrite (contains_false_cell _ _ language E) in Hc. discriminate.
Qed.

Lemma copy_from_cache_text (c : Translations) p :
  text (if contains (get_text p) c
        then set_translations (get_translations (get_text p) c) p else p) = text p.
Proof. destruct (contains (get_text p) c); reflexivity. Qed.

(** ** The remote translation call *)

Section Remote.
Variable consts : Consts.
Variable env : Env.

Lemma new_calls_same s s' : calls (world s') = calls (world s) -> new_calls s s' = [].
Proof. unfold new_calls. intros ->. apply drop_all. Qed.

Lemma new_calls_app s s' new :
  calls (world s') = calls (world s) ++ new -> new_calls s s' = new.
Proof. unfold new_calls. intros ->. apply drop_app_length. Qed.

(** The three ways a call of [transalte_with_deepl] goes: no provider handle;
    a failed table lookup after the counter was incremented; a request
    sent. *)
Lemma transalte_with_deepl_cases t language s r s' :
  transalte_with_deepl consts env t language s = (r, s') ->
  (deepl_translator_attr s = None /\ r = Ok "" /\ s' = s) \/
  (is_Some (deepl_translator_attr s) /\
   s' = set_api_call_counter (S (api_call_counter s)) s /\
   exists k, r = Raise (KeyError k)) \/
  (is_Some (deepl_translator_attr s) /\
   exists req,
     s' = set_world (send env t language req (world s))
            (set_api_call_counter (S (api_call_counter s)) s) /\
     r = match translate_text env (length (calls (world s))) req with
         | TextResult x => Ok x
         | Unexpected => Ok ""
         | ProviderRaises => Raise ProviderError
         end).
Proof.
  unfold transalte_with_deepl. intros H.
  destruct (deepl_translator_attr s) as [tr|] eqn:Ha.
  2:{ left. inversion H; subst. auto. }
  right. simpl in H.
  destruct (LANGUAGES_TO_DEEPL consts !! source_language (config s)) as [src|].
  2:{ left. inversion H; subst. eauto. }
  destruct (LANGUAGES_TO_DEEPL consts !! language) as [tgt|].
  2:{ left. inversion H; subst. eauto. }
  destruct (glossary s !! language) as [g|].
  2:{ left. inversion H; subst. eauto. }
  right. split; [eauto |].
  eexists. split.
  - destruct (translate_text env _ _); inversion H; subst; reflexivity.
  - simpl. destruct (translate_text env _ _); inversion H; subst; reflexivity.
Qed.

(** C7. Every remote translation call increments the API call counter: a
    call of [transalte_with_deepl] sends at most one request to the provider,
    a request sent comes with an increment of the counter by one, and with a
    provider handle the counter is incremented in every case.  When the
    provider's result for the request has not the expected shape, the call
    returns the empty string and does not raise. *)
Theorem transalte_with_deepl_counter_and_shape t language s r s' :
  transalte_with_deepl consts env t language s = (r, s') ->
  (new_calls s s' = [] \/
   exists c, new_calls s s' = [c] /\
     call_text c = t /\ call_target_language c = language /\
     api_call_counter s' = S (api_call_counter s) /\
     (translate_text env (length (calls (world s))) (call_request c) = Unexpected ->
      r = Ok "")) /\
  (is_Some (deepl_translator_attr s) -> api_call_counter s' = S (api_call_counter s)) /\
  (deepl_translator_attr s = None -> api_call_counter s' = api_call_counter s).
Proof.
  intros H. apply transalte_with_deepl_cases in H.
  destruct H as [(Ha & -> & ->) | [(Ha & -> & k & ->) | (Ha & req & -> & ->)]].
  - split; [left; apply new_calls_same; reflexivity |].
    split; [intros [x Hx]; congruence | reflexivity].
  - split; [left; apply new_calls_same; reflexivity |].
    split; [reflexivity | intros Hn; rewrite Hn in Ha; destruct Ha; discriminate].
  - split.
    + right. eexists. split; [apply new_calls_app; simpl; reflexivity |].
      simpl. repeat split. intros ->. reflexivity.
    + split; [reflexivity | intros Hn; rewrite Hn in Ha; destruct Ha; discriminate].
Qed.

End Remote.

(** ** Translation resolution: [do_translate] *)

Section Resolution.
Variable consts : Consts.
Variable env : Env.

Lemma grows_refl s : grows s s.
Proof. unfold grows. tauto. Qed.

Lemma grows_trans s1 s2 s3 : grows s1 s2 -> grows s2 s3 -> grows s1 s3.
Proof.
  unfold grows. intros (Hc1 & Hm1 & Hk1) (Hc2 & Hm2 & Hk2).
  split; [congruence |]. split; [eauto | tauto].
Qed.

Lemma deduped_recorded_deduped s0 s : deduped_recorded env s0 s -> deduped s0 s.
Proof. intros (_ & _ & new & H1 & H2 & H3 & _). exists new. auto. Qed.

(** A recorded call was for a pair the cache has a cell for. *)
Lemma deduped_recorded_key s0 s t language :
  deduped_recorded env s0 s ->
  cell (existing_translations s) t language = None ->
  forall new, calls (world s) = calls (world s0) ++ new ->
    (JStr t, language) ∉ map call_key new.
Proof.
  intros (_ & _ & new & Hcalls & _ & _ & _ & Hrec) Hcell new' Hcalls' Hin.
  assert (new' = new) as -> by (rewrite Hcalls in Hcalls'; eapply app_inv_head; eauto).
  apply list_elem_of_fmap in Hin. destruct Hin as (c & Hkey & Hc).
  apply list_elem_of_lookup in Hc. destruct Hc as [i Hi].
  destruct (Hrec _ _ Hi) as (t' & Ht' & Hcell').
  unfold call_key in Hkey. inversion Hkey as [[H1 H2]].
  rewrite Ht' in H1. inversion H1; subst t'. rewrite <- H2 in Hcell'. congruence.
Qed.

Lemma set_translation_lookup_ne language tr p language' :
  language <> language' ->
  translations (set_translation language tr p) !! language' = translations p !! language'.
Proof. intros H. simpl. apply lookup_insert_ne. assumption. Qed.

Lemma set_translation_lookup_eq language tr p :
  translations (set_translation language tr p) !! language = Some tr.
Proof. simpl. apply lookup_insert_eq. Qed.

(** A remote call for a language the prompt lacks keeps the invariant. *)
Lemma uncached_call s0 p s language c :
  deduped_recorded env s0 s ->
  cell (existing_translations s) (text p) language = None ->
  language ∈ target_languages (config s) ->
  language <> source_language (config s) ->
  call_text c = JStr (text p) -> call_target_language c = language ->
  uncached s0 c.
Proof.
  intros (Hcfg0 & Hkept & _) Hcell Hin Hne Hk1 Hk2.
  exists (text p). rewrite Hk2, <- Hcfg0. repeat split; try assumption.
  destruct (cell (existing_translations s0) (text p) language) as [x|] eqn:E;
    [| reflexivity].
  apply Hkept in E. congruence.
Qed.

Lemma language_loop_inv_call s0 p0 p s s' language c v :
  language_loop_inv env s0 p0 p s ->
  language ∈ target_languages (config s) ->
  language <> source_language (config s) ->
  translations p !! language = None ->
  config s' = config s ->
  deepl_translator_attr s' = deepl_translator_attr s ->
  existing_translations s' = add_translation language (text p) v (existing_translations s) ->
  calls (world s') = calls (world s) ++ [c] ->
  call_key c = (JStr (text p), language) ->
  v = reply_text (translate_text env (length (calls (world s))) (call_request c)) ->
  grows s s' /\ language_loop_inv env s0 p0 (set_translation language v p) s'.
Proof.
  intros (Hinv & Hattr & Htext & Hsrc & Hcov & Hder)
         Hin Hne Hnone Hcfg Hat Hcache Hcalls Hkey Hv.
  assert (Hcell : cell (existing_translations s) (text p) language = None).
  { destruct (cell (existing_translations s) (text p) language) as [x|] eqn:E;
      [| reflexivity].
    rewrite (Hcov _ _ Hne E) in Hnone. discriminate. }
  pose proof (deduped_recorded_key _ _ _ _ Hinv Hcell) as Hfresh.
  unfold call_key in Hkey. injection Hkey as Hk1 Hk2.
  pose proof (uncached_call _ _ _ _ _ Hinv Hcell Hin Hne Hk1 Hk2) as Hunc1.
  destruct Hinv as (Hcfg0 & Hkept & new & Hold & Hnodup & Hunc & Hconf & Hrec).
  specialize (Hfresh _ Hold).
  assert (Hmono : forall t l x, cell (existing_translations s) t l = Some x ->
                                cell (existing_translations s') t l = Some x).
  { intros t l x Hx. rewrite Hcache. rewrite cell_add_ne; [assumption |].
    intros Heq. inversion Heq; subst. congruence. }
  split.
  { unfold grows, configured. rewrite Hcfg, Hat. tauto. }
  unfold language_loop_inv. rewrite Hcfg, Hat.
  split; [| split; [assumption | split; [assumption | split]]].
  - split; [congruence |]. split; [auto |].
    exists (new ++ [c]). split; [rewrite Hcalls, Hold, <- app_assoc; reflexivity |].
    split; [| split; [| split]].
    + rewrite map_app. apply NoDup_app. split; [assumption |].
      split; [| apply NoDup_singleton].
      intros k Hk Hk'. apply list_elem_of_singleton in Hk'. subst k.
      unfold call_key in Hk. rewrite Hk1, Hk2 in Hk. exact (Hfresh Hk).
    + apply Forall_app. split; [assumption |]. apply Forall_singleton. assumption.
    + right. unfold configured. rewrite Hat. left. assumption.
    + intros i c' Hi. apply lookup_app_Some in Hi. destruct Hi as [Hi | [Hlen Hi]].
      * destruct (Hrec _ _ Hi) as (t' & Ht' & Hc'). exists t'. split; [assumption |].
        apply Hmono. assumption.
      * destruct (i - length new) as [|j] eqn:Hj; simpl in Hi; [| discriminate].
        inversion Hi; subst c'. exists (text p).
        split; [exact Hk1 |].
        rewrite Hcache, Hk2, cell_add_eq.
        replace (length (calls (world s0)) + i) with (length (calls (world s)))
          by (rewrite Hold, length_app; lia).
        rewrite Hv. reflexivity.
  - rewrite set_translation_lookup_ne by assumption. assumption.
  - split.
    + intros l x Hl Hx. rewrite Hcfg in Hl. simpl in Hx. rewrite Hcache in Hx.
      destruct (decide (language = l)) as [<-|Hneq].
      * rewrite cell_add_eq in Hx. inversion Hx; subst. apply set_translation_lookup_eq.
      * rewrite cell_add_ne in Hx by (intros Heq; inversion Heq; congruence).
        rewrite set_translation_lookup_ne by assumption. apply Hcov; assumption.
    + intros l x Hl Hx. rewrite Hcfg in Hl.
      destruct (decide (language = l)) as [<-|Hneq].
      * rewrite set_translation_lookup_eq in Hx. inversion Hx; subst x. left.
        rewrite Hcache, <- Htext. apply cell_add_eq.
      * rewrite set_translation_lookup_ne in Hx by assumption.
        destruct (Hder _ _ Hl Hx) as [Hd|Hd]; [left | right; assumption].
        apply Hmono. assumption.
Qed.

Lemma language_loop_inv_raise s0 p0 p s s' language c :
  language_loop_inv env s0 p0 p s ->
  language ∈ target_languages (config s) ->
  language <> source_language (config s) ->
  translations p !! language = None ->
  calls (world s') = calls (world s) ++ [c] ->
  call_key c = (JStr (text p), language) ->
  deduped s0 s'.
Proof.
  intros (Hinv & Hattr & Htext & Hsrc & Hcov & Hder) Hin Hne Hnone Hcalls Hkey.
  assert (Hcell : cell (existing_translations s) (text p) language = None).
  { destruct (cell (existing_translations s) (text p) language) as [x|] eqn:E;
      [| reflexivity].
    rewrite (Hcov _ _ Hne E) in Hnone. discriminate. }
  pose proof (deduped_recorded_key _ _ _ _ Hinv Hcell) as Hfresh.
  unfold call_key in Hkey. injection Hkey as Hk1 Hk2.
  pose proof (uncached_call _ _ _ _ _ Hinv Hcell Hin Hne Hk1 Hk2) as Hunc1.
  destruct Hinv as (Hcfg0 & Hkept & new & Hold & Hnodup & Hunc & Hconf & Hrec).
  specialize (Hfresh _ Hold).
  exists (new ++ [c]). split; [rewrite Hcalls, Hold, <- app_assoc; reflexivity |].
  split.
  - rewrite map_app. apply NoDup_app. split; [assumption |].
    split; [| apply NoDup_singleton].
    intros k Hk Hk'. apply list_elem_of_singleton in Hk'. subst k.
    unfold call_key in Hk. rewrite Hk1, Hk2 in Hk. exact (Hfresh Hk).
  - apply Forall_app. split; [assumption |]. apply Forall_singleton. assumption.
Qed.

(** One turn of the loop over the target languages. *)
Lemma do_translate_language_rule s0 p0 target_language p s p' s' o :
  target_language ∈ target_languages (config s) ->
  language_loop_inv env s0 p0 p s ->
  do_translate_language consts env target_language p s = (p', s', o) ->
  grows s s' /\
  match o with
  | None =>
      language_loop_inv env s0 p0 p' s' /\
      is_Some (translations p' !! target_language) /\
      (forall language, is_Some (translations p !! language) ->
                        is_Some (translations p' !! language))
  | Some _ => deduped s0 s'
  end.
Proof.
  intros Hin Hinv Hrun.
  pose proof Hinv as (Hded & Hattr & Htext & Hsrc & Hcov & Hder).
  unfold do_translate_language in Hrun.
  destruct (String.eqb_spec target_language (source_language (config s))) as [->|Hne].
  { inversion Hrun; subst. split; [apply grows_refl |].
    split; [assumption |]. split; [eauto | auto]. }
  destruct (has_translation target_language p) eqn:Hhas.
  { inversion Hrun; subst. split; [apply grows_refl |].
    split; [assumption |].
    split; [apply has_translation_true; assumption | auto]. }
  apply has_translation_false in Hhas.
  destruct (transalte_with_deepl consts env (JStr (get_text p)) target_language s)
    as [r s1] eqn:Hcall.
  apply transalte_with_deepl_cases in Hcall.
  destruct Hcall as [(Ha & _ & _) | [(_ & -> & k & ->) | (_ & req & -> & ->)]].
  - rewrite Ha in Hattr. destruct Hattr; discriminate.
  - inversion Hrun; subst. split.
    + unfold grows, configured. simpl. tauto.
    + apply deduped_recorded_deduped in Hded. exact Hded.
  - destruct (translate_text env (length (calls (world s))) req) as [x| |] eqn:Hreply.
    3:{ inversion Hrun; subst. split.
        - unfold grows, configured. simpl. tauto.
        - eapply language_loop_inv_raise; eauto; reflexivity. }
    all: inversion Hrun; subst; clear Hrun.
    all: match goal with
         | |- grows _ ?s2 /\ _ =>
             destruct (language_loop_inv_call s0 p0 p s s2 target_language
                         {| call_text := JStr (get_text p);
                            call_target_language := target_language;
                            call_request := req; call_time := clock (world s) |}
                         (reply_text (translate_text env (length (calls (world s))) req))
                         Hinv Hin Hne Hhas eq_refl eq_refl)
               as [Hg Hi]
         end.
    all: try (simpl; rewrite Hreply; reflexivity).
    all: try reflexivity.
    all: rewrite Hreply in Hi; simpl in Hi.
    all: split; [assumption |]; split; [exact Hi |].
    all: split; [rewrite set_translation_lookup_eq; eauto |].
    all: intros l [v Hv]; destruct (decide (target_language = l)) as [<-|Hl];
           [congruence | rewrite set_translation_lookup_ne by assumption; eauto].
Qed.

(** The property [deepl_translator] touches the handle and the glossaries
    only. *)
Lemma deepl_translator_cases s r s' :
  deepl_translator env s = (r, s') ->
  config s' = config s /\ files s' = files s /\
  existing_translations s' = existing_translations s /\
  api_call_counter s' = api_call_counter s /\
  info_json_content s' = info_json_content s /\ world s' = world s /\
  match r with
  | Ok None => s' = s /\ ~ configured s
  | _ => is_Some (deepl_translator_attr s') /\ configured s
  end.
Proof.
  unfold deepl_translator, configured. intros H.
  destruct (deepl_translator_attr s) as [t|] eqn:Ha.
  { inversion H; subst. rewrite Ha. repeat split; eauto. }
  destruct (deepl_api_key (config s)) as [key|] eqn:Hk.
  2:{ inversion H; subst. repeat split; try reflexivity.
      intros [[x Hx]|[x Hx]]; congruence. }
  simpl in H. destruct (sync_glossaries env _ _ _) as [g [e|]]; inversion H; subst; simpl.
  all: repeat split; eauto.
Qed.

Lemma language_loop_rule s0 p0 xs p s p' s' o :
  (forall x, x ∈ xs -> x ∈ target_languages (config s0)) ->
  language_loop_inv env s0 p0 p s ->
  for_in xs (do_translate_language consts env) p s = (p', s', o) ->
  grows s s' /\
  match o with
  | None =>
      language_loop_inv env s0 p0 p' s' /\
      (forall language, language ∈ xs -> is_Some (translations p' !! language)) /\
      (forall language, is_Some (translations p !! language) ->
                        is_Some (translations p' !! language))
  | Some _ => deduped s0 s'
  end.
Proof.
  intros Hsub.
  apply (for_in_rule grows grows_refl grows_trans (do_translate_language consts env)
           (language_loop_inv env s0 p0) (deduped s0)
           (fun language a => is_Some (translations a !! language))).
  intros x a s1 a' s1' o' Hx HP Hb.
  refine (do_translate_language_rule _ _ _ _ _ _ _ _ _ HP Hb).
  destruct HP as ((Hcfg & _) & _). rewrite Hcfg. auto.
Qed.

(** One turn of the loop over the prompts. *)
Lemma do_translate_prompt_rule s0 p s p' s' o :
  deduped_recorded env s0 s ->
  do_translate_prompt consts env p s = (p', s', o) ->
  grows s s' /\
  match o with
  | None => deduped_recorded env s0 s' /\ resolved p p' s' /\ covers p' s'
  | Some _ => deduped s0 s'
  end.
Proof.
  intros Hinv Hrun. unfold do_translate_prompt in Hrun.
  set (p1 := if contains (get_text p) (existing_translations s)
             then set_translations (get_translations (get_text p) (existing_translations s)) p
             else p) in *.
  assert (Ht1 : text p1 = text p) by apply copy_from_cache_text.
  set (p2 := set_translation (source_language (config s)) (get_text p1) p1) in *.
  assert (Hsrc2 : translations p2 !! source_language (config s) = Some (text p)).
  { unfold p2. rewrite set_translation_lookup_eq. unfold get_text. congruence. }
  assert (Hder2 : derived p p2 s).
  { intros l v Hl Hv. unfold p2 in Hv.
    rewrite set_translation_lookup_ne in Hv by congruence.
    unfold p1 in Hv. destruct (contains (get_text p) (existing_translations s)).
    - simpl in Hv. apply lookup_union_Some_raw in Hv.
      destruct Hv as [Hv | [_ Hv]]; [left; exact Hv | right; exact Hv].
    - right. exact Hv. }
  assert (Hcov2 : covers p2 s).
  { intros l v Hl Hv.
    unfold p2. rewrite set_translation_lookup_ne by congruence.
    unfold p2 in Hv. simpl in Hv. rewrite Ht1 in Hv.
    apply copy_from_cache. exact Hv. }
  destruct (deepl_translator env s) as [r s1] eqn:Hprop.
  apply deepl_translator_cases in Hprop.
  destruct Hprop as (Hcfg & _ & Hcache & _ & _ & Hworld & Hr).
  destruct r as [[tr|]|e].
  - destruct Hr as [Hattr Hconf].
    assert (Hconf1 : configured s1) by (left; assumption).
    assert (Hg1 : grows s s1).
    { unfold grows. rewrite Hcfg, Hcache. split; [reflexivity |]. split; [auto |]. tauto. }
    assert (Hinv1 : deduped_recorded env s0 s1).
    { destruct Hinv as (H1 & H2 & new & H3 & H4 & H5 & H6 & H7).
      unfold deduped_recorded. rewrite Hworld, Hcache, Hcfg.
      split; [assumption |]. split; [assumption |].
      exists new. repeat split; try assumption. right. assumption. }
    assert (Hloop : language_loop_inv env s0 p p2 s1).
    { unfold language_loop_inv. rewrite Hcfg.
      split; [assumption |]. split; [assumption |].
      split; [unfold p2; simpl; assumption |]. split; [assumption |]. split.
      - intros l v Hl Hv. rewrite Hcfg in Hl. rewrite Hcache in Hv. apply Hcov2; assumption.
      - intros l v Hl Hv. rewrite Hcfg in Hl. rewrite Hcache. apply Hder2; assumption. }
    assert (Hsub : forall x, x ∈ target_languages (config s1) ->
                             x ∈ target_languages (config s0)).
    { destruct Hinv1 as (Hc0 & _). rewrite Hc0. auto. }
    destruct (language_loop_rule _ _ _ _ _ _ _ _ Hsub Hloop Hrun) as [Hg2 Hpost].
    split; [eapply grows_trans; eauto |].
    destruct o; [exact Hpost |].
    destruct Hpost as ((Hded & _ & Htext & Hsrc & Hcov & Hder) & Hall & _).
    split; [assumption |].
    destruct Hg2 as (Hcfg2 & _ & _).
    split; [| assumption].
    split; [assumption |]. split; [assumption |]. split; [assumption |].
    intros _ l Hl. apply Hall. rewrite <- Hcfg2. exact Hl.
  - destruct Hr as [-> Hconf]. inversion Hrun; subst.
    split; [apply grows_refl |]. split; [assumption |].
    split; [| assumption].
    split; [assumption |]. split; [assumption |]. split; [assumption |].
    intros Hc. contradiction.
  - destruct Hr as [Hattr Hconf]. inversion Hrun; subst. split.
    + unfold grows. rewrite Hcfg, Hcache. split; [reflexivity |]. split; [auto |].
      unfold configured at 2. tauto.
    + apply deduped_recorded_deduped in Hinv.
      destruct Hinv as (new & H1 & H2 & H3). exists new. rewrite Hworld. auto.
Qed.

Lemma resolved_grows p0 p s s' : resolved p0 p s -> grows s s' -> resolved p0 p s'.
Proof.
  intros (Ht & Hsrc & Hder & Hcomp) (Hcfg & Hmono & Hconf).
  unfold resolved, derived, complete. rewrite Hcfg.
  split; [assumption |]. split; [assumption |]. split.
  - intros l v Hl Hv. destruct (Hder l v Hl Hv) as [H|H]; [left; auto | right; assumption].
  - intros Hc. apply Hcomp. tauto.
Qed.

Lemma file_resolved_grows f0 f s s' :
  file_resolved f0 f s -> grows s s' -> file_resolved f0 f s'.
Proof.
  intros [Hp HF] Hg. split; [assumption |].
  eapply Forall2_impl; [exact HF |]. intros p0 p Hr. exact (resolved_grows _ _ _ _ Hr Hg).
Qed.

Lemma do_translate_prompt_resolved s0 p s p' s' o :
  deduped_recorded env s0 s ->
  do_translate_prompt consts env p s = (p', s', o) ->
  grows s s' /\
  match o with
  | None => deduped_recorded env s0 s' /\ resolved p p' s'
  | Some _ => deduped s0 s'
  end.
Proof.
  intros Hinv Hrun.
  destruct (do_translate_prompt_rule _ _ _ _ _ _ Hinv Hrun) as [Hg Hpost].
  split; [assumption |]. destruct o; [assumption | tauto].
Qed.

(** One turn of the loop over the files. *)
Lemma do_translate_file_rule s0 f s f' s' o :
  deduped_recorded env s0 s ->
  do_translate_file consts env f s = (f', s', o) ->
  grows s s' /\
  match o with
  | None => deduped_recorded env s0 s' /\ file_resolved f f' s'
  | Some _ => deduped s0 s'
  end.
Proof.
  intros Hinv Hrun. unfold do_translate_file in Hrun.
  destruct (for_each (do_translate_prompt consts env) (get_prompts (snd f)) s)
    as [[ps s1] o1] eqn:Hloop.
  inversion Hrun; subst; clear Hrun.
  pose proof (for_each_rule grows grows_refl grows_trans (do_translate_prompt consts env)
                (deduped_recorded env s0) (deduped s0) resolved) as Hrule.
  destruct (Hrule (fun a s1 a' s1' o' HP Hb => do_translate_prompt_resolved _ _ _ _ _ _ HP Hb)
                  resolved_grows _ _ _ _ _ Hinv Hloop) as [Hg Hpost].
  split; [assumption |].
  destruct o; [assumption |].
  destruct Hpost as [HP HF]. split; [assumption |]. split; [reflexivity | exact HF].
Qed.

(** [do_translate] as a whole: the calls it makes are for distinct pairs of a
    text and a language; when it does not raise, every call is recorded in
    the cache and every prompt is resolved. *)
Lemma do_translate_rule s0 s s' o :
  deduped_recorded env s0 s ->
  do_translate consts env s = (s', o) ->
  grows s s' /\
  match o with
  | None =>
      deduped_recorded env s0 s' /\
      Forall2 (fun f0 f => file_resolved f0 f s') (files s) (files s')
  | Some _ => deduped s0 s'
  end.
Proof.
  intros Hinv Hrun. unfold do_translate in Hrun.
  destruct (for_each (do_translate_file consts env) (files s) s) as [[fs s1] o1] eqn:Hloop.
  inversion Hrun; subst; clear Hrun.
  pose proof (for_each_rule grows grows_refl grows_trans (do_translate_file consts env)
                (deduped_recorded env s0) (deduped s0) file_resolved) as Hrule.
  destruct (Hrule (fun a s1 a' s1' o' HP Hb => do_translate_file_rule _ _ _ _ _ _ HP Hb)
                  file_resolved_grows _ _ _ _ _ Hinv Hloop) as [Hg Hpost].
  split; [exact Hg |].
  destruct o; [exact Hpost |].
  destruct Hpost as [HP HF]. split; [exact HP |].
  simpl. eapply Forall2_impl; [exact HF |]. intros f0 f Hf. exact Hf.
Qed.

Lemma deduped_recorded_start s : deduped_recorded env s s.
Proof.
  split; [reflexivity |]. split; [auto |].
  exists []. split; [symmetry; apply app_nil_r |]. split; [constructor |].
  split; [constructor |]. split; [left; reflexivity |].
  intros i c Hi. rewrite lookup_nil in Hi. discriminate.
Qed.

(** C1. In the translation-resolution phase at most one remote call is made
    for a pair of a prompt text and a target language: the calls that
    [do_translate] adds to the log have pairwise distinct (text, language)
    keys, whether it returns or raises, and each of them is for a target
    language other than the source language and for a text the cache had no
    translation of in that language when the phase started.  (The first call
    for a pair puts its result in the cache and on the prompt; a later prompt
    with the same text copies it from the cache and so has it.) *)
Theorem do_translate_one_call_per_pair s :
  NoDup (map call_key (new_calls s (fst (do_translate consts env s)))) /\
  Forall (uncached s) (new_calls s (fst (do_translate consts env s))).
Proof.
  destruct (do_translate consts env s) as [s' o] eqn:Hrun. simpl.
  destruct (do_translate_rule _ _ _ _ (deduped_recorded_start s) Hrun) as [_ Hpost].
  assert (Hded : deduped s s').
  { destruct o; [exact Hpost |]. apply deduped_recorded_deduped. tauto. }
  destruct Hded as (new & Hcalls & Hnodup & Hunc).
  rewrite (new_calls_app _ _ _ Hcalls). auto.
Qed.

(** C3. After translation resolution the source-language entry of every
    prompt is the original text of the prompt, whatever the cache held for
    the source language, and whatever the provider answered: [do_translate],
    when it returns, leaves the files with their paths and the prompts with
    their texts, each prompt with its text as translation for the source
    language. *)
Theorem source_entry_is_original_text s s' :
  do_translate consts env s = (s', None) ->
  Forall2
    (fun f0 f =>
       fst f = fst f0 /\
       Forall2
         (fun p0 p =>
            text p = text p0 /\
            translations p !! source_language (config s) = Some (text p0))
         (prompts (snd f0)) (prompts (snd f)))
    (files s) (files s').
Proof.
  intros Hrun.
  destruct (do_translate_rule _ _ _ _ (deduped_recorded_start s) Hrun)
    as [(Hcfg & _) (_ & HF)].
  eapply Forall2_impl; [exact HF |].
  intros f0 f [Hpath Hps]. split; [assumption |].
  eapply Forall2_impl; [exact Hps |].
  intros p0 p (Ht & Hsrc & _). rewrite <- Hcfg. auto.
Qed.

(** C4. If the cache holds a translation of the text of a prompt for a
    language when the prompt is resolved, then resolving the prompt makes no
    remote call for that text and language; and the prompt, once resolved,
    has the cached value for the language (unless it is the source language,
    whose entry is the text itself). *)
Theorem cached_translation_no_remote_call p language v s p' s' o :
  cell (existing_translations s) (text p) language = Some v ->
  do_translate_prompt consts env p s = (p', s', o) ->
  ((JStr (text p), language) ∉ map call_key (new_calls s s')) /\
  (o = None -> language <> source_language (config s) ->
   translations p' !! language = Some v).
Proof.
  intros Hcell Hrun.
  destruct (do_translate_prompt_rule _ _ _ _ _ _ (deduped_recorded_start s) Hrun)
    as [(Hcfg & Hmono & _) Hpost].
  split.
  - assert (Hded : deduped s s').
    { destruct o; [exact Hpost |]. apply deduped_recorded_deduped. tauto. }
    destruct Hded as (new & Hcalls & _ & Hunc).
    rewrite (new_calls_app _ _ _ Hcalls). intros Hin.
    apply list_elem_of_fmap in Hin. destruct Hin as (c & Hkey & Hc).
    rewrite Forall_forall in Hunc. destruct (Hunc _ Hc) as (t & Ht & Hnone & _).
    unfold call_key in Hkey. injection Hkey as Hk1 Hk2.
    rewrite Ht in Hk1. injection Hk1 as Hk1. rewrite <- Hk1, <- Hk2 in Hnone. congruence.
  - intros -> Hne. destruct Hpost as (_ & (Ht & _) & Hcov).
    apply Hcov; [rewrite Hcfg; assumption |]. rewrite Ht. apply Hmono. assumption.
Qed.

(** C10. The result of every remote call made during prompt resolution is
    recorded in the cache under the text and the target language of the
    call, the empty string of a result of unexpected shape like any other:
    when [do_translate] returns, the cell of the [i]-th call it made holds
    [reply_text] of the provider's reply, which is the empty string when the
    reply has not the expected shape; and if the prompts were as prompt
    extraction leaves them, without translations, every prompt with that
    text, in every file, has this very value as its translation for the
    language. *)
Theorem remote_result_recorded s s' i c :
  do_translate consts env s = (s', None) ->
  new_calls s s' !! i = Some c ->
  exists t,
    call_text c = JStr t /\
    cell (existing_translations s') t (call_target_language c) =
      Some (reply_text (translate_text env (length (calls (world s)) + i) (call_request c))) /\
    (Forall (fun f => Forall fresh (prompts (snd f))) (files s) ->
     forall f p, f ∈ files s' -> p ∈ prompts (snd f) -> text p = t ->
       translations p !! call_target_language c =
         Some (reply_text
                 (translate_text env (length (calls (world s)) + i) (call_request c)))).
Proof.
  intros Hrun Hi.
  destruct (do_translate_rule _ _ _ _ (deduped_recorded_start s) Hrun)
    as [(Hcfg & _) ((_ & _ & new & Hcalls & _ & Hunc & Hconf & Hrec) & HF)].
  rewrite (new_calls_app _ _ _ Hcalls) in Hi.
  destruct (Hrec _ _ Hi) as (t & Ht & Hcell).
  exists t. split; [assumption |]. split; [assumption |].
  intros Hfresh f p Hf Hp Htext.
  assert (Hc : c ∈ new) by (eapply list_elem_of_lookup_2; eauto).
  rewrite Forall_forall in Hunc. destruct (Hunc _ Hc) as (t' & _ & _ & Hin & Hne).
  destruct Hconf as [-> | Hconf]; [apply elem_of_nil in Hc; contradiction |].
  apply list_elem_of_lookup in Hf. destruct Hf as [j Hj].
  destruct (Forall2_lookup_r _ _ _ _ _ HF Hj) as (f0 & Hj0 & Hpath & Hps).
  apply list_elem_of_lookup in Hp. destruct Hp as [k Hk].
  destruct (Forall2_lookup_r _ _ _ _ _ Hps Hk) as (p0 & Hk0 & Ht0 & _ & Hder & Hcomp).
  assert (Hp0 : fresh p0).
  { rewrite Forall_forall in Hfresh.
    assert (Hf0 : f0 ∈ files s) by (eapply list_elem_of_lookup_2; eauto).
    specialize (Hfresh _ Hf0). rewrite Forall_forall in Hfresh.
    apply Hfresh. eapply list_elem_of_lookup_2; eauto. }
  destruct (Hcomp Hconf (call_target_language c)) as [x Hx]; [rewrite Hcfg; assumption |].
  rewrite Hx.
  destruct (Hder _ _ ltac:(rewrite Hcfg; exact Hne) Hx) as [Hd | Hd].
  - rewrite <- Ht0, Htext in Hd. congruence.
  - unfold fresh in Hp0. rewrite Hp0, lookup_empty in Hd. discriminate.
Qed.

(** *** Without a credential *)

Lemma deepl_translator_none s :
  deepl_api_key (config s) = None -> deepl_translator_attr s = None ->
  deepl_translator env s = (Ok None, s).
Proof. intros Hk Ha. unfold deepl_translator. rewrite Ha, Hk. reflexivity. Qed.

Lemma do_translate_prompt_none s p :
  deepl_api_key (config s) = None -> deepl_translator_attr s = None ->
  do_translate_prompt consts env p s = (cache_resolved s p, s, None).
Proof.
  intros Hk Ha. unfold do_translate_prompt.
  rewrite (deepl_translator_none _ Hk Ha). reflexivity.
Qed.

Lemma for_each_pure {A} (body : Body A) (f : A -> A) s :
  (forall a, body a s = (f a, s, None)) ->
  forall xs, for_each body xs s = (map f xs, s, None).
Proof.
  intros Hbody xs. induction xs as [|x xs IH]; simpl; [reflexivity |].
  rewrite Hbody, IH. reflexivity.
Qed.

Lemma do_translate_none s :
  deepl_api_key (config s) = None -> deepl_translator_attr s = None ->
  do_translate consts env s = (set_files (files_cache_resolved s) s, None).
Proof.
  intros Hk Ha. unfold do_translate, files_cache_resolved.
  rewrite (for_each_pure (do_translate_file consts env)
             (fun f => (fst f, {| prompts := map (cache_resolved s) (prompts (snd f)) |}))).
  - reflexivity.
  - intros f. unfold do_translate_file, get_prompts.
    rewrite (for_each_pure (do_translate_prompt consts env) (cache_resolved s)).
    + reflexivity.
    + intros p. apply do_translate_prompt_none; assumption.
Qed.

Lemma translate_info_json_none s :
  deepl_api_key (config s) = None -> deepl_translator_attr s = None ->
  translate_info_json consts env s = (s, None).
Proof.
  intros Hk Ha. unfold translate_info_json.
  rewrite (deepl_translator_none _ Hk Ha). reflexivity.
Qed.

(** [write_plugin_translations] writes translation files, and nothing
    else. *)
Lemma write_language_frame s l :
  let s' := write_language s l in
  config s' = config s /\ files s' = files s /\
  existing_translations s' = existing_translations s /\
  deepl_translator_attr s' = deepl_translator_attr s /\
  api_call_counter s' = api_call_counter s /\
  info_json_content s' = info_json_content s /\
  calls (world s') = calls (world s) /\
  clock (world s') = clock (world s) /\
  info_json_file (world s') = info_json_file (world s).
Proof.
  unfold write_language. destruct (_ && _); [repeat split |].
  simpl. destruct (0 <? _)%nat; repeat split.
Qed.

Lemma write_plugin_translations_frame s :
  let s' := write_plugin_translations s in
  config s' = config s /\ files s' = files s /\
  existing_translations s' = existing_translations s /\
  deepl_translator_attr s' = deepl_translator_attr s /\
  api_call_counter s' = api_call_counter s /\
  info_json_content s' = info_json_content s /\
  calls (world s') = calls (world s) /\
  clock (world s') = clock (world s) /\
  info_json_file (world s') = info_json_file (world s).
Proof.
  unfold write_plugin_translations.
  generalize (target_languages (config s)). intros ls. revert s.
  induction ls as [|l ls IH]; intros s; simpl; [repeat split |].
  specialize (IH (write_language s l)). simpl in IH.
  destruct IH as (H1 & H2 & H3 & H4 & H5 & H6 & H7 & H8 & H9).
  destruct (write_language_frame s l) as (F1 & F2 & F3 & F4 & F5 & F6 & F7 & F8 & F9).
  rewrite H1, H2, H3, H4, H5, H6, H7, H8, H9. repeat split; assumption.
Qed.

Lemma write_info_json_frame s :
  let r := __write_info_json s in
  config (fst r) = config s /\ files (fst r) = files s /\
  api_call_counter (fst r) = api_call_counter s /\
  calls (world (fst r)) = calls (world s) /\
  written (world (fst r)) = written (world s).
Proof.
  unfold __write_info_json. destruct (info_json_content s) as [content|]; [| repeat split].
  destruct (py_setitem _ _ _); repeat split.
Qed.

(** C5. Without a credential (no API key, hence no provider handle) the run
    makes no remote translation call and does not raise: [do_translate]
    returns with every prompt resolved from the cache alone (its cached
    translations and its own text for the source language, nothing for a
    language the cache lacks), [translate_info_json] does nothing, the files
    written afterwards are those of these prompts, the log of remote calls
    and the API call counter are what they were, and with a metadata
    descriptor that is a JSON object (or none) the run ends without an
    exception. *)
Theorem no_credential_no_remote_call s :
  deepl_api_key (config s) = None ->
  deepl_translator_attr s = None ->
  let s1 := set_files (files_cache_resolved s) s in
  do_translate consts env s = (s1, None) /\
  translate_info_json consts env s1 = (s1, None) /\
  start_from_do_translate consts env s = __write_info_json (write_plugin_translations s1) /\
  new_calls s (fst (start_from_do_translate consts env s)) = [] /\
  api_call_counter (fst (start_from_do_translate consts env s)) = api_call_counter s /\
  files (fst (start_from_do_translate consts env s)) = files_cache_resolved s /\
  (info_json_content s = None \/ (exists o, info_json_content s = Some (JObj o)) ->
   snd (start_from_do_translate consts env s) = None).
Proof.
  intros Hk Ha s1.
  assert (H1 : do_translate consts env s = (s1, None)) by (apply do_translate_none; assumption).
  assert (H2 : translate_info_json consts env s1 = (s1, None))
    by (apply translate_info_json_none; assumption).
  assert (H3 : start_from_do_translate consts env s
               = __write_info_json (write_plugin_translations s1)).
  { unfold start_from_do_translate. rewrite H1, H2. reflexivity. }
  split; [assumption |]. split; [assumption |]. split; [assumption |].
  rewrite H3.
  destruct (write_plugin_translations_frame s1) as (W1 & W2 & W3 & W4 & W5 & W6 & W7 & _).
  destruct (write_info_json_frame (write_plugin_translations s1)) as (I1 & I2 & I3 & I4 & _).
  split; [apply new_calls_same; rewrite I4, W7; reflexivity |].
  split; [rewrite I3, W5; reflexivity |].
  split; [rewrite I2, W2; reflexivity |].
  intros [Ho | [o Ho]]; unfold __write_info_json; rewrite W6; simpl; rewrite Ho; reflexivity.
Qed.

End Resolution.

(** ** Output: [write_plugin_translations] and [__write_info_json] *)

Lemma dict_set_elem {V} k (v : V) d k' v' :
  (k', v') ∈ dict_set k v d -> (k', v') = (k, v) \/ (k', v') ∈ d.
Proof.
  induction d as [|[k0 v0] d IH]; simpl; intros H.
  - apply list_elem_of_singleton in H. left. assumption.
  - destruct (String.eqb k k0).
    + apply elem_of_cons in H. destruct H as [H|H]; [left; assumption |].
      right. apply elem_of_cons. right. assumption.
    + apply elem_of_cons in H. destruct H as [H|H].
      * right. apply elem_of_cons. left. assumption.
      * destruct (IH H) as [H'|H']; [left; assumption |].
        right. apply elem_of_cons. right. assumption.
Qed.

Lemma dict_get_set_eq {V} k (v : V) d : dict_get k (dict_set k v d) = Some v.
Proof.
  induction d as [|[k0 v0] d IH]; simpl.
  - rewrite String.eqb_refl. reflexivity.
  - destruct (String.eqb k k0) eqn:E; simpl.
    + rewrite String.eqb_refl. reflexivity.
    + rewrite E. exact IH.
Qed.

Lemma dict_get_set_ne {V} k (v : V) d k' : k <> k' -> dict_get k' (dict_set k v d) = dict_get k' d.
Proof.
  intros Hne. induction d as [|[k0 v0] d IH]; simpl.
  - destruct (String.eqb_spec k' k); [congruence | reflexivity].
  - destruct (String.eqb_spec k k0) as [<-|Hk]; simpl.
    + destruct (String.eqb_spec k' k); [congruence | reflexivity].
    + destruct (String.eqb k' k0); [reflexivity | exact IH].
Qed.

(** An entry of the document of a language is a file with the prompts it
    contributes, and these are not none. *)
Lemma language_result_entries language include_empty fs path ps :
  (path, ps) ∈ language_result language include_empty fs ->
  ps <> [] /\
  exists f, (path, f) ∈ fs /\ ps = get_prompts_and_translation language include_empty f.
Proof.
  unfold language_result.
  assert (Hgen : forall doc,
    (forall path ps, (path, ps) ∈ doc ->
       ps <> [] /\
       exists f, (path, f) ∈ fs /\ ps = get_prompts_and_translation language include_empty f) ->
    forall fs', (forall e, e ∈ fs' -> e ∈ fs) ->
    forall path ps,
      (path, ps) ∈ fold_left
        (fun doc entry =>
           let ps := get_prompts_and_translation language include_empty (snd entry) in
           if (0 <? length ps)%nat then dict_set (fst entry) ps doc else doc) fs' doc ->
      ps <> [] /\
      exists f, (path, f) ∈ fs /\ ps = get_prompts_and_translation language include_empty f).
  { intros doc Hdoc fs'. revert doc Hdoc.
    induction fs' as [|[path0 f0] fs' IH]; intros doc Hdoc Hsub path' ps' Hin; simpl in Hin.
    - apply Hdoc. assumption.
    - eapply IH; [| | exact Hin].
      + intros path1 ps1 H1. simpl in H1.
        destruct (0 <? length (get_prompts_and_translation language include_empty f0))%nat
          eqn:Hlen; [| apply Hdoc; assumption].
        apply dict_set_elem in H1. destruct H1 as [H1|H1]; [| apply Hdoc; assumption].
        injection H1 as -> ->. split.
        * apply Nat.ltb_lt in Hlen. intros Hnil. rewrite Hnil in Hlen. simpl in Hlen. lia.
        * exists f0. split; [| reflexivity]. apply Hsub. apply elem_of_cons. left. reflexivity.
      + intros e He. apply Hsub. apply elem_of_cons. right. assumption. }
  apply Hgen; [| auto].
  intros path' ps' H. apply elem_of_nil in H. contradiction.
Qed.

(** C8. A translation file is written only for a language whose assembled
    document is not empty, and a document has an entry for a file only with
    the prompts the file contributes for the language, of which there is at
    least one: everything [write_plugin_translations] adds to the files
    written is a [proper_output]. *)
Theorem write_plugin_translations_no_empty_entry s :
  exists new,
    written (world (write_plugin_translations s)) = written (world s) ++ new /\
    Forall (proper_output s) new.
Proof.
  unfold write_plugin_translations.
  assert (Hgen : forall ls s1,
    config s1 = config s -> files s1 = files s ->
    (forall l, l ∈ ls -> l ∈ target_languages (config s)) ->
    exists new,
      written (world (fold_left write_language ls s1)) = written (world s1) ++ new /\
      Forall (proper_output s) new).
  { induction ls as [|l ls IH]; intros s1 Hcfg Hfiles Hsub; simpl.
    - exists []. split; [symmetry; apply app_nil_r | constructor].
    - assert (Hl : l ∈ target_languages (config s))
        by (apply Hsub; apply elem_of_cons; left; reflexivity).
      assert (Hsub' : forall l', l' ∈ ls -> l' ∈ target_languages (config s))
        by (intros l' Hl'; apply Hsub; apply elem_of_cons; right; assumption).
      destruct (write_language_frame s1 l) as (F1 & F2 & _).
      destruct (IH (write_language s1 l)) as (new & Hw & Hnew);
        [congruence | congruence | assumption |].
      rewrite Hw. clear Hw IH.
      unfold write_language.
      destruct (_ && _); [exists new; split; [reflexivity | assumption] |].
      simpl.
      destruct (0 <? length (language_result l (include_empty_translation (config s1))
                               (files s1)))%nat eqn:Hlen;
        [| exists new; split; [reflexivity | assumption]].
      eexists (_ :: new). split.
      + simpl. rewrite <- app_assoc. reflexivity.
      + constructor; [| assumption].
        rewrite Hcfg, Hfiles in *. split; [exact Hl |]. split; [reflexivity |]. split.
        * simpl. apply Nat.ltb_lt in Hlen. intros Hnil. rewrite Hnil in Hlen.
          simpl in Hlen. lia.
        * simpl. intros path ps Hin. eapply language_result_entries. exact Hin. }
  apply Hgen; auto.
Qed.


(** ** [sorted(set(..))] *)

Lemma ascii_compare_lt_trans a b c :
  Ascii.compare a b = Lt -> Ascii.compare b c = Lt -> Ascii.compare a c = Lt.
Proof.
  unfold Ascii.compare. rewrite !N.compare_lt_iff. lia.
Qed.

Lemma string_compare_lt_trans a : forall b c,
  String.compare a b = Lt -> String.compare b c = Lt -> String.compare a c = Lt.
Proof.
  induction a as [|x a IH]; intros [|y b] [|z c]; simpl; try congruence.
  destruct (Ascii.compare x y) eqn:Hxy; try discriminate.
  - apply Ascii.compare_eq_iff in Hxy. subst y.
    destruct (Ascii.compare x z) eqn:Hxz; try congruence. apply IH.
  - intros _. destruct (Ascii.compare y z) eqn:Hyz; try discriminate.
    + apply Ascii.compare_eq_iff in Hyz. subst z. rewrite Hxy. reflexivity.
    + intros _. rewrite (ascii_compare_lt_trans _ _ _ Hxy Hyz). reflexivity.
Qed.

Lemma str_lt_trans a b c : str_lt a b -> str_lt b c -> str_lt a c.
Proof.
  unfold str_lt, String.ltb. intros H1 H2.
  destruct (String.compare a b) eqn:E1; try discriminate.
  destruct (String.compare b c) eqn:E2; try discriminate.
  rewrite (string_compare_lt_trans _ _ _ E1 E2). reflexivity.
Qed.

Lemma str_le_lt a b : str_le a b -> a <> b -> str_lt a b.
Proof.
  unfold str_le, str_lt, String.leb, String.ltb. intros H Hne.
  destruct (String.compare a b) eqn:E; try discriminate; [| reflexivity].
  apply String.compare_eq_iff in E. contradiction.
Qed.

Lemma insert_sorted_perm x l : Permutation (x :: l) (insert_sorted x l).
Proof.
  induction l as [|y l IH]; simpl; [reflexivity |].
  destruct (String.leb x y); [reflexivity |].
  rewrite perm_swap. constructor. assumption.
Qed.

Lemma sorted_perm l : Permutation l (sorted l).
Proof.
  induction l as [|x l IH]; simpl; [reflexivity |].
  rewrite <- insert_sorted_perm. constructor. assumption.
Qed.

Lemma insert_sorted_Sorted x l : Sorted str_le l -> Sorted str_le (insert_sorted x l).
Proof.
  induction l as [|y l IH]; simpl; intros Hs.
  - repeat constructor.
  - destruct (String.leb x y) eqn:E.
    + constructor; [assumption |]. constructor. exact E.
    + inversion Hs as [|? ? Hs' Hhd]; subst.
      constructor; [apply IH; assumption |].
      assert (Hyx : str_le y x).
      { destruct (String.leb_total x y) as [H|H]; [congruence | exact H]. }
      destruct l as [|z l]; simpl.
      * constructor. assumption.
      * destruct (String.leb x z); constructor; [assumption |].
        inversion Hhd; subst. assumption.
Qed.

Lemma sorted_Sorted l : Sorted str_le (sorted l).
Proof.
  induction l as [|x l IH]; simpl; [constructor | apply insert_sorted_Sorted; assumption].
Qed.

Lemma Sorted_strict l : Sorted str_le l -> NoDup l -> StronglySorted str_lt l.
Proof.
  intros Hs Hnd. apply Sorted_StronglySorted; [exact str_lt_trans |].
  induction Hs as [|x l Hs IH Hhd]; [constructor |].
  apply NoDup_cons in Hnd. destruct Hnd as [Hx Hnd].
  constructor; [apply IH; assumption |].
  destruct Hhd as [|y l Hxy]; constructor.
  apply str_le_lt; [assumption |]. intros ->. apply Hx. apply elem_of_cons. left. reflexivity.
Qed.

(** [sorted(set(xs))] is the strictly increasing list of the elements of [xs]. *)
Lemma sorted_set_of_spec xs :
  StronglySorted str_lt (sorted (set_of xs)) /\
  forall x, x ∈ sorted (set_of xs) <-> x ∈ xs.
Proof.
  split.
  - apply Sorted_strict; [apply sorted_Sorted |].
    rewrite <- sorted_perm. apply NoDup_remove_dups.
  - intros x. rewrite <- sorted_perm. unfold set_of. apply elem_of_remove_dups.
Qed.

(** ** The run from translation resolution to the metadata descriptor *)

Section Run.
Variable consts : Consts.
Variable env : Env.

Lemma frame_refl s : frame s s.
Proof. split; reflexivity. Qed.

Lemma frame_trans s1 s2 s3 : frame s1 s2 -> frame s2 s3 -> frame s1 s3.
Proof. unfold frame. intros [H1 H2] [H3 H4]. split; congruence. Qed.

Lemma transalte_with_deepl_frame t language s r s' :
  transalte_with_deepl consts env t language s = (r, s') -> frame s s'.
Proof.
  intros H. apply transalte_with_deepl_cases in H.
  destruct H as [(_ & _ & ->) | [(_ & -> & _) | (_ & req & -> & _)]]; split; reflexivity.
Qed.

Lemma deepl_translator_frame s r s' : deepl_translator env s = (r, s') -> frame s s'.
Proof.
  intros H. apply deepl_translator_cases in H.
  destruct H as (H1 & _ & _ & _ & H2 & _). split; assumption.
Qed.

Lemma do_translate_frame s s' o : do_translate consts env s = (s', o) -> frame s s'.
Proof.
  unfold do_translate. intros Hrun.
  destruct (for_each (do_translate_file consts env) (files s) s) as [[fs s1] o1] eqn:Hloop.
  inversion Hrun; subst; clear Hrun.
  assert (Hlang : forall x a s0 a' s0' o0,
    do_translate_language consts env x a s0 = (a', s0', o0) -> frame s0 s0').
  { intros x a s0 a' s0' o0 H. unfold do_translate_language in H.
    destruct (String.eqb _ _); [inversion H; subst; apply frame_refl |].
    destruct (has_translation _ _); [inversion H; subst; apply frame_refl |].
    destruct (transalte_with_deepl _ _ _ _ _) as [[tr|e] s2] eqn:Hcall;
      apply transalte_with_deepl_frame in Hcall; inversion H; subst; exact Hcall. }
  assert (Hprompt : forall a s0 a' s0' o0,
    do_translate_prompt consts env a s0 = (a', s0', o0) -> frame s0 s0').
  { intros a s0 a' s0' o0 H. unfold do_translate_prompt in H.
    destruct (deepl_translator env s0) as [[[tr|]|e] s2] eqn:Hprop;
      apply deepl_translator_frame in Hprop.
    2,3: inversion H; subst; exact Hprop.
    eapply frame_trans; [exact Hprop |].
    pose proof (for_in_rule frame frame_refl frame_trans (do_translate_language consts env)
                  (fun _ _ => True) (fun _ => True) (fun _ _ => True)
                  (target_languages (config s2))) as Hrule.
    refine (proj1 (Hrule _ _ _ _ _ _ I H)).
    intros x b s3 b' s3' o3 _ _ Hb. split; [exact (Hlang _ _ _ _ _ _ Hb) |].
    destruct o3; auto. }
  assert (Hfile : forall a s0 a' s0' o0,
    do_translate_file consts env a s0 = (a', s0', o0) -> frame s0 s0').
  { intros a s0 a' s0' o0 H. unfold do_translate_file in H.
    destruct (for_each (do_translate_prompt consts env) (get_prompts (snd a)) s0)
      as [[ps s2] o2] eqn:Hps.
    inversion H; subst; clear H.
    pose proof (for_each_rule frame frame_refl frame_trans (do_translate_prompt consts env)
                  (fun _ => True) (fun _ => True) (fun _ _ _ => True)) as Hrule.
    refine (proj1 (Hrule _ _ _ _ _ _ _ I Hps)); [| auto].
    intros b s3 b' s3' o3 _ Hb. split; [exact (Hprompt _ _ _ _ _ Hb) |].
    destruct o3; auto. }
  pose proof (for_each_rule frame frame_refl frame_trans (do_translate_file consts env)
                (fun _ => True) (fun _ => True) (fun _ _ _ => True)) as Hrule.
  assert (Hf : frame s s1).
  { refine (proj1 (Hrule _ _ _ _ _ _ _ I Hloop)); [| auto].
    intros b s3 b' s3' o3 _ Hb. split; [exact (Hfile _ _ _ _ _ Hb) |].
    destruct o3; auto. }
  exact Hf.
Qed.

Lemma translate_description_loop_frame source_desc xs d s d' s' o :
  for_in xs (translate_description consts env source_desc) d s = (d', s', o) -> frame s s'.
Proof.
  intros H.
  pose proof (for_in_rule frame frame_refl frame_trans
                (translate_description consts env source_desc)
                (fun _ _ => True) (fun _ => True) (fun _ _ => True) xs) as Hrule.
  refine (proj1 (Hrule _ _ _ _ _ _ I H)).
  intros x b s3 b' s3' o3 _ _ Hb. split; [| destruct o3; auto].
  unfold translate_description in Hb.
  destruct (dict_get x b) as [v|].
  - destruct (negb (json_is_str "" v)); [inversion Hb; subst; apply frame_refl |].
    destruct (transalte_with_deepl _ _ _ _ _) as [[tr|e] s4] eqn:Hcall;
      apply transalte_with_deepl_frame in Hcall; inversion Hb; subst; exact Hcall.
  - destruct (transalte_with_deepl _ _ _ _ _) as [[tr|e] s4] eqn:Hcall;
      apply transalte_with_deepl_frame in Hcall; inversion Hb; subst; exact Hcall.
Qed.

(** [translate_info_json] keeps the configuration, and a descriptor that is
    an object remains one. *)
Lemma translate_info_json_frame s s' o :
  translate_info_json consts env s = (s', o) ->
  config s' = config s /\
  forall ob, info_json_content s = Some (JObj ob) ->
             exists ob', info_json_content s' = Some (JObj ob').
Proof.
  unfold translate_info_json. intros H.
  destruct (deepl_translator env s) as [[[tr|]|e] s1] eqn:Hprop;
    apply deepl_translator_frame in Hprop; destruct Hprop as [Hc1 Hi1].
  2,3: inversion H; subst; split; [assumption | intros ob Hob; rewrite Hi1; eauto].
  rewrite <- Hc1, <- Hi1.
  destruct (info_json_content s1) as [content|] eqn:Hcontent.
  2:{ inversion H; subst. split; [reflexivity | intros ob Hob; discriminate]. }
  assert (Hkeep : config s1 = config s1 /\
                  forall ob, Some content = Some (JObj ob) ->
                             exists ob', info_json_content s1 = Some (JObj ob')).
  { split; [reflexivity |]. intros ob Hob. rewrite Hcontent. eauto. }
  destruct (py_in "description" content) as [[|]|e]; [| inversion H; subst; exact Hkeep ..].
  destruct (py_getitem "description" content) as [d|e] eqn:Hget;
    [| inversion H; subst; exact Hkeep].
  destruct (match d with
            | JObj o0 => (o0, true)
            | _ => ([(source_language (config s1), d)], false)
            end) as [descriptions aliased].
  destruct (dict_get (source_language (config s1)) descriptions) as [source_desc|];
    [| inversion H; subst; exact Hkeep].
  destruct (for_in _ _ _ _) as [[descriptions' s2] o2] eqn:Hloop.
  apply translate_description_loop_frame in Hloop. destruct Hloop as [Hc2 Hi2].
  assert (Hkeep2 : config s2 = config s1 /\
                   forall ob, Some content = Some (JObj ob) ->
                              exists ob', info_json_content s2 = Some (JObj ob')).
  { split; [assumption |]. intros ob Hob. rewrite Hi2, Hcontent. eauto. }
  assert (Hset : forall o3,
    match py_setitem "description" (JObj descriptions') content with
    | Ok content' => (set_info_json_content (Some content') s2, o3)
    | Raise e => (s2, Some e)
    end = (s', o) ->
    config s' = config s1 /\
    forall ob, Some content = Some (JObj ob) ->
               exists ob', info_json_content s' = Some (JObj ob')).
  { intros o3 H3. destruct content; simpl in H3; inversion H3; subst; try exact Hkeep2.
    split; [exact Hc2 |]. intros ob _. simpl. eauto. }
  destruct o2 as [e|]; [destruct aliased |].
  - eapply Hset. exact H.
  - inversion H; subst. exact Hkeep2.
  - eapply Hset. exact H.
Qed.

(** C6. When the run gets to its end, with or without a provider, the
    language field of the metadata descriptor is the list, in strictly
    increasing lexicographic order and hence without a duplicate, of the
    source language and the target languages, whatever the field held
    before; the descriptor file written holds that descriptor.  (The
    descriptor is a JSON object.) *)
Theorem run_writes_sorted_languages s ob s' :
  info_json_content s = Some (JObj ob) ->
  start_from_do_translate consts env s = (s', None) ->
  let languages :=
    sorted (set_of (source_language (config s) :: target_languages (config s))) in
  (exists ob',
     info_json_content s' = Some (JObj ob') /\
     info_json_file (world s') = JsonFile (JObj ob') /\
     dict_get "language" ob' = Some (JList (map JStr languages))) /\
  StronglySorted str_lt languages /\
  (forall l, l ∈ languages <->
             l = source_language (config s) \/ l ∈ target_languages (config s)).
Proof.
  intros Hob Hrun languages.
  split; [| destruct (sorted_set_of_spec
                        (source_language (config s) :: target_languages (config s)))
              as [Hs Hm]; split; [exact Hs |];
            intros l; unfold languages; rewrite Hm; apply elem_of_cons].
  unfold start_from_do_translate in Hrun.
  destruct (do_translate consts env s) as [s1 [e|]] eqn:H1; [discriminate |].
  destruct (translate_info_json consts env s1) as [s2 [e|]] eqn:H2; [discriminate |].
  apply do_translate_frame in H1. destruct H1 as [Hc1 Hi1].
  apply translate_info_json_frame in H2. destruct H2 as [Hc2 Hi2].
  rewrite Hob in Hi1. destruct (Hi2 _ Hi1) as [ob2 Hob2].
  destruct (write_plugin_translations_frame s2) as (W1 & _ & _ & _ & _ & W6 & _).
  unfold __write_info_json in Hrun. rewrite W6, Hob2, W1, Hc2, Hc1 in Hrun.
  cbn [py_setitem] in Hrun. inversion Hrun; subst; clear Hrun.
  eexists. split; [reflexivity |]. split; [reflexivity |].
  apply dict_get_set_eq.
Qed.

End Run.

(** ** Configuration *)

Section Configuration.
Variable consts : Consts.

Lemma _get_boolean_input_invalid environ name :
  valid_boolean environ name = false ->
  _get_boolean_input environ name = Raise (ValueError name).
Proof.
  unfold valid_boolean, _get_boolean_input, opt_in.
  destruct (_get_input environ name) as [v|]; [| reflexivity].
  rewrite existsb_app. intros H. apply orb_false_elim in H. destruct H as [-> ->].
  reflexivity.
Qed.

Lemma _get_boolean_input_valid environ name :
  valid_boolean environ name = true ->
  exists b, _get_boolean_input environ name = Ok b.
Proof.
  unfold valid_boolean, _get_boolean_input, opt_in.
  destruct (_get_input environ name) as [v|]; [| discriminate].
  rewrite existsb_app. intros H. apply orb_prop in H.
  destruct (existsb (String.eqb v) trueValue); [eauto |].
  destruct H as [H | ->]; [discriminate | eauto].
Qed.

(** C9 (as amended). A boolean input that configuration loading reads (the
    one for the core translations is read only when the source language is
    [FR_FR]) and whose value, stripped of the white space around it, is not
    one of true, True, TRUE, false, False, FALSE (an absent or blank value
    is not) makes [__get_inputs] raise a [ValueError], and with it the
    construction of the coordinator, before anything else is done. *)
Theorem invalid_boolean_input_is_fatal environ w name :
  name ∈ boolean_inputs_read consts environ ->
  valid_boolean environ name = false ->
  (exists msg, __get_inputs consts environ = Raise (ValueError msg)) /\
  (exists msg, __init__ consts environ w = Raise (ValueError msg)).
Proof.
  intros Hin Hbad.
  assert (H : exists msg, __get_inputs consts environ = Raise (ValueError msg)).
  { unfold __get_inputs, bind, _get_input_in_list, _get_list_input.
    unfold boolean_inputs_read in Hin.
    destruct (_get_input environ (INPUT_SOURCE_LANGUAGE consts)) as [source|]; [| eauto].
    destruct (existsb (String.eqb source) (ALL_LANGUAGES consts)); [| eauto].
    destruct (_get_input environ (INPUT_TARGET_LANGUAGES consts)) as [targets|]; [| eauto].
    destruct (forallb _ _); [| eauto].
    destruct (_get_boolean_input environ (INPUT_INCLUDE_EMPTY_TRANSLATION consts))
      as [b1|e1] eqn:E1.
    2:{ unfold _get_boolean_input in E1. repeat case_match; inversion E1; eauto. }
    destruct (if negb (String.eqb source (FR_FR consts)) then Ok false
              else _get_boolean_input environ (INPUT_USE_CORE_TRANSLATIONS consts))
      as [b2|e2] eqn:E2.
    2:{ destruct (negb _); [discriminate |].
        unfold _get_boolean_input in E2. repeat case_match; inversion E2; eauto. }
    destruct (_get_boolean_input environ (INPUT_GENERATE_SOURCE_LANGUAGE_TRANSLATIONS consts))
      as [b3|e3] eqn:E3.
    2:{ unfold _get_boolean_input in E3. repeat case_match; inversion E3; eauto. }
    destruct (_get_boolean_input environ (INPUT_DEBUG consts)) as [b4|e4] eqn:E4.
    2:{ unfold _get_boolean_input in E4. repeat case_match; inversion E4; eauto. }
    exfalso.
    apply elem_of_app in Hin. destruct Hin as [Hin|Hin].
    - repeat (apply elem_of_cons in Hin; destruct Hin as [->|Hin]).
      + rewrite (_get_boolean_input_invalid _ _ Hbad) in E1. discriminate.
      + rewrite (_get_boolean_input_invalid _ _ Hbad) in E3. discriminate.
      + rewrite (_get_boolean_input_invalid _ _ Hbad) in E4. discriminate.
      + apply elem_of_nil in Hin. contradiction.
    - destruct (String.eqb source (FR_FR consts)) eqn:Hfr.
      + apply list_elem_of_singleton in Hin. subst name. simpl in E2.
        rewrite (_get_boolean_input_invalid _ _ Hbad) in E2. discriminate.
      + apply elem_of_nil in Hin. contradiction. }
  split; [exact H |].
  destruct H as [msg H]. exists msg. unfold __init__, bind. rewrite H. reflexivity.
Qed.

(** The coordinator as its construction leaves it: no provider handle yet,
    no call counted, the API key as supplied, the world untouched. *)
Lemma init_state environ w s :
  __init__ consts environ w = Ok s ->
  deepl_translator_attr s = None /\ api_call_counter s = 0 /\
  deepl_api_key (config s) = _get_input environ (INPUT_DEEPL_API_KEY consts) /\
  files s = [] /\ world s = w.
Proof.
  unfold __init__, bind. intros H.
  destruct (__get_inputs consts environ) as [cfg|e] eqn:Hcfg; [| discriminate].
  destruct (__read_info_json w) as [content|e]; [| discriminate].
  inversion H; subst; clear H. simpl. repeat split.
  unfold __get_inputs, bind in Hcfg.
  repeat match type of Hcfg with
         | match ?x with _ => _ end = _ => destruct x; try discriminate
         end.
  inversion Hcfg; subst. reflexivity.
Qed.

End Configuration.

(** ** The rate limiter *)

Lemma wrapper_period o th clock :
  Throttle.throttle_period (fst (Throttle.wrapper o th clock)) = Throttle.throttle_period th.
Proof. unfold Throttle.wrapper. destruct (_ <? _)%Z; reflexivity. Qed.

(** The wrapped function starts at the time the wrapper records, a period or
    more after the time recorded before. *)
Lemma wrapper_waits o th clock :
  (0 <= o)%Z ->
  Throttle.time_of_last_call (fst (Throttle.wrapper o th clock))
    = snd (Throttle.wrapper o th clock) /\
  (Throttle.time_of_last_call th + Throttle.throttle_period th
     <= snd (Throttle.wrapper o th clock))%Z.
Proof.
  intros Ho. unfold Throttle.wrapper.
  destruct (Throttle.throttle_period th <? clock - Throttle.time_of_last_call th)%Z eqn:E;
    simpl; split; try reflexivity.
  - apply Z.ltb_lt in E. lia.
  - lia.
Qed.

Lemma run_paced cs : forall th clock,
  Forall Throttle.sleeps_enough cs ->
  match Throttle.run cs th clock with
  | [] => True
  | t1 :: _ => (Throttle.time_of_last_call th + Throttle.throttle_period th <= t1)%Z
  end /\
  paced (Throttle.throttle_period th) (Throttle.run cs th clock).
Proof.
  induction cs as [|c cs IH]; intros th clock Hcs; simpl; [auto |].
  apply Forall_cons in Hcs. destruct Hcs as [Hc Hcs].
  destruct (Throttle.wrapper (Throttle.overshoot c) th (clock + Throttle.idle c))
    as [th' start] eqn:Hw.
  pose proof (wrapper_waits (Throttle.overshoot c) th (clock + Throttle.idle c) Hc) as [H1 H2].
  pose proof (wrapper_period (Throttle.overshoot c) th (clock + Throttle.idle c)) as Hp.
  rewrite Hw in H1, H2, Hp. simpl in H1, H2, Hp.
  split; [exact H2 |].
  destruct (IH th' (start + Throttle.duration c)%Z Hcs) as [Hfirst Hrest].
  rewrite Hp in Hfirst, Hrest.
  destruct (Throttle.run cs th' (start + Throttle.duration c)) as [|t2 rest]; [exact I |].
  split; [rewrite <- H1; exact Hfirst | exact Hrest].
Qed.

(** C2 (as amended). The rate limiter paces the function it wraps: in a
    sequence of calls through one [Throttle], between the starts of two
    consecutive calls of the wrapped function the period of the throttle
    elapses at least (the wrapper sleeps for the remainder when less has
    passed). *)
Theorem throttle_paces_wrapped_calls cs th clock :
  Forall Throttle.sleeps_enough cs ->
  paced (Throttle.throttle_period th) (Throttle.run cs th clock).
Proof. intros Hcs. exact (proj2 (run_paced cs th clock Hcs)). Qed.


(** ** The properties at work on the sample plugin *)

Section Samples.
Import Sample.

Lemma do_translate_one_call_per_pair_sample :
  map call_key (new_calls (sample (Some "key"))
                  (fst (do_translate sample_consts bad_env (sample (Some "key")))))
  = [(JStr "Bonjour", "es-ES"); (JStr "Au revoir", "en-US"); (JStr "Au revoir", "es-ES")].
Proof. vm_compute. reflexivity. Qed.

Lemma source_entry_is_original_text_witness :
  Forall2
    (fun f0 f =>
       fst f = fst f0 /\
       Forall2
         (fun p0 p =>
            text p = text p0 /\
            translations p !! source_language (config (sample (Some "key"))) = Some (text p0))
         (prompts (snd f0)) (prompts (snd f)))
    (files (sample (Some "key")))
    (files (fst (do_translate sample_consts good_env (sample (Some "key"))))).
Proof.
  apply (source_entry_is_original_text sample_consts good_env (sample (Some "key"))
           (fst (do_translate sample_consts good_env (sample (Some "key"))))).
  vm_compute. reflexivity.
Defined.

Lemma cached_translation_no_remote_call_witness :
  let r := do_translate_prompt sample_consts good_env (new_prompt "Bonjour") sample_ready in
  cell (existing_translations sample_ready) "Bonjour" "en-US" = Some "Hello" /\
  ((JStr "Bonjour", "en-US") ∉ map call_key (new_calls sample_ready (snd (fst r)))) /\
  (snd r = None -> "en-US" <> source_language (config sample_ready) ->
   translations (fst (fst r)) !! "en-US" = Some "Hello").
Proof.
  intros r. split; [vm_compute; reflexivity |].
  apply (cached_translation_no_remote_call sample_consts good_env
           (new_prompt "Bonjour") "en-US" "Hello" sample_ready
           (fst (fst r)) (snd (fst r)) (snd r)).
  - vm_compute. reflexivity.
  - vm_compute. reflexivity.
Defined.

Lemma no_credential_no_remote_call_witness :
  new_calls (sample None)
    (fst (start_from_do_translate sample_consts good_env (sample None))) = [] /\
  api_call_counter (fst (start_from_do_translate sample_consts good_env (sample None))) = 0 /\
  snd (start_from_do_translate sample_consts good_env (sample None)) = None.
Proof.
  destruct (no_credential_no_remote_call sample_consts good_env (sample None)
              eq_refl eq_refl) as (_ & _ & _ & H4 & H5 & _ & H7).
  split; [exact H4 |]. split; [exact H5 |]. apply H7. right. eexists. reflexivity.
Defined.

Lemma run_writes_sorted_languages_witness :
  exists ob',
    info_json_file
      (world (fst (start_from_do_translate sample_consts good_env (sample (Some "key")))))
      = JsonFile (JObj ob') /\
    dict_get "language" ob' = Some (JList [JStr "en-US"; JStr "es-ES"; JStr "fr-FR"]).
Proof.
  destruct (run_writes_sorted_languages sample_consts good_env (sample (Some "key"))
              [("id", JStr "x"); ("language", JList [JStr "fr-FR"])]
              (fst (start_from_do_translate sample_consts good_env (sample (Some "key")))))
    as ((ob' & _ & Hfile & Hlang) & _).
  - reflexivity.
  - vm_compute. reflexivity.
  - exists ob'. split; [exact Hfile |]. rewrite Hlang. vm_compute. reflexivity.
Defined.

Lemma transalte_with_deepl_counter_and_shape_witness :
  let r := transalte_with_deepl sample_consts bad_env (JStr "Bonjour") "es-ES" sample_ready in
  api_call_counter (snd r) = 1 /\ fst r = Ok "".
Proof.
  intros r.
  destruct (transalte_with_deepl_counter_and_shape sample_consts bad_env
              (JStr "Bonjour") "es-ES" sample_ready (fst r) (snd r))
    as (Hcall & Hcount & _).
  - apply surjective_pairing.
  - split.
    + apply Hcount. eexists. reflexivity.
    + destruct Hcall as [Hnone | (c & Hc & _ & _ & _ & Hshape)].
      * vm_compute in Hnone. discriminate.
      * apply Hshape. reflexivity.
Defined.

Lemma remote_result_recorded_witness :
  let s' := fst (do_translate sample_consts bad_env (sample (Some "key"))) in
  cell (existing_translations s') "Bonjour" "es-ES" = Some "" /\
  forall f p, f ∈ files s' -> p ∈ prompts (snd f) -> text p = "Bonjour" ->
    translations p !! "es-ES" = Some "".
Proof.
  intros s'.
  destruct (remote_result_recorded sample_consts bad_env (sample (Some "key")) s' 0 first_call)
    as (t & Ht & Hcell & Hprompts).
  - vm_compute. reflexivity.
  - vm_compute. reflexivity.
  - injection Ht as <-. split; [exact Hcell |]. apply Hprompts. repeat constructor.
Defined.

Lemma invalid_boolean_input_is_fatal_witness :
  exists msg, __init__ sample_consts strict_environ sample_world = Raise (ValueError msg).
Proof.
  refine (proj2 (invalid_boolean_input_is_fatal sample_consts strict_environ sample_world
                   "INPUT_USE_CORE_TRANSLATIONS" _ _)).
  - vm_compute. repeat constructor.
  - vm_compute. reflexivity.
Defined.

(** C9, as the specification states it, fails: with a source language other
    than [FR_FR] the input for the core translations is not read, so its
    value "maybe" is accepted; and white space around a value is stripped
    before the value is looked at, so " TRUE " is accepted too. *)
Lemma invalid_boolean_input_accepted :
  lenient_environ !! "INPUT_USE_CORE_TRANSLATIONS" = Some "maybe" /\
  lenient_environ !! "INPUT_DEBUG" = Some " TRUE " /\
  ("maybe" ∉ trueValue ++ falseValue) /\
  (" TRUE " ∉ trueValue ++ falseValue) /\
  __get_inputs sample_consts lenient_environ =
    Ok {| source_language := "en-US"; target_languages := ["fr-FR"; "es-ES"];
          include_empty_translation := false; use_core_translations := false;
          generate_source_language_translations := false; deepl_api_key := None |}.
Proof.
  split; [vm_compute; reflexivity |]. split; [vm_compute; reflexivity |].
  split; [| split].
  - intros H. repeat (apply elem_of_cons in H; destruct H as [H|H]; [discriminate |]).
    apply elem_of_nil in H. contradiction.
  - intros H. repeat (apply elem_of_cons in H; destruct H as [H|H]; [discriminate |]).
    apply elem_of_nil in H. contradiction.
  - vm_compute. reflexivity.
Qed.

Lemma throttle_paces_wrapped_calls_witness :
  Throttle.run burst (Throttle.__init__ 100) 1000 = [1000; 1101; 1306]%Z /\
  paced 100 (Throttle.run burst (Throttle.__init__ 100) 1000).
Proof.
  split; [vm_compute; reflexivity |].
  apply (throttle_paces_wrapped_calls burst (Throttle.__init__ 100) 1000).
  repeat constructor; unfold Throttle.sleeps_enough; simpl; lia.
Defined.

(** C2, as the specification states it, fails: [transalte_with_deepl] is not
    wrapped in a [Throttle], and nothing else waits between two remote
    calls.  With a provider that answers in 40 ticks the three calls of the
    run of the sample start 40 ticks apart, less than a period of 100. *)
Lemma remote_calls_not_paced :
  map call_time
    (new_calls (sample (Some "key"))
       (fst (do_translate sample_consts good_env (sample (Some "key")))))
  = [1000; 1040; 1080]%Z /\
  ~ paced 100
      (map call_time
         (new_calls (sample (Some "key"))
            (fst (do_translate sample_consts good_env (sample (Some "key")))))).
Proof.
  assert (H : map call_time
    (new_calls (sample (Some "key"))
       (fst (do_translate sample_consts good_env (sample (Some "key")))))
    = [1000; 1040; 1080]%Z) by (vm_compute; reflexivity).
  split; [exact H |]. rewrite H. simpl. lia.
Qed.

End Samples.

(** * Further properties of the code *)

(** ** The rate limiter *)

Lemma run_length cs : forall th clock, length (Throttle.run cs th clock) = length cs.
Proof.
  induction cs as [|c cs IH]; intros th clock; simpl; [reflexivity |].
  destruct (Throttle.wrapper _ _ _) as [th' start]. simpl. rewrite IH. reflexivity.
Qed.

Lemma paced_span period ts : forall t1 tn,
  paced period ts -> head ts = Some t1 -> last ts = Some tn ->
  (t1 + period * Z.of_nat (length ts - 1) <= tn)%Z.
Proof.
  induction ts as [|t ts IH]; intros t1 tn Hp Hh Hl; [discriminate |].
  simpl in Hh. injection Hh as ->.
  destruct ts as [|t2 ts].
  - simpl in Hl. injection Hl as ->. simpl. lia.
  - destruct Hp as [H12 Hp].
    specialize (IH t2 tn Hp eq_refl Hl).
    replace (length (t1 :: t2 :: ts) - 1) with (S (length (t2 :: ts) - 1)) by (simpl; lia).
    rewrite Nat2Z.inj_succ, Z.mul_succ_r. lia.
Qed.

(** X1. Calls made in a row through one throttle take their time: the last
    of [n] calls starts [n - 1] periods after the first at the earliest.
    (This is what the test of the throttle measures.) *)
Theorem throttle_span cs th clock first final :
  Forall Throttle.sleeps_enough cs ->
  head (Throttle.run cs th clock) = Some first ->
  last (Throttle.run cs th clock) = Some final ->
  (first + Throttle.throttle_period th * Z.of_nat (length cs - 1) <= final)%Z.
Proof.
  intros Hcs Hh Hl. rewrite <- (run_length cs th clock).
  apply paced_span; [| assumption | assumption].
  exact (proj2 (run_paced cs th clock Hcs)).
Qed.

Lemma throttle_span_witness :
  (1000 + 100 * Z.of_nat (length Sample.burst - 1) <= 1306)%Z.
Proof.
  apply (throttle_span Sample.burst (Throttle.__init__ 100) 1000 1000 1306).
  - repeat constructor; unfold Throttle.sleeps_enough; simpl; lia.
  - reflexivity.
  - reflexivity.
Defined.

(** X2. The throttle does not hold up a caller that is slow by itself: when
    every call comes later than a period after the start of the one before,
    the wrapper never sleeps and the calls start when they would without
    it. *)
Theorem throttle_lets_slow_caller_through cs : forall th clock,
  slow_caller (Throttle.throttle_period th) (Throttle.time_of_last_call th) clock cs ->
  Throttle.run cs th clock = unthrottled cs clock.
Proof.
  induction cs as [|c cs IH]; intros th clock Hslow; simpl; [reflexivity |].
  destruct Hslow as [Hc Hrest].
  unfold Throttle.wrapper.
  assert (E : (Throttle.throttle_period th
               <? clock + Throttle.idle c - Throttle.time_of_last_call th)%Z = true)
    by (apply Z.ltb_lt; lia).
  rewrite E. f_equal. apply IH. simpl. exact Hrest.
Qed.

Lemma throttle_lets_slow_caller_through_witness :
  Throttle.run
    [ {| Throttle.idle := 0; Throttle.overshoot := 7; Throttle.duration := 5 |};
      {| Throttle.idle := 101; Throttle.overshoot := 7; Throttle.duration := 200 |};
      {| Throttle.idle := 0; Throttle.overshoot := 7; Throttle.duration := 1 |} ]%Z
    (Throttle.__init__ 100) 1000
  = [1000; 1106; 1306]%Z.
Proof.
  rewrite throttle_lets_slow_caller_through; [reflexivity |].
  simpl. lia.
Defined.

(** ** Configuration loading *)

Section ConfigurationMore.
Variable consts : Consts.

Lemma existsb_eqb_elem (x : string) (l : list string) :
  existsb (String.eqb x) l = true <-> x ∈ l.
Proof.
  rewrite existsb_exists. split.
  - intros (y & Hy & E). apply String.eqb_eq in E. subst y. apply list_elem_of_In. exact Hy.
  - intros H. exists x. split; [apply list_elem_of_In; exact H | apply String.eqb_refl].
Qed.

Lemma split_comma_aux_nonempty l : forall cur, split_comma_aux cur l <> [].
Proof.
  induction l as [|a l IH]; intros cur; simpl; [discriminate |].
  destruct (Ascii.eqb a ","%char); [discriminate | apply IH].
Qed.

(** X3. A configuration that [__get_inputs] returns is a checked one: the
    source language and every target language are supported languages, there
    is a target language at least, the core translations are used only with
    the source language [FR_FR], and the API key, if there is one, is not
    blank. *)
Theorem get_inputs_checked environ cfg :
  __get_inputs consts environ = Ok cfg ->
  source_language cfg ∈ ALL_LANGUAGES consts /\
  target_languages cfg <> [] /\
  Forall (fun l => l ∈ ALL_LANGUAGES consts) (target_languages cfg) /\
  (use_core_translations cfg = true -> source_language cfg = FR_FR consts) /\
  deepl_api_key cfg <> Some "".
Proof.
  unfold __get_inputs, bind, _get_input_in_list, _get_list_input. intros H.
  destruct (_get_input environ (INPUT_SOURCE_LANGUAGE consts)) as [source|]; [| discriminate].
  destruct (existsb (String.eqb source) (ALL_LANGUAGES consts)) eqn:Hsrc; [| discriminate].
  destruct (_get_input environ (INPUT_TARGET_LANGUAGES consts)) as [targets|]; [| discriminate].
  destruct (forallb _ _) eqn:Htg; [| discriminate].
  destruct (_get_boolean_input environ (INPUT_INCLUDE_EMPTY_TRANSLATION consts));
    [| discriminate].
  destruct (String.eqb_spec source (FR_FR consts)) as [Hfr|Hfr]; simpl in H.
  - destruct (_get_boolean_input environ (INPUT_USE_CORE_TRANSLATIONS consts));
      [| discriminate].
    destruct (_get_boolean_input environ (INPUT_GENERATE_SOURCE_LANGUAGE_TRANSLATIONS consts));
      [| discriminate].
    destruct (_get_boolean_input environ (INPUT_DEBUG consts)); [| discriminate].
    inversion H; subst; clear H. simpl.
    split; [apply existsb_eqb_elem; assumption |].
    split; [intros E; apply map_eq_nil in E; revert E; apply split_comma_aux_nonempty |].
    split; [| split; [reflexivity |]].
    + apply Forall_forall. intros l Hl. apply existsb_eqb_elem.
      rewrite forallb_forall in Htg. apply Htg. apply list_elem_of_In. exact Hl.
    + unfold _get_input.
      match goal with |- (if String.eqb ?v "" then _ else _) <> _ =>
        destruct (String.eqb_spec v ""); [discriminate | congruence]
      end.
  - destruct (_get_boolean_input environ (INPUT_GENERATE_SOURCE_LANGUAGE_TRANSLATIONS consts));
      [| discriminate].
    destruct (_get_boolean_input environ (INPUT_DEBUG consts)); [| discriminate].
    inversion H; subst; clear H. simpl.
    split; [apply existsb_eqb_elem; assumption |].
    split; [intros E; apply map_eq_nil in E; revert E; apply split_comma_aux_nonempty |].
    split; [| split; [discriminate |]].
    + apply Forall_forall. intros l Hl. apply existsb_eqb_elem.
      rewrite forallb_forall in Htg. apply Htg. apply list_elem_of_In. exact Hl.
    + unfold _get_input.
      match goal with |- (if String.eqb ?v "" then _ else _) <> _ =>
        destruct (String.eqb_spec v ""); [discriminate | congruence]
      end.
Qed.

End ConfigurationMore.

Section ConstructionMore.
Variable consts : Consts.

Lemma glossary_slots (targets : list string) language :
  (language ∈ targets ->
   (list_to_map (map (fun lang => (lang, @None GlossaryInfo)) targets)
      : gmap string (option GlossaryInfo)) !! language = Some None) /\
  (language ∉ targets ->
   (list_to_map (map (fun lang => (lang, @None GlossaryInfo)) targets)
      : gmap string (option GlossaryInfo)) !! language = None).
Proof.
  induction targets as [|l targets [IH1 IH2]].
  - split; [intros H; apply elem_of_nil in H; contradiction |].
    intros _. apply lookup_empty.
  - change (list_to_map (map (fun lang => (lang, @None GlossaryInfo)) (l :: targets))
              : gmap string (option GlossaryInfo))
      with (<[l := None]>
              (list_to_map (map (fun lang => (lang, @None GlossaryInfo)) targets)
                 : gmap string (option GlossaryInfo))).
    destruct (decide (l = language)) as [->|Hne].
    + rewrite lookup_insert_eq. split; [reflexivity |].
      intros H. exfalso. apply H. apply elem_of_cons. left. reflexivity.
    + rewrite lookup_insert_ne by assumption. split.
      * intros H. apply elem_of_cons in H. destruct H as [->|H]; [contradiction | auto].
      * intros H. apply IH2. intros H'. apply H. apply elem_of_cons. right. assumption.
Qed.

(** X4. With inputs that pass, the construction of the coordinator depends on
    the metadata descriptor file alone: a missing file is a [RuntimeError],
    a file that is not JSON a decoding error, and otherwise the coordinator
    starts with the checked configuration, the parsed descriptor, no file,
    no translation, no provider handle, no call counted, and a glossary
    table with an empty slot for each target language and for nothing
    else. *)
Theorem init_outcome environ w cfg :
  __get_inputs consts environ = Ok cfg ->
  match info_json_file w with
  | NoFile => __init__ consts environ w = Raise (RuntimeError "Missing info.json file")
  | BadJson => __init__ consts environ w = Raise JSONDecodeError
  | JsonFile content =>
      exists s, __init__ consts environ w = Ok s /\
        config s = cfg /\ files s = [] /\ existing_translations s = ∅ /\
        deepl_translator_attr s = None /\ api_call_counter s = 0 /\ world s = w /\
        info_json_content s = match content with JNull => None | _ => Some content end /\
        forall language,
          (language ∈ target_languages cfg -> glossary s !! language = Some None) /\
          (language ∉ target_languages cfg -> glossary s !! language = None)
  end.
Proof.
  intros Hcfg. unfold __init__, bind, __read_info_json. rewrite Hcfg.
  destruct (info_json_file w) as [| |content]; [reflexivity | reflexivity |].
  destruct content; eexists; (split; [reflexivity |]); simpl;
    repeat (split; [reflexivity |]); intros language; apply glossary_slots.
Qed.

End ConstructionMore.

Lemma get_inputs_checked_witness :
  source_language
    {| source_language := "en-US"; target_languages := ["fr-FR"; "es-ES"];
       include_empty_translation := false; use_core_translations := false;
       generate_source_language_translations := false; deepl_api_key := None |}
  ∈ ALL_LANGUAGES Sample.sample_consts.
Proof.
  refine (proj1 (get_inputs_checked Sample.sample_consts Sample.lenient_environ _ _)).
  vm_compute. reflexivity.
Defined.

Lemma init_outcome_witness :
  exists s, __init__ Sample.sample_consts Sample.lenient_environ Sample.sample_world = Ok s /\
    glossary s !! "es-ES" = Some None /\ glossary s !! "en-US" = None.
Proof.
  pose proof (init_outcome Sample.sample_consts Sample.lenient_environ Sample.sample_world
                _ ltac:(vm_compute; reflexivity)) as H.
  simpl in H. destruct H as (s & Hs & _ & _ & _ & _ & _ & _ & _ & Hg).
  exists s. split; [exact Hs |].
  assert (Hcfg : target_languages
                   {| source_language := "en-US"; target_languages := ["fr-FR"; "es-ES"];
                      include_empty_translation := false; use_core_translations := false;
                      generate_source_language_translations := false;
                      deepl_api_key := None |} = ["fr-FR"; "es-ES"]) by reflexivity.
  split.
  - apply (Hg "es-ES"). apply elem_of_cons. right. apply elem_of_cons. left. reflexivity.
  - apply (Hg "en-US"). intros H.
    repeat (apply elem_of_cons in H; destruct H as [H|H]; [discriminate |]).
    apply elem_of_nil in H. contradiction.
Defined.

(** ** The provider handle and translation resolution *)

Section ResolutionMore.
Variable consts : Consts.
Variable env : Env.

(** X5. The provider handle is created once: after the property
    [deepl_translator] was read in a state with an API key (or a handle),
    the handle exists, even if the synchronisation of the glossaries raised,
    and reading the property again returns the handle and changes nothing:
    the glossaries are not synchronised a second time. *)
Theorem deepl_translator_created_once s r s1 :
  configured s ->
  deepl_translator env s = (r, s1) ->
  exists t, deepl_translator_attr s1 = Some t /\
    match r with Ok h => h = Some t | Raise _ => deepl_translator_attr s = None end /\
    deepl_translator env s1 = (Ok (Some t), s1).
Proof.
  unfold deepl_translator, configured. intros Hconf H.
  destruct (deepl_translator_attr s) as [t|] eqn:Ha.
  - inversion H; subst. exists t. rewrite Ha. auto.
  - destruct (deepl_api_key (config s)) as [key|] eqn:Hk.
    + simpl in H.
      destruct (sync_glossaries env _ _ _) as [g [e|]]; inversion H; subst; simpl;
        eexists; split; reflexivity || (split; reflexivity).
    + destruct Hconf as [[x Hx]|[x Hx]]; discriminate.
Qed.

(** The loop over the target languages does nothing for a prompt that has a
    translation for each of them. *)
Lemma for_in_languages_skip xs p s :
  (forall x, x ∈ xs ->
     x = source_language (config s) \/ is_Some (translations p !! x)) ->
  for_in xs (do_translate_language consts env) p s = (p, s, None).
Proof.
  induction xs as [|x xs IH]; intros H; simpl; [reflexivity |].
  assert (Hx : x = source_language (config s) \/ is_Some (translations p !! x))
    by (apply H; apply elem_of_cons; left; reflexivity).
  assert (Hb : do_translate_language consts env x p s = (p, s, None)).
  { unfold do_translate_language.
    destruct (String.eqb_spec x (source_language (config s))); [reflexivity |].
    destruct Hx as [Hx|Hx]; [contradiction |].
    apply has_translation_true in Hx. rewrite Hx. reflexivity. }
  rewrite Hb. apply IH. intros y Hy. apply H. apply elem_of_cons. right. assumption.
Qed.

Lemma for_each_inv_in {A} (body : Body A) (P : PluginTranslator -> Prop) xs :
  (forall a s a' s' o, a ∈ xs -> P s -> body a s = (a', s', o) -> P s') ->
  forall s xs' s' o, P s -> for_each body xs s = (xs', s', o) -> P s'.
Proof.
  induction xs as [|x xs IH]; intros Hbody s xs' s' o HP Hrun; simpl in Hrun.
  - inversion Hrun; subst. assumption.
  - assert (Hx : x ∈ x :: xs) by (apply elem_of_cons; left; reflexivity).
    destruct (body x s) as [[a1 s1] [e|]] eqn:Hb.
    + inversion Hrun; subst. eapply Hbody; eauto.
    + destruct (for_each body xs s1) as [[rest s2] o2] eqn:Hrest.
      inversion Hrun; subst.
      eapply IH; [| | exact Hrest].
      * intros a s9 a' s3 o3 Ha. apply Hbody. apply elem_of_cons. right. assumption.
      * eapply Hbody; eauto.
Qed.

(** X6. When the cache has a translation of every prompt for every target
    language, as after a run that wrote them, [do_translate] makes no remote
    call, with or without a provider: the log of calls, the API call
    counter and the cache are what they were. *)
Theorem do_translate_covered_no_call s s' o :
  cache_covers s ->
  do_translate consts env s = (s', o) ->
  new_calls s s' = [] /\
  api_call_counter s' = api_call_counter s /\
  existing_translations s' = existing_translations s.
Proof.
  intros Hcov Hrun. unfold do_translate in Hrun.
  destruct (for_each (do_translate_file consts env) (files s) s) as [[fs s1] o1] eqn:Hloop.
  inversion Hrun; subst; clear Hrun. simpl.
  set (P := fun s1 : PluginTranslator =>
              config s1 = config s /\ world s1 = world s /\
              api_call_counter s1 = api_call_counter s /\
              existing_translations s1 = existing_translations s).
  assert (HP : P s1).
  { refine (for_each_inv_in (do_translate_file consts env) P (files s) _ s fs s1 o
              _ Hloop); [| repeat split].
    intros f s2 f' s3 o3 Hf HP2 Hb. unfold do_translate_file in Hb.
    destruct (for_each (do_translate_prompt consts env) (get_prompts (snd f)) s2)
      as [[ps s4] o4] eqn:Hps.
    inversion Hb; subst; clear Hb.
    refine (for_each_inv_in (do_translate_prompt consts env) P (get_prompts (snd f)) _
              s2 ps s3 o3 HP2 Hps).
    intros p s5 p' s6 o6 Hp (Hc5 & Hw5 & Hn5 & He5) Hb.
    unfold do_translate_prompt in Hb.
    destruct (deepl_translator env s5) as [r s7] eqn:Hprop.
    apply deepl_translator_cases in Hprop.
    destruct Hprop as (Hc7 & _ & He7 & Hn7 & _ & Hw7 & _).
    assert (HP7 : P s7) by (unfold P; repeat split; congruence).
    destruct r as [[t|]|e]; [| inversion Hb; subst; exact HP7 ..].
    rewrite for_in_languages_skip in Hb; [inversion Hb; subst; exact HP7 |].
    intros x Hx. rewrite Hc7, Hc5 in *.
    destruct (decide (x = source_language (config s))) as [->|Hne]; [left; reflexivity |].
    right. destruct (Hcov f p x Hf Hp Hx Hne) as [v Hv].
    exists v. rewrite set_translation_lookup_ne by congruence.
    apply copy_from_cache. rewrite He5. exact Hv. }
  destruct HP as (_ & Hw & Hn & He).
  split; [apply new_calls_same; simpl; rewrite Hw; reflexivity |]. simpl. auto.
Qed.

(** X7. [do_translate] adds to the cache and never takes from it: a cell of
    the cache keeps its value, whether the phase returns or raises. *)
Theorem do_translate_keeps_cache s s' o t language v :
  do_translate consts env s = (s', o) ->
  cell (existing_translations s) t language = Some v ->
  cell (existing_translations s') t language = Some v.
Proof.
  intros Hrun Hcell.
  destruct (do_translate_rule _ _ _ _ _ _ (deduped_recorded_start env s) Hrun)
    as [(_ & Hmono & _) _].
  apply Hmono. exact Hcell.
Qed.

(** X8. With a provider, when [do_translate] returns every prompt has a
    translation (possibly the empty string) for every target language, so
    that nothing is left to ask the provider for. *)
Theorem do_translate_completes_prompts s s' f p language :
  configured s ->
  do_translate consts env s = (s', None) ->
  f ∈ files s' -> p ∈ prompts (snd f) ->
  language ∈ target_languages (config s) ->
  has_translation language p = true.
Proof.
  intros Hconf Hrun Hf Hp Hl.
  destruct (do_translate_rule _ _ _ _ _ _ (deduped_recorded_start env s) Hrun)
    as [(Hcfg & _ & Hiff) (_ & HF)].
  apply list_elem_of_lookup in Hf. destruct Hf as [j Hj].
  destruct (Forall2_lookup_r _ _ _ _ _ HF Hj) as (f0 & _ & _ & Hps).
  apply list_elem_of_lookup in Hp. destruct Hp as [k Hk].
  destruct (Forall2_lookup_r _ _ _ _ _ Hps Hk) as (p0 & _ & _ & _ & _ & Hcomp).
  apply has_translation_true. apply Hcomp; [tauto |]. rewrite Hcfg. exact Hl.
Qed.

(** One remote translation call: the counter against the log. *)
Lemma transalte_with_deepl_count t language s r s' :
  transalte_with_deepl consts env t language s = (r, s') ->
  exists new, calls (world s') = calls (world s) ++ new /\
    match r with
    | Ok _ => api_call_counter s' = api_call_counter s + length new
    | Raise _ =>
        api_call_counter s + length new <= api_call_counter s' <=
        api_call_counter s + length new + 1
    end.
Proof.
  intros H. apply transalte_with_deepl_cases in H.
  destruct H as [(_ & -> & ->) | [(_ & -> & k & ->) | (_ & req & -> & ->)]].
  - exists []. rewrite app_nil_r. simpl. split; [reflexivity | lia].
  - exists []. rewrite app_nil_r. simpl. split; [reflexivity | lia].
  - eexists [_]. simpl. split; [reflexivity |].
    destruct (translate_text env _ _); simpl; lia.
Qed.

(** X9. The API call counter counts the requests sent: when [do_translate]
    returns, the counter has grown by the number of calls it added to the
    log; when it raises, by that number or one more (the counter is
    incremented before the tables are read, and a failed lookup raises
    before a request is sent). *)
Theorem do_translate_counter s s' o :
  do_translate consts env s = (s', o) ->
  match o with
  | None => api_call_counter s' = api_call_counter s + length (new_calls s s')
  | Some _ =>
      api_call_counter s + length (new_calls s s') <= api_call_counter s' <=
      api_call_counter s + length (new_calls s s') + 1
  end.
Proof.
  intros Hrun. unfold do_translate in Hrun.
  destruct (for_each (do_translate_file consts env) (files s) s) as [[fs s1] o1] eqn:Hloop.
  inversion Hrun; subst; clear Hrun.
  set (P := fun s1 : PluginTranslator =>
         exists new, calls (world s1) = calls (world s) ++ new /\
           api_call_counter s1 = api_call_counter s + length new).
  set (Q := fun s1 : PluginTranslator =>
         exists new, calls (world s1) = calls (world s) ++ new /\
           api_call_counter s + length new <= api_call_counter s1 <=
           api_call_counter s + length new + 1).
  set (top := fun _ _ : PluginTranslator => True).
  assert (Hlang : forall x (a : Prompt) s2 a' s3 o3,
    P s2 -> do_translate_language consts env x a s2 = (a', s3, o3) ->
    match o3 with None => P s3 | Some _ => Q s3 end).
  { intros x a s2 a' s3 o3 (new & Hc & Hn) Hb. unfold do_translate_language in Hb.
    destruct (String.eqb _ _); [inversion Hb; subst; exists new; auto |].
    destruct (has_translation _ _); [inversion Hb; subst; exists new; auto |].
    destruct (transalte_with_deepl _ _ _ _ _) as [[tr|e] s4] eqn:Hcall;
      apply transalte_with_deepl_count in Hcall; destruct Hcall as (new' & Hc' & Hn');
      inversion Hb; subst; exists (new ++ new'); simpl;
      rewrite Hc', Hc, length_app, <- app_assoc; (split; [reflexivity | lia]). }
  assert (Hprompt : forall (a : Prompt) s2 a' s3 o3,
    P s2 -> do_translate_prompt consts env a s2 = (a', s3, o3) ->
    top s2 s3 /\ match o3 with None => P s3 /\ True | Some _ => Q s3 end).
  { intros a s2 a' s3 o3 (new & Hc & Hn) Hb. split; [exact I |].
    unfold do_translate_prompt in Hb.
    destruct (deepl_translator env s2) as [r s4] eqn:Hprop.
    apply deepl_translator_cases in Hprop.
    destruct Hprop as (_ & _ & _ & Hn4 & _ & Hw4 & _).
    assert (HP4 : P s4) by (exists new; rewrite Hw4, Hn4; auto).
    destruct r as [[t|]|e].
    2:{ inversion Hb; subst. auto. }
    2:{ inversion Hb; subst. exists new. rewrite Hw4, Hn4. split; [assumption | lia]. }
    assert (Hbody : forall x (b : Prompt) s5 b' s6 o6,
      x ∈ target_languages (config s4) -> P s5 ->
      do_translate_language consts env x b s5 = (b', s6, o6) ->
      top s5 s6 /\
      match o6 with
      | None => P s6 /\ True /\ (forall y : string, True -> True)
      | Some _ => Q s6
      end).
    { intros x b s5 b' s6 o6 _ HP5 Hb'. split; [exact I |].
      pose proof (Hlang _ _ _ _ _ _ HP5 Hb') as H. destruct o6; auto. }
    destruct (for_in_rule top (fun _ => I) (fun _ _ _ _ _ => I)
                (do_translate_language consts env)
                (fun _ s => P s) Q (fun _ _ => True)
                (target_languages (config s4)) Hbody _ _ _ _ _ HP4 Hb) as [_ Hpost].
    destruct o3; [exact Hpost | tauto]. }
  assert (Hfile : forall (a : string * SourceFile) s2 a' s3 o3,
    P s2 -> do_translate_file consts env a s2 = (a', s3, o3) ->
    top s2 s3 /\ match o3 with None => P s3 /\ True | Some _ => Q s3 end).
  { intros a s2 a' s3 o3 HP2 Hb. split; [exact I |]. unfold do_translate_file in Hb.
    destruct (for_each (do_translate_prompt consts env) (get_prompts (snd a)) s2)
      as [[ps s4] o4] eqn:Hps.
    inversion Hb; subst; clear Hb.
    destruct (for_each_rule top (fun _ => I) (fun _ _ _ _ _ => I)
                (do_translate_prompt consts env) P Q (fun _ _ _ => True)
                Hprompt (fun _ _ _ _ _ _ => I) _ _ _ _ _ HP2 Hps) as [_ Hpost].
    destruct o3; [exact Hpost | tauto]. }
  assert (HP0 : P s) by (exists []; rewrite app_nil_r; simpl; auto).
  destruct (for_each_rule top (fun _ => I) (fun _ _ _ _ _ => I)
              (do_translate_file consts env) P Q (fun _ _ _ => True)
              Hfile (fun _ _ _ _ _ _ => I) _ _ _ _ _ HP0 Hloop) as [_ Hpost].
  destruct o as [e|].
  - destruct Hpost as (new & Hc & Hn).
    rewrite (new_calls_app s (set_files fs s1) new Hc). exact Hn.
  - destruct Hpost as ((new & Hc & Hn) & _).
    rewrite (new_calls_app s (set_files fs s1) new Hc). exact Hn.
Qed.

(** X10. A result of unexpected shape does not abort translation
    resolution: once the provider handle exists, with tables that have the
    languages of the run and a provider that answers every request (with a
    result of whatever shape), [do_translate] does not raise. *)
Theorem do_translate_does_not_raise s :
  is_Some (deepl_translator_attr s) ->
  tables_cover consts s ->
  provider_answers env ->
  snd (do_translate consts env s) = None.
Proof.
  intros Hattr [Hsrc Htab] Hprov. unfold do_translate.
  destruct (for_each (do_translate_file consts env) (files s) s) as [[fs s1] o1] eqn:Hloop.
  simpl.
  set (P := fun s1 : PluginTranslator =>
         is_Some (deepl_translator_attr s1) /\ config s1 = config s /\
         glossary s1 = glossary s).
  set (top := fun _ _ : PluginTranslator => True).
  assert (Hlang : forall x (a : Prompt) s2 a' s3 o3,
    x ∈ target_languages (config s) ->
    P s2 -> do_translate_language consts env x a s2 = (a', s3, o3) ->
    o3 = None /\ P s3).
  { intros x a s2 a' s3 o3 Hx (Ha2 & Hc2 & Hg2) Hb. unfold do_translate_language in Hb.
    destruct (String.eqb _ _); [inversion Hb; subst; repeat split; assumption |].
    destruct (has_translation _ _); [inversion Hb; subst; repeat split; assumption |].
    destruct (Htab x Hx) as [[tgt Htgt] [g Hg]]. destruct Hsrc as [src Hsrc].
    destruct Ha2 as [t Ha2].
    unfold transalte_with_deepl in Hb. rewrite Ha2 in Hb. simpl in Hb.
    rewrite Hc2, Hsrc, Htgt, Hg2, Hg in Hb.
    match type of Hb with context [translate_text env ?n ?req] =>
      pose proof (Hprov n req) as Hr; destruct (translate_text env n req) end;
      [| | contradiction].
    all: inversion Hb; subst; simpl; repeat split; eauto. }
  assert (Hprompt : forall (a : Prompt) s2 a' s3 o3,
    P s2 -> do_translate_prompt consts env a s2 = (a', s3, o3) ->
    top s2 s3 /\ match o3 with None => P s3 /\ True | Some _ => False end).
  { intros a s2 a' s3 o3 HP2 Hb. split; [exact I |].
    unfold do_translate_prompt in Hb. unfold deepl_translator in Hb.
    destruct HP2 as ([t Ha2] & Hc2 & Hg2). rewrite Ha2 in Hb.
    assert (HP2 : P s2) by (unfold P; eauto).
    assert (Hbody : forall x (b : Prompt) s5 b' s6 o6,
      x ∈ target_languages (config s2) -> P s5 ->
      do_translate_language consts env x b s5 = (b', s6, o6) ->
      top s5 s6 /\
      match o6 with
      | None => P s6 /\ True /\ (forall y : string, True -> True)
      | Some _ => False
      end).
    { intros x b s5 b' s6 o6 Hx HP5 Hb'. split; [exact I |].
      rewrite Hc2 in Hx. destruct (Hlang _ _ _ _ _ _ Hx HP5 Hb') as [-> HP6]. auto. }
    destruct (for_in_rule top (fun _ => I) (fun _ _ _ _ _ => I)
                (do_translate_language consts env)
                (fun _ s => P s) (fun _ => False) (fun _ _ => True)
                (target_languages (config s2)) Hbody _ _ _ _ _ HP2 Hb) as [_ Hpost].
    destruct o3; [exact Hpost | tauto]. }
  assert (Hfile : forall (a : string * SourceFile) s2 a' s3 o3,
    P s2 -> do_translate_file consts env a s2 = (a', s3, o3) ->
    top s2 s3 /\ match o3 with None => P s3 /\ True | Some _ => False end).
  { intros a s2 a' s3 o3 HP2 Hb. split; [exact I |]. unfold do_translate_file in Hb.
    destruct (for_each (do_translate_prompt consts env) (get_prompts (snd a)) s2)
      as [[ps s4] o4] eqn:Hps.
    inversion Hb; subst; clear Hb.
    destruct (for_each_rule top (fun _ => I) (fun _ _ _ _ _ => I)
                (do_translate_prompt consts env) P (fun _ => False) (fun _ _ _ => True)
                Hprompt (fun _ _ _ _ _ _ => I) _ _ _ _ _ HP2 Hps) as [_ Hpost].
    destruct o3; [exact Hpost | tauto]. }
  assert (HP0 : P s) by (unfold P; auto).
  destruct (for_each_rule top (fun _ => I) (fun _ _ _ _ _ => I)
              (do_translate_file consts env) P (fun _ => False) (fun _ _ _ => True)
              Hfile (fun _ _ _ _ _ _ => I) _ _ _ _ _ HP0 Hloop) as [_ Hpost].
  destruct o1; [contradiction | reflexivity].
Qed.

End ResolutionMore.

(** ** The description of the metadata descriptor *)

Section DescriptionMore.
Variable consts : Consts.
Variable env : Env.

Lemma json_is_str_empty v : json_is_str "" v = true <-> v = JStr "".
Proof.
  destruct v; simpl; try (split; [discriminate | discriminate]).
  destruct s; simpl; split; try discriminate; try reflexivity.
Qed.

(** The loop of [translate_info_json], from the descriptions [ds0]. *)
Lemma description_loop source_desc (targets : list string) ds0 s1 d' s2 o :
  for_in targets (translate_description consts env source_desc) ds0 s1 = (d', s2, o) ->
  (exists new, calls (world s2) = calls (world s1) ++ new /\
     Forall (description_call source_desc targets ds0) new) /\
  (o = None ->
   (forall k v, dict_get k ds0 = Some v -> v <> JStr "" -> dict_get k d' = Some v) /\
   (forall k, k ∉ targets -> dict_get k d' = dict_get k ds0) /\
   (forall l, l ∈ targets -> is_Some (dict_get l d'))).
Proof.
  set (good := description_call source_desc targets ds0).
  set (logged := fun s : PluginTranslator =>
         exists new, calls (world s) = calls (world s1) ++ new /\ Forall good new).
  set (P := fun (d : list (string * json)) (s : PluginTranslator) =>
         logged s /\
         (forall k v, dict_get k ds0 = Some v -> v <> JStr "" -> dict_get k d = Some v) /\
         (forall k, k ∉ targets -> dict_get k d = dict_get k ds0)).
  set (top := fun _ _ : PluginTranslator => True).
  intros Hrun.
  assert (Hbody : forall x (b : list (string * json)) s5 b' s6 o6,
    x ∈ targets -> P b s5 ->
    translate_description consts env source_desc x b s5 = (b', s6, o6) ->
    top s5 s6 /\
    match o6 with
    | None => P b' s6 /\ is_Some (dict_get x b') /\
              (forall y : string, is_Some (dict_get y b) -> is_Some (dict_get y b'))
    | Some _ => logged s6
    end).
  { intros x b s5 b' s6 o6 Hx (Hlog & Hkeep & Hoth) Hb. split; [exact I |].
    unfold translate_description in Hb.
    assert (Hcall :
      (dict_get x b = None \/ dict_get x b = Some (JStr "")) ->
      (match transalte_with_deepl consts env source_desc x s5 with
       | (Raise e, s7) => (b, s7, Some e)
       | (Ok tr, s7) => (dict_set x (JStr tr) b, s7, None)
       end) = (b', s6, o6) ->
      match o6 with
      | None => P b' s6 /\ is_Some (dict_get x b') /\
                (forall y : string, is_Some (dict_get y b) -> is_Some (dict_get y b'))
      | Some _ => logged s6
      end).
    { intros Hempty Hres.
      destruct (transalte_with_deepl consts env source_desc x s5) as [r s7] eqn:Hc.
      assert (Hx0 : dict_get x ds0 = None \/ dict_get x ds0 = Some (JStr "")).
      { destruct (dict_get x ds0) as [v|] eqn:E; [| left; reflexivity].
        destruct (json_is_str "" v) eqn:Ev.
        - apply json_is_str_empty in Ev. subst v. right. reflexivity.
        - assert (Hv : v <> JStr "")
            by (intros ->; simpl in Ev; discriminate).
          rewrite (Hkeep _ _ E Hv) in Hempty.
          destruct Hempty as [Hempty|Hempty]; [discriminate | congruence]. }
      assert (Hlog7 : logged s7).
      { destruct Hlog as (new & Hcalls & Hnew).
        apply transalte_with_deepl_cases in Hc.
        destruct Hc as [(_ & _ & ->) | [(_ & -> & _) | (_ & req & -> & _)]].
        - exists new. auto.
        - exists new. auto.
        - eexists (new ++ [_]). simpl. rewrite Hcalls, <- app_assoc.
          split; [reflexivity |]. apply Forall_app. split; [assumption |].
          apply Forall_singleton. repeat split; simpl; assumption. }
      destruct r as [tr|e]; inversion Hres; subst; [| exact Hlog7].
      split; [split; [exact Hlog7 | split] | split].
      - intros k v Hk Hv. destruct (decide (x = k)) as [<-|Hne].
        + destruct Hx0 as [Hx0|Hx0]; congruence.
        + rewrite dict_get_set_ne by assumption. auto.
      - intros k Hk. rewrite dict_get_set_ne; [auto |]. intros ->. contradiction.
      - rewrite dict_get_set_eq. eauto.
      - intros y Hy. destruct (decide (x = y)) as [<-|Hne].
        + rewrite dict_get_set_eq. eauto.
        + rewrite dict_get_set_ne by assumption. exact Hy. }
    destruct (dict_get x b) as [v|] eqn:Eb.
    - destruct (json_is_str "" v) eqn:Ev; simpl in Hb.
      + apply json_is_str_empty in Ev. subst v.
        apply Hcall; [right; reflexivity | exact Hb].
      + inversion Hb; subst. split; [repeat split; assumption |].
        split; [rewrite Eb; eauto | auto].
    - apply Hcall; [left; reflexivity | exact Hb]. }
  assert (HP0 : P ds0 s1).
  { split; [exists []; rewrite app_nil_r; split; [reflexivity | constructor] |].
    split; auto. }
  destruct (for_in_rule top (fun _ => I) (fun _ _ _ _ _ => I)
              (translate_description consts env source_desc)
              P logged (fun l d => is_Some (dict_get l d))
              targets Hbody _ _ _ _ _ HP0 Hrun) as [_ Hpost].
  destruct o as [e|].
  - split; [exact Hpost | discriminate].
  - destruct Hpost as ((Hlog & Hkeep & Hoth) & Hall & _).
    split; [exact Hlog |]. intros _. auto.
Qed.

(** [translate_info_json] on a descriptor that is an object with a
    description, once the provider handle is there. *)
Lemma translate_info_json_described s t s1 ob d :
  deepl_translator env s = (Ok (Some t), s1) ->
  info_json_content s = Some (JObj ob) ->
  dict_get "description" ob = Some d ->
  translate_info_json consts env s =
    match dict_get (source_language (config s)) (descriptions_of (source_language (config s)) d)
    with
    | None => (s1, None)
    | Some source_desc =>
        let '(ds', s2, o) :=
          for_in (target_languages (config s)) (translate_description consts env source_desc)
            (descriptions_of (source_language (config s)) d) s1 in
        match o, d with
        | Some e, JObj _ => (set_info_json_content
                               (Some (JObj (dict_set "description" (JObj ds') ob))) s2, o)
        | Some e, _ => (s2, Some e)
        | None, _ => (set_info_json_content
                        (Some (JObj (dict_set "description" (JObj ds') ob))) s2, o)
        end
    end.
Proof.
  intros Hprop Hob Hd. unfold translate_info_json. rewrite Hprop.
  apply deepl_translator_cases in Hprop. destruct Hprop as (Hc & _ & _ & _ & Hi & _).
  rewrite Hi, Hob, Hc. simpl. unfold dict_has. rewrite Hd. simpl.
  destruct d; simpl;
    repeat match goal with
    | |- context [if String.eqb ?a ?a then _ else _] => rewrite String.eqb_refl
    end;
    try (destruct (for_in _ _ _ _) as [[ds' s2] [e|]]; reflexivity).
  destruct (dict_get (source_language (config s)) o); [| reflexivity].
  destruct (for_in _ _ _ _) as [[ds' s2] [e|]]; reflexivity.
Qed.

(** X11. [translate_info_json] keeps what the descriptor says: when it
    returns with a provider at hand, the description of the descriptor is a
    dictionary in which every description that was there and not empty is
    unchanged (the one of a target language included: a text written by
    hand is not replaced), the entries of other languages than the target
    languages are what they were (a description that was a plain text is the
    entry of the source language), and every target language has an
    entry. *)
Theorem translate_info_json_keeps_descriptions s s' ob d source_desc :
  info_json_content s = Some (JObj ob) ->
  dict_get "description" ob = Some d ->
  dict_get (source_language (config s)) (descriptions_of (source_language (config s)) d)
    = Some source_desc ->
  translate_info_json consts env s = (s', None) ->
  is_Some (deepl_translator_attr s') ->
  exists ds',
    info_json_content s' = Some (JObj (dict_set "description" (JObj ds') ob)) /\
    (forall k v, dict_get k (descriptions_of (source_language (config s)) d) = Some v ->
                 v <> JStr "" -> dict_get k ds' = Some v) /\
    (forall k, k ∉ target_languages (config s) ->
               dict_get k ds' = dict_get k (descriptions_of (source_language (config s)) d)) /\
    (forall l, l ∈ target_languages (config s) -> is_Some (dict_get l ds')).
Proof.
  intros Hob Hd Hsd Hrun Hattr.
  destruct (deepl_translator env s) as [r s1] eqn:Hprop.
  destruct r as [[t|]|e].
  - rewrite (translate_info_json_described _ _ _ _ _ Hprop Hob Hd), Hsd in Hrun.
    destruct (for_in _ _ _ _) as [[ds' s2] o] eqn:Hloop.
    destruct (description_loop _ _ _ _ _ _ _ Hloop) as [_ Hpost].
    destruct o as [e|]; [destruct d; discriminate |].
    inversion Hrun; subst; clear Hrun. exists ds'. split; [reflexivity |]. auto.
  - unfold translate_info_json in Hrun. rewrite Hprop in Hrun. inversion Hrun; subst.
    apply deepl_translator_cases in Hprop. destruct Hprop as (_ & _ & _ & _ & _ & _ & Heq & Hn).
    exfalso. apply Hn. left. rewrite <- Heq. assumption.
  - unfold translate_info_json in Hrun. rewrite Hprop in Hrun. discriminate.
Qed.

(** X12. The provider is asked for a description only where the descriptor
    lacks one: every remote call of [translate_info_json] is for the
    description in the source language and for a target language that had
    no description, or an empty one. *)
Theorem translate_info_json_calls s s' o ob d :
  info_json_content s = Some (JObj ob) ->
  dict_get "description" ob = Some d ->
  translate_info_json consts env s = (s', o) ->
  Forall
    (fun c =>
       dict_get (source_language (config s))
         (descriptions_of (source_language (config s)) d) = Some (call_text c) /\
       call_target_language c ∈ target_languages (config s) /\
       (dict_get (call_target_language c)
          (descriptions_of (source_language (config s)) d) = None \/
        dict_get (call_target_language c)
          (descriptions_of (source_language (config s)) d) = Some (JStr "")))
    (new_calls s s').
Proof.
  intros Hob Hd Hrun.
  destruct (deepl_translator env s) as [r s1] eqn:Hprop.
  pose proof (deepl_translator_cases _ _ _ _ Hprop) as (_ & _ & _ & _ & _ & Hw & _).
  destruct r as [[t|]|e].
  - rewrite (translate_info_json_described _ _ _ _ _ Hprop Hob Hd) in Hrun.
    destruct (dict_get (source_language (config s))
                (descriptions_of (source_language (config s)) d)) as [sd|] eqn:Hsd.
    2:{ inversion Hrun; subst. rewrite (new_calls_same s s'); [constructor |].
        rewrite Hw. reflexivity. }
    destruct (for_in _ _ _ _) as [[ds' s2] o2] eqn:Hloop.
    destruct (description_loop _ _ _ _ _ _ _ Hloop) as [(new & Hcalls & Hnew) _].
    assert (Hs' : calls (world s') = calls (world s) ++ new).
    { rewrite <- Hw, <- Hcalls. destruct o2; destruct d; inversion Hrun; reflexivity. }
    rewrite (new_calls_app _ _ _ Hs').
    eapply Forall_impl; [exact Hnew |].
    intros c (Hc1 & Hc2 & Hc3). rewrite Hc1. auto.
  - unfold translate_info_json in Hrun. rewrite Hprop in Hrun. inversion Hrun; subst.
    rewrite (new_calls_same s s'); [constructor |]. rewrite Hw. reflexivity.
  - unfold translate_info_json in Hrun. rewrite Hprop in Hrun. inversion Hrun; subst.
    rewrite (new_calls_same s s'); [constructor |]. rewrite Hw. reflexivity.
Qed.

(** X13. Without a description in the descriptor, or with a dictionary of
    descriptions that has none for the source language, [translate_info_json]
    leaves the descriptor, the log of calls and the counter as they are. *)
Theorem translate_info_json_nothing_to_translate s s' o ob :
  info_json_content s = Some (JObj ob) ->
  dict_get "description" ob = None \/
  (exists ds, dict_get "description" ob = Some (JObj ds) /\
              dict_get (source_language (config s)) ds = None) ->
  translate_info_json consts env s = (s', o) ->
  info_json_content s' = Some (JObj ob) /\
  new_calls s s' = [] /\
  api_call_counter s' = api_call_counter s.
Proof.
  intros Hob Hnone Hrun.
  destruct (deepl_translator env s) as [r s1] eqn:Hprop.
  pose proof (deepl_translator_cases _ _ _ _ Hprop) as (Hc & _ & _ & Hn & Hi & Hw & _).
  assert (Hs1 : info_json_content s1 = Some (JObj ob) /\ new_calls s s1 = [] /\
                api_call_counter s1 = api_call_counter s).
  { split; [congruence |]. split; [apply new_calls_same; rewrite Hw; reflexivity | exact Hn]. }
  destruct r as [[t|]|e].
  - destruct Hnone as [Hd | (ds & Hd & Hsrc)].
    + unfold translate_info_json in Hrun. rewrite Hprop, Hi, Hob in Hrun. simpl in Hrun.
      unfold dict_has in Hrun. rewrite Hd in Hrun. inversion Hrun; subst. exact Hs1.
    + rewrite (translate_info_json_described _ _ _ _ _ Hprop Hob Hd) in Hrun.
      simpl in Hrun. rewrite Hsrc in Hrun. inversion Hrun; subst. exact Hs1.
  - unfold translate_info_json in Hrun. rewrite Hprop in Hrun. inversion Hrun; subst.
    exact Hs1.
  - unfold translate_info_json in Hrun. rewrite Hprop in Hrun. inversion Hrun; subst.
    exact Hs1.
Qed.

End DescriptionMore.

(** ** Output, further *)

Lemma write_language_emitted s0 s l :
  config s = config s0 -> files s = files s0 ->
  written (world (write_language s l))
  = written (world s) ++ match emitted s0 l with Some out => [out] | None => [] end.
Proof.
  intros Hc Hf. unfold write_language, emitted. rewrite Hc, Hf.
  destruct (_ && _); [rewrite app_nil_r; reflexivity |].
  cbv zeta.
  destruct (0 <? _)%nat; [reflexivity | rewrite app_nil_r; reflexivity].
Qed.

(** The files written, one target language after the other. *)
Lemma write_plugin_translations_written s :
  written (world (write_plugin_translations s))
  = written (world s) ++ omap (emitted s) (target_languages (config s)).
Proof.
  unfold write_plugin_translations.
  assert (Hgen : forall ls s1, config s1 = config s -> files s1 = files s ->
    written (world (fold_left write_language ls s1))
    = written (world s1) ++ omap (emitted s) ls).
  { induction ls as [|l ls IH]; intros s1 Hc Hf; simpl; [rewrite app_nil_r; reflexivity |].
    destruct (write_language_frame s1 l) as (F1 & F2 & _).
    rewrite IH by congruence.
    rewrite (write_language_emitted s s1 l Hc Hf).
    destruct (emitted s l); simpl; rewrite <- app_assoc; reflexivity. }
  apply Hgen; reflexivity.
Qed.

(** X14. Unless the run is to generate it, no translation file is written
    for the source language, even when it is among the target languages. *)
Theorem write_plugin_translations_skips_source s out :
  generate_source_language_translations (config s) = false ->
  out ∈ drop (length (written (world s))) (written (world (write_plugin_translations s))) ->
  fst out <> source_language (config s).
Proof.
  intros Hgen Hout. rewrite write_plugin_translations_written, drop_app_length in Hout.
  apply list_elem_of_omap in Hout. destruct Hout as (l & _ & Hl).
  unfold emitted in Hl. rewrite Hgen in Hl.
  destruct (String.eqb l (source_language (config s))) eqn:E; simpl in Hl; [discriminate |].
  destruct (0 <? _)%nat; inversion Hl; subst. simpl. apply String.eqb_neq. exact E.
Qed.

Lemma language_result_fold_other language include_empty path fs : forall doc,
  path ∉ map fst fs ->
  dict_get path
    (fold_left
       (fun doc entry =>
          let ps := get_prompts_and_translation language include_empty (snd entry) in
          if (0 <? length ps)%nat then dict_set (fst entry) ps doc else doc) fs doc)
  = dict_get path doc.
Proof.
  induction fs as [|[p0 f0] fs IH]; intros doc Hnot; simpl; [reflexivity |].
  rewrite IH.
  - destruct (0 <? _)%nat; [| reflexivity]. apply dict_get_set_ne.
    intros ->. apply Hnot. simpl. apply elem_of_cons. left. reflexivity.
  - intros H. apply Hnot. simpl. apply elem_of_cons. right. assumption.
Qed.

(** A file that contributes prompts is in the document, with them. *)
Lemma language_result_complete language include_empty path f fs :
  NoDup (map fst fs) -> (path, f) ∈ fs ->
  get_prompts_and_translation language include_empty f <> [] ->
  dict_get path (language_result language include_empty fs)
  = Some (get_prompts_and_translation language include_empty f).
Proof.
  unfold language_result. generalize (@nil (string * list (string * string))).
  induction fs as [|[p0 f0] fs IH]; intros doc Hnd Hin Hne.
  - apply elem_of_nil in Hin. contradiction.
  - simpl in Hnd. apply NoDup_cons in Hnd. destruct Hnd as [Hp0 Hnd].
    apply elem_of_cons in Hin. destruct Hin as [Heq|Hin].
    + injection Heq as <- <-. simpl.
      rewrite language_result_fold_other by assumption.
      destruct (get_prompts_and_translation language include_empty f) as [|x ps];
        [contradiction |].
      simpl. apply dict_get_set_eq.
    + simpl. apply IH; assumption.
Qed.

(** X15. Every file of the plugin that contributes a prompt for a language
    that is emitted is in the translation file written for that language,
    under its path and with the prompts it contributes.  (The files of the
    plugin have distinct paths: they are the keys of a dictionary.) *)
Theorem write_plugin_translations_complete s language path f :
  NoDup (map fst (files s)) ->
  (path, f) ∈ files s ->
  language ∈ target_languages (config s) ->
  language <> source_language (config s) \/
    generate_source_language_translations (config s) = true ->
  get_prompts_and_translation language (include_empty_translation (config s)) f <> [] ->
  exists doc,
    (language, doc)
      ∈ drop (length (written (world s))) (written (world (write_plugin_translations s))) /\
    dict_get path doc
    = Some (get_prompts_and_translation language (include_empty_translation (config s)) f).
Proof.
  intros Hnd Hin Hl Hemit Hne.
  rewrite write_plugin_translations_written, drop_app_length.
  pose proof (language_result_complete language (include_empty_translation (config s))
                path f (files s) Hnd Hin Hne) as Hdoc.
  exists (language_result language (include_empty_translation (config s)) (files s)).
  split; [| exact Hdoc].
  apply list_elem_of_omap. exists language. split; [assumption |].
  unfold emitted.
  assert (E : String.eqb language (source_language (config s))
              && negb (generate_source_language_translations (config s)) = false).
  { destruct Hemit as [Hemit | ->]; [| apply andb_false_r].
    apply String.eqb_neq in Hemit. rewrite Hemit. reflexivity. }
  rewrite E. cbv zeta.
  destruct (language_result language (include_empty_translation (config s)) (files s));
    [discriminate | reflexivity].
Qed.

Lemma dict_set_keys {V} k (v : V) d :
  map fst (dict_set k v d) = if dict_has k d then map fst d else map fst d ++ [k].
Proof.
  unfold dict_has. induction d as [|[k0 v0] d IH]; simpl; [reflexivity |].
  destruct (String.eqb_spec k k0) as [->|Hne]; simpl; [reflexivity |].
  rewrite IH. destruct (dict_get k d); reflexivity.
Qed.

(** X16. [__write_info_json] replaces the language field of a descriptor that
    is an object and nothing else: every other field keeps its value, the
    fields keep their order (a language field that was missing is added
    last), the descriptor in memory and the file written are the same
    object, and no exception is raised. *)
Theorem write_info_json_keeps_fields s ob :
  info_json_content s = Some (JObj ob) ->
  exists ob',
    __write_info_json s
    = (set_world (write_info_json_file (JObj ob') (world s))
         (set_info_json_content (Some (JObj ob')) s), None) /\
    (forall k, k <> "language" -> dict_get k ob' = dict_get k ob) /\
    map fst ob' = if dict_has "language" ob then map fst ob else map fst ob ++ ["language"].
Proof.
  intros Hob. unfold __write_info_json. rewrite Hob. cbn [py_setitem].
  eexists. split; [reflexivity |]. split.
  - intros k Hk. apply dict_get_set_ne. congruence.
  - apply dict_set_keys.
Qed.

(** ** Loading the translation files *)

Lemma add_group_cell language group t : forall c,
  cell (add_group language c group) t language = group_last t group (cell c t language).
Proof.
  unfold add_group, group_last.
  induction group as [|[t0 v0] group IH]; intros c; simpl; [reflexivity |].
  rewrite IH. f_equal.
  destruct (String.eqb_spec t0 t) as [->|Hne].
  - apply cell_add_eq.
  - apply cell_add_ne. congruence.
Qed.

Lemma add_group_cell_other language group t language' : forall c,
  language <> language' ->
  cell (add_group language c group) t language' = cell c t language'.
Proof.
  unfold add_group.
  induction group as [|[t0 v0] group IH]; intros c Hne; simpl; [reflexivity |].
  rewrite IH by assumption. apply cell_add_ne. congruence.
Qed.

Lemma add_file_cell language data t : forall c,
  cell (add_file language c data) t language = file_last t data (cell c t language).
Proof.
  unfold add_file, file_last.
  induction data as [|[p g] data IH]; intros c; simpl; [reflexivity |].
  rewrite IH. f_equal. apply add_group_cell.
Qed.

Lemma add_file_cell_other language data t language' : forall c,
  language <> language' ->
  cell (add_file language c data) t language' = cell c t language'.
Proof.
  unfold add_file.
  induction data as [|[p g] data IH]; intros c Hne; simpl; [reflexivity |].
  rewrite IH by assumption. apply add_group_cell_other. assumption.
Qed.

Lemma group_last_init t group : forall init,
  group_last t group init
  = match group_last t group None with Some v => Some v | None => init end.
Proof.
  unfold group_last.
  induction group as [|[t0 v0] group IH]; intros init; simpl; [reflexivity |].
  destruct (String.eqb t0 t).
  - rewrite IH. destruct (fold_left _ group None); reflexivity.
  - apply IH.
Qed.

Lemma file_last_init t data : forall init,
  file_last t data init
  = match file_last t data None with Some v => Some v | None => init end.
Proof.
  unfold file_last.
  induction data as [|[p g] data IH]; intros init; simpl; [reflexivity |].
  rewrite IH. rewrite (IH (group_last t g None)).
  rewrite (group_last_init t g init).
  destruct (fold_left _ data None); [reflexivity |].
  destruct (group_last t g None); reflexivity.
Qed.

Lemma load_language_frame dir s l :
  config (load_language dir s l) = config s /\
  files (load_language dir s l) = files s /\
  world (load_language dir s l) = world s /\
  api_call_counter (load_language dir s l) = api_call_counter s /\
  deepl_translator_attr (load_language dir s l) = deepl_translator_attr s /\
  info_json_content (load_language dir s l) = info_json_content s.
Proof. unfold load_language. destruct (dir l); repeat split. Qed.

(** The cell of a text and a language after the translation files of a
    directory were loaded. *)
Lemma loaded_cell dir s t language :
  cell (existing_translations (_get_translations_from_json_files dir s)) t language
  = match dir language with
    | TranslationFile data =>
        if bool_decide (language ∈ target_languages (config s))
        then file_last t data (cell (existing_translations s) t language)
        else cell (existing_translations s) t language
    | _ => cell (existing_translations s) t language
    end.
Proof.
  unfold _get_translations_from_json_files.
  generalize (target_languages (config s)). intros ls. revert s.
  induction ls as [|l ls IH]; intros s; simpl.
  - destruct (dir language); reflexivity.
  - rewrite IH.
    assert (Hother : l <> language ->
      cell (existing_translations (load_language dir s l)) t language
      = cell (existing_translations s) t language).
    { intros Hne. unfold load_language. destruct (dir l); try reflexivity.
      simpl. apply add_file_cell_other. assumption. }
    destruct (decide (l = language)) as [->|Hne].
    + unfold load_language. destruct (dir language) as [| |data] eqn:Hd; try reflexivity.
      simpl. rewrite add_file_cell.
      rewrite (bool_decide_eq_true_2 (language ∈ language :: ls))
        by (apply elem_of_cons; left; reflexivity).
      destruct (bool_decide (language ∈ ls)); [| reflexivity].
      rewrite (file_last_init t data (file_last t data _)).
      rewrite (file_last_init t data (cell (existing_translations s) t language)).
      destruct (file_last t data None); reflexivity.
    + rewrite (Hother Hne).
      destruct (dir language); try reflexivity.
      destruct (bool_decide (language ∈ ls)) eqn:E.
      * rewrite bool_decide_eq_true_2; [reflexivity |].
        apply bool_decide_eq_true in E. apply elem_of_cons. right. assumption.
      * rewrite bool_decide_eq_false_2; [reflexivity |].
        apply bool_decide_eq_false in E. intros H. apply elem_of_cons in H.
        destruct H as [H|H]; [congruence | contradiction].
Qed.

Lemma loader_frame dir s :
  config (_get_translations_from_json_files dir s) = config s /\
  files (_get_translations_from_json_files dir s) = files s /\
  world (_get_translations_from_json_files dir s) = world s /\
  api_call_counter (_get_translations_from_json_files dir s) = api_call_counter s /\
  deepl_translator_attr (_get_translations_from_json_files dir s) = deepl_translator_attr s /\
  info_json_content (_get_translations_from_json_files dir s) = info_json_content s.
Proof.
  unfold _get_translations_from_json_files.
  generalize (target_languages (config s)). intros ls. revert s.
  induction ls as [|l ls IH]; intros s; simpl; [repeat split |].
  destruct (IH (load_language dir s l)) as (H1 & H2 & H3 & H4 & H5 & H6).
  destruct (load_language_frame dir s l) as (F1 & F2 & F3 & F4 & F5 & F6).
  repeat split; congruence.
Qed.

(** X17. Loading a directory of translation files changes the cache only
    where a file says so: the translations for a language that is no target
    language, or whose file is absent or is not JSON, are what they were
    (the other languages are still loaded), and nothing but the cache
    changes. *)
Theorem loader_passes_over dir s t language :
  language ∉ target_languages (config s) \/
  dir language = NoTranslationFile \/ dir language = BadTranslationFile ->
  cell (existing_translations (_get_translations_from_json_files dir s)) t language
  = cell (existing_translations s) t language /\
  files (_get_translations_from_json_files dir s) = files s /\
  world (_get_translations_from_json_files dir s) = world s.
Proof.
  intros H. destruct (loader_frame dir s) as (_ & Hf & Hw & _).
  split; [| auto]. rewrite loaded_cell.
  destruct H as [H | [-> | ->]]; try reflexivity.
  destruct (dir language); try reflexivity.
  rewrite bool_decide_eq_false_2 by assumption. reflexivity.
Qed.

(** X18. After the translation file of a target language was loaded, the
    cache has, for every text of the file, the translation the file gives
    last for it, whatever it had before; a text the file does not have keeps
    the translation it had. *)
Theorem loader_file_wins dir s t language data :
  language ∈ target_languages (config s) ->
  dir language = TranslationFile data ->
  cell (existing_translations (_get_translations_from_json_files dir s)) t language
  = match file_last t data None with
    | Some v => Some v
    | None => cell (existing_translations s) t language
    end.
Proof.
  intros Hl Hd. rewrite loaded_cell, Hd, bool_decide_eq_true_2 by assumption.
  apply file_last_init.
Qed.

(** X19. The core translations are loaded after those of the plugin and so
    take precedence: when both directories have a file for a target
    language, a text that the core file translates has the core's
    translation in the cache, whatever the plugin's file says. *)
Theorem core_translations_take_precedence disk core s s' t language data v :
  core_translations disk = Some core ->
  language ∈ target_languages (config s) ->
  core language = TranslationFile data ->
  file_last t data None = Some v ->
  get_core_translations disk (get_plugin_translations disk s) = (s', None) ->
  cell (existing_translations s') t language = Some v.
Proof.
  intros Hcore Hl Hd Hv Hrun. unfold get_core_translations in Hrun. rewrite Hcore in Hrun.
  inversion Hrun; subst; clear Hrun.
  rewrite loaded_cell, Hd.
  destruct (loader_frame (plugin_translations disk) s) as (Hc & _).
  unfold get_plugin_translations. rewrite Hc, bool_decide_eq_true_2 by assumption.
  rewrite file_last_init, Hv. reflexivity.
Qed.

Lemma group_last_from t group : forall init,
  group_last t group init = init \/
  exists v, group_last t group init = Some v /\ (t, v) ∈ group.
Proof.
  unfold group_last.
  induction group as [|[t0 v0] group IH]; intros init; simpl; [left; reflexivity |].
  destruct (IH (if String.eqb t0 t then Some v0 else init)) as [H | (v & H & Hin)].
  - rewrite H. destruct (String.eqb_spec t0 t) as [->|Hne]; [| left; reflexivity].
    right. exists v0. split; [reflexivity |]. apply elem_of_cons. left. reflexivity.
  - right. exists v. split; [exact H |]. apply elem_of_cons. right. assumption.
Qed.

Lemma group_last_hit t x group : forall init,
  (t, x) ∈ group -> is_Some (group_last t group init).
Proof.
  unfold group_last.
  induction group as [|[t0 v0] group IH]; intros init Hin.
  - apply elem_of_nil in Hin. contradiction.
  - simpl. apply elem_of_cons in Hin. destruct Hin as [Heq|Hin]; [| apply IH; assumption].
    injection Heq as <- <-. rewrite String.eqb_refl.
    fold (group_last t group (Some x)). rewrite group_last_init.
    destruct (group_last t group None); eauto.
Qed.

Lemma file_last_from t data : forall init,
  file_last t data init = init \/
  exists v p g, file_last t data init = Some v /\ (p, g) ∈ data /\ (t, v) ∈ g.
Proof.
  unfold file_last.
  induction data as [|[p0 g0] data IH]; intros init; simpl; [left; reflexivity |].
  destruct (IH (group_last t g0 init)) as [H | (v & p & g & H & Hin & Hv)].
  - rewrite H. destruct (group_last_from t g0 init) as [H0 | (v & H0 & Hv)];
      [left; assumption |].
    right. exists v, p0, g0. split; [assumption |].
    split; [apply elem_of_cons; left; reflexivity | assumption].
  - right. exists v, p, g. split; [assumption |].
    split; [apply elem_of_cons; right; assumption | assumption].
Qed.

Lemma file_last_hit t x p g data : forall init,
  (p, g) ∈ data -> (t, x) ∈ g -> is_Some (file_last t data init).
Proof.
  unfold file_last.
  induction data as [|[p0 g0] data IH]; intros init Hin Hx.
  - apply elem_of_nil in Hin. contradiction.
  - simpl. apply elem_of_cons in Hin. destruct Hin as [Heq|Hin]; [| apply IH; assumption].
    injection Heq as <- <-.
    destruct (group_last_hit t x g init Hx) as [v Hv]. rewrite Hv.
    fold (file_last t data (Some v)). rewrite file_last_init.
    destruct (file_last t data None); eauto.
Qed.

(** X20. What a run writes, the next run reads: when the file of a language
    in the directory that is loaded holds a document written by
    [write_plugin_translations], with its entries in whatever order (the
    serialisation sorts the keys), the cache gets a translation for every
    text in the file, and it is one that a file of the plugin contributed
    for this text and language. *)
Theorem written_file_loads_back s language doc data dir s2 path ps t tr :
  (language, doc)
    ∈ drop (length (written (world s))) (written (world (write_plugin_translations s))) ->
  read_back doc data ->
  dir language = TranslationFile data ->
  (path, ps) ∈ data -> (t, tr) ∈ ps ->
  language ∈ target_languages (config s2) ->
  exists tr' path' f,
    cell (existing_translations (_get_translations_from_json_files dir s2)) t language
      = Some tr' /\
    (path', f) ∈ files s /\
    (t, tr')
      ∈ get_prompts_and_translation language (include_empty_translation (config s)) f.
Proof.
  intros Hout Hback Hd Hps Ht Hl.
  rewrite write_plugin_translations_written, drop_app_length in Hout.
  apply list_elem_of_omap in Hout. destruct Hout as (l & _ & Hemit).
  assert (Hdoc : doc = language_result language
                         (include_empty_translation (config s)) (files s)).
  { unfold emitted in Hemit. destruct (_ && _); [discriminate |].
    cbv zeta in Hemit. destruct (0 <? _)%nat; inversion Hemit; subst. reflexivity. }
  rewrite loaded_cell, Hd, bool_decide_eq_true_2 by assumption.
  rewrite file_last_init.
  destruct (file_last_hit t tr path ps data None Hps Ht) as [v Hv].
  destruct (file_last_from t data None) as [Hnone | (v' & p' & g' & Hv' & Hin & Hg)];
    [congruence |].
  rewrite Hv'. exists v'.
  destruct (Hback p' g' Hin) as (g0 & Hin0 & Hsub).
  rewrite Hdoc in Hin0. apply language_result_entries in Hin0.
  destruct Hin0 as (_ & f & Hf & ->).
  exists p', f. auto.
Qed.

(** ** [start] *)

(** X21. A run that is to use the core translations and finds no core root
    stops with a [RuntimeError] after the plugin's translation files were
    read: the sources are not scanned, no remote call is made and nothing is
    written. *)
Theorem start_without_core_root consts env find_prompts disk s :
  use_core_translations (config s) = true ->
  core_translations disk = None ->
  exists s' msg,
    start consts env find_prompts disk s = (s', Some (RuntimeError msg)) /\
    files s' = files s /\ world s' = world s /\
    api_call_counter s' = api_call_counter s.
Proof.
  intros Hcore Hroot. unfold start, get_plugin_translations, get_core_translations.
  destruct (loader_frame (plugin_translations disk) s) as (Hc & Hf & Hw & Hn & _).
  rewrite Hc, Hcore, Hroot. eexists _, _. split; [reflexivity |]. auto.
Qed.

(** ** The glossaries *)

Section GlossariesMore.
Variable genv : GlossaryEnv.

Lemma slots_fill_refl t : slots_fill t t.
Proof. intros l. now left. Qed.

Lemma slots_fill_trans t1 t2 t3 : slots_fill t1 t2 -> slots_fill t2 t3 -> slots_fill t1 t3.
Proof.
  intros H12 H23 l. destruct (H23 l) as [E | E]; [| now right].
  rewrite E. apply H12.
Qed.

Lemma slots_fill_empty t t' l : slots_fill t t' -> t' !! l = Some None -> t !! l = Some None.
Proof.
  intros H E. destruct (H l) as [E' | [g E']]; congruence.
Qed.

Lemma slots_fill_full t t' l g :
  slots_fill t t' -> t !! l = Some (Some g) -> exists g', t' !! l = Some (Some g').
Proof.
  intros H E. destruct (H l) as [E' | [g' E']]; eauto. rewrite E', E. eauto.
Qed.

Lemma match_glossaries_spec md5_hash source target gs : forall st st' o,
  match_glossaries genv md5_hash source target gs st = (st', o) ->
  (exists new, snd st' = snd st ++ new /\
     forall op, op ∈ new ->
       exists g, op = DeleteGlossary g /\ g ∈ gs /\ outdated genv md5_hash source target g) /\
  (forall l, l <> target -> fst st' !! l = fst st !! l) /\
  slots_fill (fst st) (fst st') /\
  (o = None -> forall g, g ∈ gs -> up_to_date genv md5_hash source target g ->
     exists g', fst st' !! target = Some (Some g')).
Proof.
  induction gs as [| g rest IH]; intros st st' o H; simpl in H.
  - injection H as <- <-. split; [| split; [| split]].
    + exists []. split; [now rewrite app_nil_r |]. intros op Hop. inversion Hop.
    + reflexivity.
    + apply slots_fill_refl.
    + intros _ g Hg. inversion Hg.
  - destruct (LANGUAGES_TO_DEEPL_GLOSSARY genv !! source) as [src |] eqn:Esrc.
    2:{ injection H as <- <-. split; [| split; [| split]].
        - exists []. split; [now rewrite app_nil_r |]. intros op Hop. inversion Hop.
        - reflexivity.
        - apply slots_fill_refl.
        - discriminate. }
    assert (Hskip :
      match_glossaries genv md5_hash source target rest st = (st', o) ->
      ~ up_to_date genv md5_hash source target g ->
      (exists new, snd st' = snd st ++ new /\
         forall op, op ∈ new ->
           exists g0, op = DeleteGlossary g0 /\ g0 ∈ g :: rest /\
             outdated genv md5_hash source target g0) /\
      (forall l, l <> target -> fst st' !! l = fst st !! l) /\
      slots_fill (fst st) (fst st') /\
      (o = None -> forall g0, g0 ∈ g :: rest -> up_to_date genv md5_hash source target g0 ->
         exists g', fst st' !! target = Some (Some g'))).
    { intros Hrest Hnot. destruct (IH _ _ _ Hrest) as ([new [Hnew Hops]] & Hoth & Hfill & Hup).
      split; [| split; [| split]]; auto.
      - exists new. split; auto. intros op Hop.
        destruct (Hops op Hop) as (g0 & -> & Hin & Hout).
        exists g0. split; auto. split; auto. now apply list_elem_of_further.
      - intros -> g0 Hin Hg0. apply elem_of_cons in Hin as [-> | Hin]; [contradiction |].
        now apply (Hup eq_refl g0). }
    destruct (String.eqb_spec (glossary_source_lang g) src) as [Es | Es].
    2:{ apply Hskip; auto. intros (Hs & _). congruence. }
    destruct (LANGUAGES_TO_DEEPL_GLOSSARY genv !! target) as [tgt |] eqn:Etgt.
    2:{ injection H as <- <-. split; [| split; [| split]].
        - exists []. split; [now rewrite app_nil_r |]. intros op Hop. inversion Hop.
        - reflexivity.
        - apply slots_fill_refl.
        - discriminate. }
    destruct (String.eqb_spec (glossary_target_lang g) tgt) as [Et | Et].
    2:{ apply Hskip; auto. intros (_ & Ht & _). congruence. }
    destruct (String.eqb_spec (glossary_name g) md5_hash) as [En | En].
    + destruct (IH _ _ _ H) as ([new [Hnew Hops]] & Hoth & Hfill & Hup). simpl in *.
      split; [| split; [| split]].
      * exists new. split; auto. intros op Hop.
        destruct (Hops op Hop) as (g0 & -> & Hin & Hout).
        exists g0. split; auto. split; auto. now apply list_elem_of_further.
      * intros l Hl. rewrite (Hoth l Hl). now apply lookup_insert_ne.
      * intros l. destruct (decide (l = target)) as [-> | Hl].
        -- right. destruct (Hfill target) as [E | E]; auto.
           rewrite lookup_insert_eq in E. eauto.
        -- left. rewrite (Hoth l Hl). now apply lookup_insert_ne.
      * intros _ g0 _ _. destruct (Hfill target) as [E | E]; auto.
        rewrite lookup_insert_eq in E. eauto.
    + assert (Hout : outdated genv md5_hash source target g).
      { repeat split; congruence. }
      destruct (delete_glossary genv (length (snd st)) g) as [e |].
      * injection H as <- <-. simpl. split; [| split; [| split]].
        -- exists [DeleteGlossary g]. split; auto. intros op Hop.
           apply list_elem_of_singleton in Hop as ->. exists g. split; auto. split; auto.
           apply list_elem_of_here.
        -- reflexivity.
        -- apply slots_fill_refl.
        -- discriminate.
      * destruct (IH _ _ _ H) as ([new [Hnew Hops]] & Hoth & Hfill & Hup). simpl in *.
        split; [| split; [| split]]; auto.
        -- exists (DeleteGlossary g :: new). split.
           { rewrite Hnew, <- app_assoc. reflexivity. }
           intros op Hop. apply elem_of_cons in Hop as [-> | Hop].
           ++ exists g. split; auto. split; auto. apply list_elem_of_here.
           ++ destruct (Hops op Hop) as (g0 & -> & Hin & Hout0).
              exists g0. split; auto. split; auto. now apply list_elem_of_further.
        -- intros -> g0 Hin Hg0. apply elem_of_cons in Hin as [-> | Hin].
           ++ destruct Hg0 as (_ & _ & Hn). contradiction.
           ++ now apply (Hup eq_refl g0).
Qed.

Lemma create_if_missing_spec md5_hash source target entries st st' o :
  create_if_missing genv md5_hash source target entries st = (st', o) ->
  (exists new, snd st' = snd st ++ new /\
     forall op, op ∈ new ->
       exists src tgt terms, op = CreateGlossary md5_hash src tgt terms /\
         LANGUAGES_TO_DEEPL_GLOSSARY genv !! source = Some src /\
         LANGUAGES_TO_DEEPL_GLOSSARY genv !! target = Some tgt /\
         py_getitem target entries = Ok terms /\
         fst st !! target = Some None) /\
  (forall l, l <> target -> fst st' !! l = fst st !! l) /\
  slots_fill (fst st) (fst st') /\
  (o = None -> exists g, fst st' !! target = Some (Some g)).
Proof.
  unfold create_if_missing. intros H.
  assert (Hnone : forall e, (st', o) = (st, Some e) ->
    (exists new, snd st' = snd st ++ new /\
       forall op, op ∈ new ->
         exists src tgt terms, op = CreateGlossary md5_hash src tgt terms /\
           LANGUAGES_TO_DEEPL_GLOSSARY genv !! source = Some src /\
           LANGUAGES_TO_DEEPL_GLOSSARY genv !! target = Some tgt /\
           py_getitem target entries = Ok terms /\
           fst st !! target = Some None) /\
    (forall l, l <> target -> fst st' !! l = fst st !! l) /\
    slots_fill (fst st) (fst st') /\
    (o = None -> exists g, fst st' !! target = Some (Some g))).
  { intros e E. injection E as -> ->. split; [| split; [| split]].
    - exists []. split; [now rewrite app_nil_r |]. intros op Hop. inversion Hop.
    - reflexivity.
    - apply slots_fill_refl.
    - discriminate. }
  destruct (fst st !! target) as [[g0 |] |] eqn:Eslot.
  - injection H as <- <-. split; [| split; [| split]].
    + exists []. split; [now rewrite app_nil_r |]. intros op Hop. inversion Hop.
    + reflexivity.
    + apply slots_fill_refl.
    + eauto.
  - destruct (LANGUAGES_TO_DEEPL_GLOSSARY genv !! source) as [src |] eqn:Esrc;
      [| now apply (Hnone (KeyError source))].
    destruct (LANGUAGES_TO_DEEPL_GLOSSARY genv !! target) as [tgt |] eqn:Etgt;
      [| now apply (Hnone (KeyError target))].
    destruct (py_getitem target entries) as [terms | e] eqn:Eterms;
      [| now apply (Hnone e)].
    assert (Hop : forall op, op ∈ [CreateGlossary md5_hash src tgt terms] ->
      exists src0 tgt0 terms0, op = CreateGlossary md5_hash src0 tgt0 terms0 /\
        Some src = Some src0 /\ Some tgt = Some tgt0 /\
        Ok terms = Ok terms0 /\ @Some (option GlossaryInfo) None = Some None).
    { intros op Hop. apply list_elem_of_singleton in Hop as ->.
      exists src, tgt, terms. auto. }
    destruct (create_glossary genv (length (snd st)) md5_hash src tgt terms) as [g | e].
    + injection H as <- <-. simpl. split; [| split; [| split]].
      * exists [CreateGlossary md5_hash src tgt terms]. auto.
      * intros l Hl. now apply lookup_insert_ne.
      * intros l. destruct (decide (l = target)) as [-> | Hl].
        -- right. exists g. apply lookup_insert_eq.
        -- left. now apply lookup_insert_ne.
      * intros _. exists g. apply lookup_insert_eq.
    + injection H as <- <-. simpl. split; [| split; [| split]].
      * exists [CreateGlossary md5_hash src tgt terms]. auto.
      * reflexivity.
      * apply slots_fill_refl.
      * discriminate.
  - now apply (Hnone (KeyError target)).
Qed.

Lemma sync_targets_spec md5_hash source entries gs targets : forall st st' o,
  sync_targets genv md5_hash source entries gs targets st = (st', o) ->
  (exists new, snd st' = snd st ++ new /\
     forall op, op ∈ new ->
       exists target, target ∈ targets /\ target <> source /\
         py_in target entries = Ok true /\
         in_order genv md5_hash source entries gs (fst st) target op) /\
  (forall l, l ∉ targets \/ l = source \/ py_in l entries = Ok false ->
     fst st' !! l = fst st !! l) /\
  slots_fill (fst st) (fst st') /\
  (o = None -> forall target, target ∈ targets -> target <> source ->
     py_in target entries = Ok true ->
     exists g, fst st' !! target = Some (Some g)).
Proof.
  induction targets as [| target rest IH]; intros st st' o H; simpl in H.
  - injection H as <- <-. split; [| split; [| split]].
    + exists []. split; [now rewrite app_nil_r |]. intros op Hop. inversion Hop.
    + reflexivity.
    + apply slots_fill_refl.
    + intros _ target Hin. inversion Hin.
  - assert (Hskip :
      sync_targets genv md5_hash source entries gs rest st = (st', o) ->
      (target = source \/ py_in target entries = Ok false) ->
      (exists new, snd st' = snd st ++ new /\
         forall op, op ∈ new ->
           exists target0, target0 ∈ target :: rest /\ target0 <> source /\
             py_in target0 entries = Ok true /\
             in_order genv md5_hash source entries gs (fst st) target0 op) /\
      (forall l, l ∉ target :: rest \/ l = source \/ py_in l entries = Ok false ->
         fst st' !! l = fst st !! l) /\
      slots_fill (fst st) (fst st') /\
      (o = None -> forall target0, target0 ∈ target :: rest -> target0 <> source ->
         py_in target0 entries = Ok true ->
         exists g, fst st' !! target0 = Some (Some g))).
    { intros Hrest Hwhy.
      destruct (IH _ _ _ Hrest) as ([new [Hnew Hops]] & Hoth & Hfill & Hready).
      split; [| split; [| split]]; auto.
      - exists new. split; auto. intros op Hop.
        destruct (Hops op Hop) as (t0 & Hin & Hrem).
        exists t0. split; auto. now apply list_elem_of_further.
      - intros l Hl. apply Hoth. destruct Hl as [Hl | Hl]; auto.
        left. intros Hin. apply Hl. now apply list_elem_of_further.
      - intros -> t0 Hin Hne Hhas. apply elem_of_cons in Hin as [-> | Hin].
        + destruct Hwhy; congruence.
        + now apply (Hready eq_refl). }
    destruct (String.eqb_spec target source) as [Esrc | Esrc]; [apply Hskip; auto |].
    destruct (py_in target entries) as [[|] | e] eqn:Ein; [| apply Hskip; auto |].
    2:{ injection H as <- <-. split; [| split; [| split]].
        - exists []. split; [now rewrite app_nil_r |]. intros op Hop. inversion Hop.
        - reflexivity.
        - apply slots_fill_refl.
        - discriminate. }
    destruct (match_glossaries genv md5_hash source target gs st) as [st1 o1] eqn:E1.
    destruct (match_glossaries_spec _ _ _ _ _ _ _ E1)
      as ([new1 [Hnew1 Hops1]] & Hoth1 & Hfill1 & Hup1).
    assert (Hdel : forall op, op ∈ new1 ->
      exists target0, target0 ∈ target :: rest /\ target0 <> source /\
        py_in target0 entries = Ok true /\
        in_order genv md5_hash source entries gs (fst st) target0 op).
    { intros op Hop. destruct (Hops1 op Hop) as (g & -> & Hin & Hout).
      exists target. split; [apply list_elem_of_here |]. simpl. auto. }
    assert (Hkeep1 : forall l, l ∉ target :: rest \/ l = source \/ py_in l entries = Ok false ->
      l <> target).
    { intros l [Hl | [Hl | Hl]] ->.
      - apply Hl, list_elem_of_here.
      - contradiction.
      - congruence. }
    destruct o1 as [e1 |].
    { injection H as <- <-. split; [| split; [| split]].
      - exists new1. auto.
      - intros l Hl. apply Hoth1. now apply Hkeep1.
      - assumption.
      - discriminate. }
    destruct (create_if_missing genv md5_hash source target entries st1) as [st2 o2] eqn:E2.
    destruct (create_if_missing_spec _ _ _ _ _ _ _ E2)
      as ([new2 [Hnew2 Hops2]] & Hoth2 & Hfill2 & Hready2).
    assert (Hcre : forall op, op ∈ new2 ->
      exists target0, target0 ∈ target :: rest /\ target0 <> source /\
        py_in target0 entries = Ok true /\
        in_order genv md5_hash source entries gs (fst st) target0 op).
    { intros op Hop. destruct (Hops2 op Hop) as (src & tgt & terms & -> & Hs & Ht & Hterms & Hslot).
      exists target. split; [apply list_elem_of_here |]. simpl.
      repeat split; auto.
      - now apply (slots_fill_empty _ _ _ Hfill1).
      - intros g Hg Hcur. destruct (Hup1 eq_refl g Hg Hcur) as [g' Hg']. congruence. }
    destruct o2 as [e2 |].
    { injection H as <- <-. split; [| split; [| split]].
      - exists (new1 ++ new2). split.
        + rewrite Hnew2, Hnew1, <- app_assoc. reflexivity.
        + intros op Hop. apply elem_of_app in Hop as [Hop | Hop]; auto.
      - intros l Hl. rewrite Hoth2, Hoth1; auto.
      - eapply slots_fill_trans; eauto.
      - discriminate. }
    destruct (IH _ _ _ H) as ([new3 [Hnew3 Hops3]] & Hoth3 & Hfill3 & Hready3).
    assert (Hfill12 : slots_fill (fst st) (fst st2)) by (eapply slots_fill_trans; eauto).
    split; [| split; [| split]].
    + exists (new1 ++ new2 ++ new3). split.
      * rewrite Hnew3, Hnew2, Hnew1, <- !app_assoc. reflexivity.
      * intros op Hop. apply elem_of_app in Hop as [Hop | Hop]; auto.
        apply elem_of_app in Hop as [Hop | Hop]; auto.
        destruct (Hops3 op Hop) as (t0 & Hin & Hne & Hhas & Hord).
        exists t0. split; [now apply list_elem_of_further |]. split; auto. split; auto.
        destruct op as [g | name src tgt terms]; simpl in *; auto.
        destruct Hord as (Hn & Hs & Ht & Hterms & Hslot & Hnone).
        repeat split; auto. now apply (slots_fill_empty _ _ _ Hfill12).
    + intros l Hl. rewrite Hoth3, Hoth2, Hoth1; auto.
      destruct Hl as [Hl | Hl]; auto. left. intros Hin. apply Hl.
      now apply list_elem_of_further.
    + eapply slots_fill_trans; eauto.
    + intros -> t0 Hin Hne Hhas. apply elem_of_cons in Hin as [-> | Hin].
      * destruct (Hready2 eq_refl) as [g Hg].
        now apply (slots_fill_full _ _ _ _ Hfill3 Hg).
      * now apply (Hready3 eq_refl).
Qed.

(** X22. [__create_deepl_glossaries] asks the provider for nothing that is
    not in order: every request it makes, whether it returns or raises, is
    for a target language other than the source language that the term list
    has terms for, and either deletes an outdated glossary of that language
    pair which the provider listed, or creates the glossary of the pair,
    named after the digest of the term list, when the slot of the language
    was empty at the start and the provider listed no current glossary of
    the pair.  Without a term list that is JSON, or without the provider's
    list, there is no request. *)
Theorem glossaries_requests_in_order cfg table table' ops o op :
  __create_deepl_glossaries genv cfg table = ((table', ops), o) ->
  op ∈ ops ->
  exists md5_hash entries deepl_glossaries target,
    glossary_file_of genv (source_language cfg) = GlossaryFile md5_hash (Some entries) /\
    list_glossaries genv = Ok deepl_glossaries /\
    target ∈ target_languages cfg /\ target <> source_language cfg /\
    py_in target entries = Ok true /\
    in_order genv md5_hash (source_language cfg) entries deepl_glossaries table target op.
Proof.
  unfold __create_deepl_glossaries. intros H Hop.
  destruct (glossary_file_of genv (source_language cfg)) as [| md5_hash [entries |]] eqn:Efile.
  - injection H as <- <- <-. inversion Hop.
  - destruct (list_glossaries genv) as [gs | e] eqn:Elist.
    + destruct (sync_targets_spec _ _ _ _ _ _ _ _ H) as ([new [Hnew Hops]] & _).
      simpl in Hnew. subst new.
      destruct (Hops op Hop) as (target & Hin & Hne & Hhas & Hord).
      exists md5_hash, entries, gs, target. repeat split; assumption.
    + injection H as <- <- <-. inversion Hop.
  - injection H as <- <- <-. inversion Hop.
Qed.

(** X23. When [__create_deepl_glossaries] returns, every target language
    other than the source language that the term list has terms for has a
    glossary in its slot. *)
Theorem glossaries_ready cfg table table' ops md5_hash entries target :
  __create_deepl_glossaries genv cfg table = ((table', ops), None) ->
  glossary_file_of genv (source_language cfg) = GlossaryFile md5_hash (Some entries) ->
  target ∈ target_languages cfg -> target <> source_language cfg ->
  py_in target entries = Ok true ->
  exists g, table' !! target = Some (Some g).
Proof.
  unfold __create_deepl_glossaries. intros H Efile Hin Hne Hhas. rewrite Efile in H.
  destruct (list_glossaries genv) as [gs | e] eqn:Elist; [| discriminate].
  destruct (sync_targets_spec _ _ _ _ _ _ _ _ H) as (_ & _ & _ & Hready).
  now apply (Hready eq_refl).
Qed.

(** X24. [__create_deepl_glossaries] leaves the slots of the source language
    and of the languages that are no target languages as they were, removes
    no slot, and empties none, whether it returns or raises. *)
Theorem glossaries_keep_slots cfg table table' ops o :
  __create_deepl_glossaries genv cfg table = ((table', ops), o) ->
  (forall l, l ∉ target_languages cfg \/ l = source_language cfg ->
     table' !! l = table !! l) /\
  (forall l, is_Some (table !! l) -> is_Some (table' !! l)) /\
  (forall l g, table !! l = Some (Some g) -> exists g', table' !! l = Some (Some g')).
Proof.
  unfold __create_deepl_glossaries. intros H.
  assert (Hsame : (table', ops, o) = (table, [], o) ->
    (forall l, l ∉ target_languages cfg \/ l = source_language cfg ->
       table' !! l = table !! l) /\
    (forall l, is_Some (table !! l) -> is_Some (table' !! l)) /\
    (forall l g, table !! l = Some (Some g) -> exists g', table' !! l = Some (Some g'))).
  { intros E. injection E as -> ->. split; [| split]; eauto. }
  destruct (glossary_file_of genv (source_language cfg)) as [| md5_hash [entries |]] eqn:Efile.
  - injection H as <- <- <-. now apply Hsame.
  - destruct (list_glossaries genv) as [gs | e] eqn:Elist.
    + destruct (sync_targets_spec _ _ _ _ _ _ _ _ H) as (_ & Hoth & Hfill & _).
      simpl in *. split; [| split].
      * intros l Hl. apply Hoth. tauto.
      * intros l [v Hv]. destruct (Hfill l) as [E | [g E]]; rewrite E; eauto.
      * intros l g. apply slots_fill_full, Hfill.
    + injection H as <- <- <-. now apply Hsame.
  - injection H as <- <- <-. now apply Hsame.
Qed.

End GlossariesMore.

Lemma create_deepl_glossaries_slots genv cfg table table' ops o :
  __create_deepl_glossaries genv cfg table = ((table', ops), o) ->
  slots_fill table table' /\
  (o = None -> forall md5_hash entries target,
     glossary_file_of genv (source_language cfg) = GlossaryFile md5_hash (Some entries) ->
     target ∈ target_languages cfg -> target <> source_language cfg ->
     py_in target entries = Ok true ->
     exists g, table' !! target = Some (Some g)).
Proof.
  unfold __create_deepl_glossaries. intros H.
  destruct (glossary_file_of genv (source_language cfg)) as [| md5_hash [entries |]] eqn:Efile.
  - injection H as <- <- <-. split; [apply slots_fill_refl | discriminate].
  - destruct (list_glossaries genv) as [gs | e] eqn:Elist.
    + destruct (sync_targets_spec _ _ _ _ _ _ _ _ _ H) as (_ & _ & Hfill & Hready).
      split; auto. intros -> md5' entries' target E. injection E as <- <-.
      now apply (Hready eq_refl).
    + injection H as <- <- <-. split; [apply slots_fill_refl | discriminate].
  - injection H as <- <- <-. split; [apply slots_fill_refl | discriminate].
Qed.

(** X25. When the glossary procedure of the environment is
    [__create_deepl_glossaries], the property [deepl_translator] leaves
    the tables with what [transalte_with_deepl] looks up, if they had it,
    whether it returns or raises; and when it creates the provider handle
    and returns, every target language other than the source language that
    the term list has terms for has its glossary. *)
Theorem deepl_translator_syncs_glossaries genv consts env s r s' :
  (forall t cfg table, sync_glossaries env t cfg table = glossaries_of genv t cfg table) ->
  deepl_translator env s = (r, s') ->
  (tables_cover consts s -> tables_cover consts s') /\
  (forall md5_hash entries target,
     deepl_translator_attr s = None -> is_Some (deepl_api_key (config s)) ->
     (exists t, r = Ok t) ->
     glossary_file_of genv (source_language (config s)) = GlossaryFile md5_hash (Some entries) ->
     target ∈ target_languages (config s) -> target <> source_language (config s) ->
     py_in target entries = Ok true ->
     exists g, glossary s' !! target = Some (Some g)).
Proof.
  intros Henv H. unfold deepl_translator in H.
  destruct (deepl_translator_attr s) as [t0 |] eqn:Eattr.
  { injection H as <- <-. split; auto. discriminate. }
  destruct (deepl_api_key (config s)) as [key |] eqn:Ekey.
  2:{ injection H as <- <-. split; auto. intros md5_hash entries target _ [k Hk]. discriminate. }
  rewrite Henv in H. unfold glossaries_of in H. simpl in H.
  destruct (__create_deepl_glossaries genv (config s) (glossary s)) as [[table' ops] o] eqn:E.
  simpl in H.
  destruct (create_deepl_glossaries_slots _ _ _ _ _ _ E) as (Hfill & Hready).
  assert (Hcover : forall s1, config s1 = config s -> glossary s1 = table' ->
    tables_cover consts s -> tables_cover consts s1).
  { intros s1 Hc Hg [Hsrc Htab]. split; rewrite Hc; auto.
    intros l Hl. destruct (Htab l Hl) as [Hl1 [v Hl2]]. split; auto. rewrite Hg.
    destruct (Hfill l) as [E' | [g E']]; rewrite E'; eauto. }
  destruct o as [e |]; injection H as <- <-.
  - split; [now apply Hcover |]. intros md5_hash entries target _ _ [t Ht]. discriminate.
  - split; [now apply Hcover |]. intros md5_hash entries target _ _ _ Hfile Hin Hne Hhas.
    simpl. eapply Hready; eauto.
Qed.

(** ** The further properties on the sample runs *)

Section MoreSamples.
Import Sample Cases.

Ltac member := vm_compute; repeat first [apply list_elem_of_here | apply list_elem_of_further].
Ltac cases_of H :=
  vm_compute in H;
  repeat (apply elem_of_cons in H as [-> | H]);
  try (apply elem_of_nil in H; contradiction).
Ltac some := apply is_Some_alt; vm_compute; exact I.

Lemma deepl_translator_created_once_witness :
  exists t,
    deepl_translator_attr (snd (deepl_translator good_env (sample (Some "key")))) = Some t /\
    deepl_translator good_env (snd (deepl_translator good_env (sample (Some "key"))))
    = (Ok (Some t), snd (deepl_translator good_env (sample (Some "key")))).
Proof.
  destruct (deepl_translator_created_once good_env (sample (Some "key"))
              (fst (deepl_translator good_env (sample (Some "key"))))
              (snd (deepl_translator good_env (sample (Some "key")))))
    as (t & Ht & _ & Hagain).
  - right. some.
  - apply surjective_pairing.
  - exists t. split; assumption.
Defined.

Lemma do_translate_covered_no_call_witness :
  new_calls second_run (fst (do_translate sample_consts good_env second_run)) = [] /\
  api_call_counter (fst (do_translate sample_consts good_env second_run))
  = api_call_counter second_run /\
  existing_translations (fst (do_translate sample_consts good_env second_run))
  = existing_translations second_run.
Proof.
  apply (do_translate_covered_no_call sample_consts good_env second_run _
           (snd (do_translate sample_consts good_env second_run))).
  - intros f p language Hf Hp Hl _.
    cases_of Hl; cases_of Hf; cases_of Hp; some.
  - apply surjective_pairing.
Defined.

Lemma do_translate_keeps_cache_witness :
  cell (existing_translations translated) "Bonjour" "en-US" = Some "Hello".
Proof.
  apply (do_translate_keeps_cache sample_consts good_env (sample (Some "key")) translated
           (snd (do_translate sample_consts good_env (sample (Some "key"))))).
  - apply surjective_pairing.
  - vm_compute. reflexivity.
Defined.

Lemma do_translate_completes_prompts_witness :
  Forall (fun f => Forall (fun p => has_translation "es-ES" p = true) (prompts (snd f)))
    (files translated).
Proof.
  apply Forall_forall. intros f Hf. apply Forall_forall. intros p Hp.
  apply (do_translate_completes_prompts sample_consts good_env (sample (Some "key"))
           translated f p "es-ES"); try assumption.
  - right. some.
  - vm_compute. reflexivity.
  - member.
Defined.

Lemma do_translate_counter_witness :
  api_call_counter (fst (do_translate sample_consts bad_env (sample (Some "key"))))
  = api_call_counter (sample (Some "key"))
    + length (new_calls (sample (Some "key"))
                (fst (do_translate sample_consts bad_env (sample (Some "key"))))).
Proof.
  apply (do_translate_counter sample_consts bad_env (sample (Some "key")) _ None).
  vm_compute. reflexivity.
Defined.

Lemma do_translate_does_not_raise_witness :
  snd (do_translate sample_consts bad_env sample_ready) = None.
Proof.
  apply do_translate_does_not_raise.
  - some.
  - split; [some |]. intros language Hl. cases_of Hl; split; some.
  - intros n req. discriminate.
Defined.

Lemma translate_info_json_keeps_descriptions_witness :
  exists ds',
    info_json_content (fst (translate_info_json sample_consts good_env described))
    = Some (JObj (dict_set "description" (JObj ds') descriptor)) /\
    dict_get "en-US" ds' = Some (JStr "A hand-made text") /\
    dict_get "de-DE" ds' = Some (JStr "Ein Modul") /\
    is_Some (dict_get "es-ES" ds').
Proof.
  destruct (translate_info_json_keeps_descriptions sample_consts good_env described
              (fst (translate_info_json sample_consts good_env described)) descriptor
              (JObj [("fr-FR", JStr "Un module"); ("en-US", JStr "A hand-made text");
                     ("es-ES", JStr ""); ("de-DE", JStr "Ein Modul")])
              (JStr "Un module"))
    as (ds' & Hc & Hkeep & _ & Hall).
  - reflexivity.
  - reflexivity.
  - reflexivity.
  - vm_compute. reflexivity.
  - some.
  - exists ds'. split; [exact Hc |].
    split; [apply Hkeep; [reflexivity | discriminate] |].
    split; [apply Hkeep; [reflexivity | discriminate] |].
    apply Hall. member.
Defined.

Lemma translate_info_json_calls_witness :
  Forall (fun c => call_text c = JStr "Un module" /\ call_target_language c = "es-ES")
    (new_calls described (fst (translate_info_json sample_consts good_env described))).
Proof.
  eapply Forall_impl.
  - apply (translate_info_json_calls sample_consts good_env described
             (fst (translate_info_json sample_consts good_env described))
             (snd (translate_info_json sample_consts good_env described)) descriptor
             (JObj [("fr-FR", JStr "Un module"); ("en-US", JStr "A hand-made text");
                    ("es-ES", JStr ""); ("de-DE", JStr "Ein Modul")])).
    + reflexivity.
    + reflexivity.
    + apply surjective_pairing.
  - intros c (Htext & Hl & Hwhy).
    change (Some (JStr "Un module") = Some (call_text c)) in Htext.
    remember (call_target_language c) as language eqn:El.
    split; [congruence |].
    cases_of Hl; vm_compute in Hwhy; destruct Hwhy; try discriminate. reflexivity.
Defined.

Lemma translate_info_json_nothing_to_translate_witness :
  info_json_content (fst (translate_info_json sample_consts good_env sample_ready))
  = Some (JObj [("id", JStr "x"); ("language", JList [JStr "fr-FR"])]) /\
  new_calls sample_ready (fst (translate_info_json sample_consts good_env sample_ready)) = [] /\
  api_call_counter (fst (translate_info_json sample_consts good_env sample_ready))
  = api_call_counter sample_ready.
Proof.
  apply (translate_info_json_nothing_to_translate sample_consts good_env sample_ready _
           (snd (translate_info_json sample_consts good_env sample_ready))).
  - reflexivity.
  - left. reflexivity.
  - apply surjective_pairing.
Defined.

Lemma write_plugin_translations_skips_source_witness :
  Forall (fun out => fst out <> source_language (config translated))
    (drop (length (written (world translated)))
       (written (world (write_plugin_translations translated)))).
Proof.
  apply Forall_forall. intros out Hout.
  apply (write_plugin_translations_skips_source translated out); [| exact Hout].
  vm_compute. reflexivity.
Defined.

Lemma write_plugin_translations_complete_witness :
  exists doc,
    ("es-ES", doc)
      ∈ drop (length (written (world translated)))
          (written (world (write_plugin_translations translated))) /\
    dict_get "plugins/x/core/template.html" doc = Some [("Bonjour", "ES:Bonjour")].
Proof.
  destruct (write_plugin_translations_complete translated "es-ES"
              "plugins/x/core/template.html"
              (nth 0 (map snd (files translated)) {| prompts := [] |}))
    as (doc & Hdoc & Hget).
  - apply (bool_decide_unpack _). vm_compute. exact I.
  - apply (list_elem_of_lookup_2 _ 0). vm_compute. reflexivity.
  - member.
  - left. vm_compute. discriminate.
  - vm_compute. discriminate.
  - exists doc. split; [exact Hdoc |]. rewrite Hget. vm_compute. reflexivity.
Defined.

Lemma write_info_json_keeps_fields_witness :
  exists ob',
    __write_info_json (sample (Some "key"))
    = (set_world (write_info_json_file (JObj ob') (world (sample (Some "key"))))
         (set_info_json_content (Some (JObj ob')) (sample (Some "key"))), None) /\
    dict_get "id" ob' = Some (JStr "x") /\
    map fst ob' = ["id"; "language"].
Proof.
  destruct (write_info_json_keeps_fields (sample (Some "key"))
              [("id", JStr "x"); ("language", JList [JStr "fr-FR"])] eq_refl)
    as (ob' & Hrun & Hkeep & Hkeys).
  exists ob'. split; [exact Hrun |]. split; [| exact Hkeys].
  rewrite Hkeep; [reflexivity | discriminate].
Defined.

Lemma loader_passes_over_witness :
  cell (existing_translations
          (_get_translations_from_json_files plugin_dir (sample (Some "key"))))
    "Bonjour" "es-ES"
  = cell (existing_translations (sample (Some "key"))) "Bonjour" "es-ES" /\
  files (_get_translations_from_json_files plugin_dir (sample (Some "key")))
  = files (sample (Some "key")) /\
  world (_get_translations_from_json_files plugin_dir (sample (Some "key")))
  = world (sample (Some "key")).
Proof.
  apply (loader_passes_over plugin_dir (sample (Some "key")) "Bonjour" "es-ES").
  right. right. reflexivity.
Defined.

Lemma loader_file_wins_witness :
  cell (existing_translations
          (_get_translations_from_json_files plugin_dir (sample (Some "key"))))
    "Bonjour" "en-US"
  = Some "Good morning".
Proof.
  refine (loader_file_wins plugin_dir (sample (Some "key")) "Bonjour" "en-US" _ _ eq_refl).
  member.
Defined.

Lemma core_translations_take_precedence_witness :
  cell (existing_translations
          (fst (get_core_translations with_core
                  (get_plugin_translations with_core (sample (Some "key"))))))
    "Bonjour" "en-US"
  = Some "Hello from the core".
Proof.
  refine (core_translations_take_precedence with_core core_dir (sample (Some "key")) _
            "Bonjour" "en-US" _ "Hello from the core" eq_refl _ eq_refl eq_refl eq_refl).
  member.
Defined.

Lemma written_file_loads_back_witness :
  exists tr' path' f,
    cell (existing_translations
            (_get_translations_from_json_files written_dir (sample None)))
      "Au revoir" "es-ES" = Some tr' /\
    (path', f) ∈ files translated /\
    ("Au revoir", tr')
      ∈ get_prompts_and_translation "es-ES" (include_empty_translation (config translated)) f.
Proof.
  apply (written_file_loads_back translated "es-ES"
           [("plugins/x/core/template.html", [("Bonjour", "ES:Bonjour")]);
            ("plugins/x/desktop/panel.php",
             [("Bonjour", "ES:Bonjour"); ("Au revoir", "ES:Au revoir")])]
           [("plugins/x/core/template.html", [("Bonjour", "ES:Bonjour")]);
            ("plugins/x/desktop/panel.php",
             [("Au revoir", "ES:Au revoir"); ("Bonjour", "ES:Bonjour")])]
           written_dir (sample None) "plugins/x/desktop/panel.php"
           [("Au revoir", "ES:Au revoir"); ("Bonjour", "ES:Bonjour")]
           "Au revoir" "ES:Au revoir").
  - apply (list_elem_of_lookup_2 _ 1). vm_compute. reflexivity.
  - intros path ps Hin.
    apply elem_of_cons in Hin as [Hin | Hin]; [| apply elem_of_cons in Hin as [Hin | Hin]].
    + injection Hin as -> ->. eexists. split; [apply list_elem_of_here |]. auto.
    + injection Hin as -> ->. eexists.
      split; [apply list_elem_of_further, list_elem_of_here |].
      intros entry He. cases_of He; member.
    + apply elem_of_nil in Hin. contradiction.
  - reflexivity.
  - member.
  - member.
  - member.
Defined.

Lemma start_without_core_root_witness :
  exists s' msg,
    start sample_consts good_env found without_core using_core
    = (s', Some (RuntimeError msg)) /\
    files s' = files using_core /\ world s' = world using_core /\
    api_call_counter s' = api_call_counter using_core.
Proof.
  apply (start_without_core_root sample_consts good_env found without_core using_core);
    reflexivity.
Defined.

Lemma glossaries_requests_in_order_witness :
  exists md5_hash entries deepl_glossaries target,
    glossary_file_of GlossarySample.sample_genv (source_language (sample_config None))
    = GlossaryFile md5_hash (Some entries) /\
    list_glossaries GlossarySample.sample_genv = Ok deepl_glossaries /\
    target ∈ target_languages (sample_config None) /\
    target <> source_language (sample_config None) /\
    py_in target entries = Ok true /\
    in_order GlossarySample.sample_genv md5_hash (source_language (sample_config None))
      entries deepl_glossaries GlossarySample.sample_table target
      (CreateGlossary "abcd" "fr" "en" (JObj [("Bonjour", JStr "Hello")])).
Proof.
  apply (glossaries_requests_in_order GlossarySample.sample_genv (sample_config None)
           GlossarySample.sample_table
           (fst (fst (__create_deepl_glossaries GlossarySample.sample_genv
                        (sample_config None) GlossarySample.sample_table)))
           (snd (fst (__create_deepl_glossaries GlossarySample.sample_genv
                        (sample_config None) GlossarySample.sample_table)))
           (snd (__create_deepl_glossaries GlossarySample.sample_genv
                   (sample_config None) GlossarySample.sample_table))).
  - vm_compute. reflexivity.
  - apply (list_elem_of_lookup_2 _ 1). vm_compute. reflexivity.
Defined.

Lemma glossaries_ready_witness :
  exists g,
    fst (fst (__create_deepl_glossaries GlossarySample.sample_genv
                (sample_config None) GlossarySample.sample_table)) !! "es-ES"
    = Some (Some g).
Proof.
  apply (glossaries_ready GlossarySample.sample_genv (sample_config None)
           GlossarySample.sample_table _
           (snd (fst (__create_deepl_glossaries GlossarySample.sample_genv
                        (sample_config None) GlossarySample.sample_table)))
           "abcd" GlossarySample.terms "es-ES").
  - vm_compute. reflexivity.
  - reflexivity.
  - member.
  - discriminate.
  - reflexivity.
Defined.

Lemma glossaries_keep_slots_witness :
  let table' :=
    fst (fst (__create_deepl_glossaries GlossarySample.sample_genv
                (sample_config None) GlossarySample.sample_table)) in
  table' !! "fr-FR" = GlossarySample.sample_table !! "fr-FR" /\
  is_Some (table' !! "en-US").
Proof.
  intros table'.
  destruct (glossaries_keep_slots GlossarySample.sample_genv (sample_config None)
              GlossarySample.sample_table table'
              (snd (fst (__create_deepl_glossaries GlossarySample.sample_genv
                           (sample_config None) GlossarySample.sample_table)))
              (snd (__create_deepl_glossaries GlossarySample.sample_genv
                      (sample_config None) GlossarySample.sample_table)))
    as (Hother & Hsome & _).
  - vm_compute. reflexivity.
  - split.
    + apply Hother. right. reflexivity.
    + apply Hsome. some.
Defined.

Lemma deepl_translator_syncs_glossaries_witness :
  let s' := snd (deepl_translator glossary_env (sample (Some "key"))) in
  tables_cover sample_consts s' /\
  exists g, glossary s' !! "en-US" = Some (Some g).
Proof.
  intros s'.
  destruct (deepl_translator_syncs_glossaries GlossarySample.sample_genv sample_consts
              glossary_env (sample (Some "key"))
              (fst (deepl_translator glossary_env (sample (Some "key")))) s')
    as (Hcover & Hready).
  - reflexivity.
  - apply surjective_pairing.
  - split.
    + apply Hcover. split; [some |]. intros language Hl. cases_of Hl; split; some.
    + apply (Hready "abcd" GlossarySample.terms "en-US").
      * reflexivity.
      * some.
      * eexists. vm_compute. reflexivity.
      * reflexivity.
      * member.
      * discriminate.
      * reflexivity.
Defined.

End MoreSamples.
